(** * Agreement validation (validator.py): a shallow embedding and its properties

    The development follows src/validator.py top to bottom:
    the Python built-ins the module calls (str methods, difflib's
    SequenceMatcher, the parts of [re] it needs), then [simple_diff],
    [fuzzy_ratio], [AgreementValidator.__init__], [_search_pan_gst],
    [_keyword_check] and [validate].

    Conventions.
    - A Python [str] is a [list ascii]: a sequence of code points below 256.
      The str methods ([lower], [split], [strip], [splitlines]) are written
      out for exactly that range.
    - Python's unbounded [int] indices are [nat]; a subtraction that can go
      below zero in the source is written so that it cannot here.
    - The scores of the report are exact rationals of [Q]: [fuzzy_ratio] and
      [ratio] give the value the float arithmetic of the source rounds. Where
      it matters which of two scores the program finds greater, the scorer is
      also given in IEEE 754 doubles ([fuzzy_ratio_double], over [SpecFloat]
      at precision 53), and the matcher with the scorer as a parameter.
    - An exception is the [Raise] constructor of [result].
    - [difflib.SequenceMatcher] is written out as CPython's difflib has it,
      without junk and with [autojunk] on, the way the module calls it.
    - A compiled regular expression is the function that matches it at a
      position; [re.compile] on a configured string and [float] on a str are
      arguments of [__init__], and the optional PDF libraries an argument of
      [validate]. The two built-in patterns are written out in a small
      pattern syntax with its matcher.
    - The configuration read by [yaml.safe_load] is a mapping from strings to
      YAML values. *)

From Stdlib Require Import Ascii String DecimalString DecimalNat QArith Lqa SpecFloat.
From stdpp Require Import gmap strings list fin_maps sorting.

Local Open Scope nat_scope.

(** ** Strings *)

Abbreviation str := (list ascii).

Definition T (s : string) : str := list_ascii_of_string s.

(** Code point of a character. *)
Definition ord (c : ascii) : nat := nat_of_ascii c.

(** [a[i:j]] for [0 <= i], [0 <= j]. *)
Definition slice {A} (l : list A) (i j : nat) : list A := take (j - i) (drop i l).

(** ** str methods, on code points below 256 *)

(** [c.isspace()]: TAB..CR, FS..US, SPACE, NEL (0x85), NBSP (0xA0). *)
Definition isspace (c : ascii) : bool :=
  let n := ord c in
  ((9 <=? n) && (n <=? 13)) || ((28 <=? n) && (n <=? 32)) || (n =? 133) || (n =? 160).

(** A line boundary of [str.splitlines]: LF, VT, FF, CR, FS, GS, RS, NEL. *)
Definition islinebreak (c : ascii) : bool :=
  let n := ord c in
  ((10 <=? n) && (n <=? 13)) || ((28 <=? n) && (n <=? 30)) || (n =? 133).

(** [c.lower()]: A-Z and the Latin-1 capitals 0xC0-0xDE except 0xD7. *)
Definition lower_char (c : ascii) : ascii :=
  let n := ord c in
  if ((65 <=? n) && (n <=? 90)) || ((192 <=? n) && (n <=? 222) && negb (n =? 215))
  then ascii_of_nat (n + 32) else c.

(** [s.lower()]. *)
Definition lower (s : str) : str := map lower_char s.

(** [s.lstrip()], [s.rstrip()], [s.strip()]. *)
Fixpoint lstrip (s : str) : str :=
  match s with
  | c :: s' => if isspace c then lstrip s' else s
  | [] => []
  end.

Definition rstrip (s : str) : str := reverse (lstrip (reverse s)).

Definition strip (s : str) : str := rstrip (lstrip s).

(** [s.split()]: the maximal runs of non-whitespace; [cur] is the run
    being read. *)
Fixpoint split_loop (s : str) (cur : str) : list str :=
  match s with
  | [] => if decide (cur = []) then [] else [cur]
  | c :: s' =>
      if isspace c
      then (if decide (cur = []) then split_loop s' [] else cur :: split_loop s' [])
      else split_loop s' (cur ++ [c])
  end.

Definition split (s : str) : list str := split_loop s [].

(** [s.splitlines()]: CR LF counts as one boundary and a final boundary
    opens no further line; [cur] is the line being read. *)
Fixpoint splitlines_loop (s : str) (cur : str) : list str :=
  match s with
  | [] => if decide (cur = []) then [] else [cur]
  | c :: s' =>
      if decide (ord c = 13) then
        match s' with
        | c' :: s'' =>
            if decide (ord c' = 10) then cur :: splitlines_loop s'' []
            else cur :: splitlines_loop s' []
        | [] => [cur]
        end
      else if islinebreak c then cur :: splitlines_loop s' []
      else splitlines_loop s' (cur ++ [c])
  end.

Definition splitlines (s : str) : list str := splitlines_loop s [].

(** [t.startswith(k)] and [k in t]. *)
Fixpoint startswith (t k : str) : bool :=
  match k, t with
  | [], _ => true
  | x :: k', y :: t' => if decide (x = y) then startswith t' k' else false
  | _ :: _, [] => false
  end.

Fixpoint contains (t k : str) : bool :=
  startswith t k ||
  match t with
  | [] => false
  | _ :: t' => contains t' k
  end.

(** ** difflib.SequenceMatcher(None, a, b), autojunk left at its default *)

Module difflib.

(** [__chain_b]: for each element of [b] the ascending list of its positions.
    [isjunk] is [None], so no element is junk; with [autojunk] and
    [len(b) >= 200] the elements that occur more than [n // 100 + 1] times
    are dropped from the table. *)
Fixpoint chain_b_fill (b : str) (i : nat) (b2j : gmap ascii (list nat))
  : gmap ascii (list nat) :=
  match b with
  | [] => b2j
  | elt :: b' => chain_b_fill b' (S i) (<[elt := default [] (b2j !! elt) ++ [i]]> b2j)
  end.

Definition chain_b (b : str) : gmap ascii (list nat) :=
  let b2j := chain_b_fill b 0 ∅ in
  let n := length b in
  if decide (200 ≤ n) then
    let ntest := n / 100 + 1 in
    filter (λ kv, ¬ (ntest < length kv.2)) b2j
  else b2j.

(** A match [(i, j, size)]: [a[i:i+size] == b[j:j+size]]. *)
Record Match := mkMatch { m_a : nat; m_b : nat; m_size : nat }.

(** The body of the inner [for j in b2j.get(a[i], nothing)] loop of
    [find_longest_match]: [continue] when [j < blo], [break] when
    [j >= bhi]. The state is [(newj2len, besti, bestj, bestsize)]. *)
Fixpoint flm_inner (i blo bhi : nat) (j2len : gmap nat nat) (js : list nat)
    (newj2len : gmap nat nat) (best : Match) : gmap nat nat * Match :=
  match js with
  | [] => (newj2len, best)
  | j :: js' =>
      if decide (j < blo) then flm_inner i blo bhi j2len js' newj2len best
      else if decide (bhi ≤ j) then (newj2len, best)
      else
        let k := match j with
                 | 0 => 0
                 | S j' => default 0 (j2len !! j')
                 end + 1 in
        let newj2len := <[j := k]> newj2len in
        let best := if decide (m_size best < k)
                    then mkMatch (i + 1 - k) (j + 1 - k) k else best in
        flm_inner i blo bhi j2len js' newj2len best
  end.

(** The outer [for i in range(alo, ahi)] loop; [rng] enumerates the range. *)
Fixpoint flm_outer (a : str) (b2j : gmap ascii (list nat)) (blo bhi : nat)
    (rng : list nat) (j2len : gmap nat nat) (best : Match) : Match :=
  match rng with
  | [] => best
  | i :: rng' =>
      let js := match a !! i with
                | Some x => default [] (b2j !! x)
                | None => []
                end in
      let '(newj2len, best) := flm_inner i blo bhi j2len js ∅ best in
      flm_outer a b2j blo bhi rng' newj2len best
  end.

(** [while besti > alo and bestj > blo and a[besti-1] == b[bestj-1]]:
    there is no junk, so [not isbjunk(...)] always holds.
    [fuel] bounds the number of iterations by [besti - alo]. *)
Fixpoint extend_left (a b : str) (alo blo : nat) (fuel : nat) (best : Match) : Match :=
  match fuel with
  | 0 => best
  | S fuel' =>
      let i := m_a best in
      let j := m_b best in
      if decide (alo < i ∧ blo < j ∧ is_Some (a !! (i - 1)) ∧ a !! (i - 1) = b !! (j - 1))
      then extend_left a b alo blo fuel' (mkMatch (i - 1) (j - 1) (m_size best + 1))
      else best
  end.

(** [while besti+bestsize < ahi and bestj+bestsize < bhi and
     a[besti+bestsize] == b[bestj+bestsize]]. *)
Fixpoint extend_right (a b : str) (ahi bhi : nat) (fuel : nat) (best : Match) : Match :=
  match fuel with
  | 0 => best
  | S fuel' =>
      let i := m_a best + m_size best in
      let j := m_b best + m_size best in
      if decide (i < ahi ∧ j < bhi ∧ is_Some (a !! i) ∧ a !! i = b !! j)
      then extend_right a b ahi bhi fuel' (mkMatch (m_a best) (m_b best) (m_size best + 1))
      else best
  end.

(** [find_longest_match(alo, ahi, blo, bhi)]. The two trailing loops of the
    source extend over junk only and never run, the junk set being empty. *)
Definition find_longest_match (a b : str) (b2j : gmap ascii (list nat))
    (alo ahi blo bhi : nat) : Match :=
  let best := flm_outer a b2j blo bhi (seq alo (ahi - alo)) ∅ (mkMatch alo blo 0) in
  let best := extend_left a b alo blo (m_a best - alo) best in
  extend_right a b ahi bhi (ahi - (m_a best + m_size best)) best.

(** A pending region [(alo, ahi, blo, bhi)] of [get_matching_blocks]. *)
Definition region : Type := nat * nat * nat * nat.

(** The [while queue:] loop of [get_matching_blocks]. The Python list
    [queue] is used as a stack ([append] / [pop]); here its top is the head.
    [matching_blocks.append(x)] adds at the end. The result is the pair of
    the blocks found and the regions still pending when [fuel] ran out. *)
Fixpoint gmb_loop (a b : str) (b2j : gmap ascii (list nat)) (fuel : nat)
    (queue : list region) (matching_blocks : list Match)
  : list Match * list region :=
  match fuel, queue with
  | _, [] => (matching_blocks, [])
  | 0, _ => (matching_blocks, queue)
  | S fuel', (alo, ahi, blo, bhi) :: queue =>
      let x := find_longest_match a b b2j alo ahi blo bhi in
      let '(i, j, k) := (m_a x, m_b x, m_size x) in
      if decide (k ≠ 0) then
        let queue := if decide (alo < i ∧ blo < j)
                     then (alo, i, blo, j) :: queue else queue in
        let queue := if decide (i + k < ahi ∧ j + k < bhi)
                     then (i + k, ahi, j + k, bhi) :: queue else queue in
        gmb_loop a b b2j fuel' queue (matching_blocks ++ [x])
      else gmb_loop a b b2j fuel' queue matching_blocks
  end.

(** Tuple order of [Match], as [list.sort()] uses it. *)
Definition Match_le (x y : Match) : Prop :=
  m_a x < m_a y ∨
  (m_a x = m_a y ∧ (m_b x < m_b y ∨ (m_b x = m_b y ∧ m_size x ≤ m_size y))).

Global Instance Match_le_dec : RelDecision Match_le.
Proof. intros x y. unfold Match_le. apply _. Defined.

(** The loop that merges adjacent blocks: [(i1, j1, k1)] is the block
    under construction, [non_adjacent] the output so far. *)
Fixpoint collapse (i1 j1 k1 : nat) (blocks : list Match) (non_adjacent : list Match)
  : list Match :=
  match blocks with
  | [] => non_adjacent ++ (if decide (k1 ≠ 0) then [mkMatch i1 j1 k1] else [])
  | x :: blocks' =>
      let '(i2, j2, k2) := (m_a x, m_b x, m_size x) in
      if decide (i1 + k1 = i2 ∧ j1 + k1 = j2)
      then collapse i1 j1 (k1 + k2) blocks' non_adjacent
      else collapse i2 j2 k2 blocks'
             (non_adjacent ++ (if decide (k1 ≠ 0) then [mkMatch i1 j1 k1] else []))
  end.

(** Every iteration of the loop removes a region and adds regions of
    strictly smaller total weight, a region [(alo, ahi, _, _)] weighing
    [2 * (ahi - alo) + 1]; the loop is run with the weight of the first
    region as fuel. *)
Definition gmb_fuel (a : str) : nat := 2 * length a + 1.

Definition get_matching_blocks (a b : str) : list Match :=
  let la := length a in
  let lb := length b in
  let matching_blocks :=
    (gmb_loop a b (chain_b b) (gmb_fuel a) [(0, la, 0, lb)] []).1 in
  let matching_blocks := merge_sort Match_le matching_blocks in
  collapse 0 0 0 matching_blocks [] ++ [mkMatch la lb 0].

Inductive tag := Replace | Delete | Insert | Equal.

Global Instance tag_eq_dec : EqDecision tag.
Proof. solve_decision. Defined.

(** An opcode [(tag, i1, i2, j1, j2)]. *)
Record opcode := mkOp { op_tag : tag; op_i1 : nat; op_i2 : nat; op_j1 : nat; op_j2 : nat }.

(** The [for ai, bj, size in self.get_matching_blocks()] loop of
    [get_opcodes], with the running [i], [j] and [answer]. *)
Fixpoint opcodes_loop (blocks : list Match) (i j : nat) (answer : list opcode)
  : list opcode :=
  match blocks with
  | [] => answer
  | x :: blocks' =>
      let '(ai, bj, size) := (m_a x, m_b x, m_size x) in
      let answer :=
        if decide (i < ai ∧ j < bj) then answer ++ [mkOp Replace i ai j bj]
        else if decide (i < ai) then answer ++ [mkOp Delete i ai j bj]
        else if decide (j < bj) then answer ++ [mkOp Insert i ai j bj]
        else answer in
      let '(i, j) := (ai + size, bj + size) in
      let answer :=
        if decide (size ≠ 0) then answer ++ [mkOp Equal ai i bj j] else answer in
      opcodes_loop blocks' i j answer
  end.

Definition get_opcodes (a b : str) : list opcode :=
  opcodes_loop (get_matching_blocks a b) 0 0 [].

(** [_calculate_ratio(matches, length)]. *)
Definition calculate_ratio (matches length : nat) : Q :=
  if decide (length ≠ 0)
  then (2 * inject_Z (Z.of_nat matches) / inject_Z (Z.of_nat length))%Q
  else 1%Q.

(** [ratio()]. *)
Definition ratio (a b : str) : Q :=
  let matches := foldr (λ triple acc, m_size triple + acc) 0 (get_matching_blocks a b) in
  calculate_ratio matches (length a + length b).

End difflib.

(** ** Helpers of validator.py *)

(** The dict [{"added": adds, "removed": removes}]. *)
Record diff_result := mkDiff { added : list str; removed : list str }.

(** The [for tag, i1, i2, j1, j2 in s.get_opcodes()] loop of [simple_diff]. *)
Fixpoint simple_diff_loop (a b : str) (ops : list difflib.opcode)
    (adds removes : list str) : diff_result :=
  match ops with
  | [] => mkDiff adds removes
  | op :: ops' =>
      match difflib.op_tag op with
      | difflib.Insert =>
          simple_diff_loop a b ops'
            (adds ++ [slice b (difflib.op_j1 op) (difflib.op_j2 op)]) removes
      | difflib.Delete =>
          simple_diff_loop a b ops'
            adds (removes ++ [slice a (difflib.op_i1 op) (difflib.op_i2 op)])
      | _ => simple_diff_loop a b ops' adds removes
      end
  end.

(** [simple_diff(a, b)]; [a or ""] is [a] for a str. *)
Definition simple_diff (a b : str) : diff_result :=
  simple_diff_loop a b (difflib.get_opcodes a b) [] [].

(** [fuzzy_ratio(a, b)] on two str arguments. *)
Definition fuzzy_ratio (a b : str) : Q :=
  if decide (a = [] ∧ b = []) then 1%Q
  else if decide (a = [] ∨ b = []) then 0%Q
  else
    let a_tokens : gset str := list_to_set (split (lower a)) in
    let b_tokens : gset str := list_to_set (split (lower b)) in
    if decide (a_tokens = ∅ ∨ b_tokens = ∅) then 0%Q
    else
      let inter := a_tokens ∩ b_tokens in
      let union := a_tokens ∪ b_tokens in
      let token_score :=
        (inject_Z (Z.of_nat (size inter)) / inject_Z (Z.of_nat (size union)))%Q in
      let seq := difflib.ratio a b in
      (0.6 * token_score + 0.4 * seq)%Q.

Definition clause_similarity (a b : str) : Q := fuzzy_ratio a b.

(** ** The scores as the program computes them

    A Python float is an IEEE 754 double: a [spec_float] at precision 53
    with the operations of [SpecFloat], which round to nearest, ties to
    even. [of_nat] is [float(n)], and it is exact for [n < 2^53], which every
    length and every count of tokens is; the true division of two such ints
    is then the division of their floats. *)
Module double.

Definition prec : Z := 53.
Definition emax : Z := 1024.

Definition add : spec_float → spec_float → spec_float := SFadd prec emax.
Definition mul : spec_float → spec_float → spec_float := SFmul prec emax.
Definition div : spec_float → spec_float → spec_float := SFdiv prec emax.

(** [x > y]; false when either is a NaN. *)
Definition gt (x y : spec_float) : bool := SFltb y x.

Definition of_nat (n : nat) : spec_float :=
  binary_normalize prec emax (Z.of_nat n) 0 false.

(** The literals [0.0], [1.0], [2.0], [0.6] (0x1.3333333333333p-1) and
    [0.4] (0x1.999999999999ap-2). *)
Definition zero : spec_float := S754_zero false.
Definition one : spec_float := S754_finite false 4503599627370496 (-52).
Definition two : spec_float := S754_finite false 4503599627370496 (-51).
Definition six_tenths : spec_float := S754_finite false 5404319552844595 (-53).
Definition four_tenths : spec_float := S754_finite false 7205759403792794 (-54).

End double.

(** [_calculate_ratio(matches, length)] and [ratio()] of difflib:
    [2.0 * matches / length]. *)
Definition calculate_ratio_double (matches length : nat) : spec_float :=
  if decide (length ≠ 0)
  then double.div (double.mul double.two (double.of_nat matches)) (double.of_nat length)
  else double.one.

Definition ratio_double (a b : str) : spec_float :=
  let matches :=
    foldr (λ triple acc, difflib.m_size triple + acc) 0 (difflib.get_matching_blocks a b) in
  calculate_ratio_double matches (length a + length b).

(** [fuzzy_ratio] and [clause_similarity], in doubles. *)
Definition fuzzy_ratio_double (a b : str) : spec_float :=
  if decide (a = [] ∧ b = []) then double.one
  else if decide (a = [] ∨ b = []) then double.zero
  else
    let a_tokens : gset str := list_to_set (split (lower a)) in
    let b_tokens : gset str := list_to_set (split (lower b)) in
    if decide (a_tokens = ∅ ∨ b_tokens = ∅) then double.zero
    else
      let inter := a_tokens ∩ b_tokens in
      let union := a_tokens ∪ b_tokens in
      let token_score := double.div (double.of_nat (size inter)) (double.of_nat (size union)) in
      let seq := ratio_double a b in
      double.add (double.mul double.six_tenths token_score)
                 (double.mul double.four_tenths seq).

Definition clause_similarity_double (a b : str) : spec_float := fuzzy_ratio_double a b.

(** ** The part of [re] the module uses *)

Module re.

(** A compiled pattern, by what the engine does with it: [match_at s pos
    must_advance] is the match anchored at [pos], as [(end, item)], where
    [item] is what [findall] reports for it (the whole match, or the text of
    the group for a pattern with one group); with [must_advance] an empty
    match is refused. Patterns with several groups, for which [findall]
    reports tuples, are not covered. *)
Record pattern := mkPattern { match_at : str → nat → bool → option (nat * str) }.

(** The engine's search: the first position from [start] on at which the
    pattern matches; [must_advance] only applies at [start] itself.
    [n] counts the positions left to try. *)
Fixpoint search (p : pattern) (s : str) (start : nat) (must_advance : bool) (n : nat)
  : option (nat * nat * str) :=
  match match_at p s start must_advance with
  | Some (e, item) => Some (start, e, item)
  | None =>
      match n with
      | 0 => None
      | S n' => search p s (S start) false n'
      end
  end.

(** The loop of [findall]: search from [pos], report the item, go on from
    the end of the match, refusing an empty match there if this one was
    empty. *)
Fixpoint findall_loop (p : pattern) (s : str) (fuel : nat) (pos : nat) (must_advance : bool)
  : list str :=
  match fuel with
  | 0 => []
  | S fuel' =>
      if decide (length s < pos) then []
      else
        match search p s pos must_advance (length s - pos) with
        | None => []
        | Some (start, e, item) =>
            item :: findall_loop p s fuel' e (bool_decide (e = start))
        end
  end.

(** A match either ends further right or is empty and followed by a match
    that is not, so [2 * len(s) + 2] rounds reach the end of [s]. *)
Definition findall (p : pattern) (s : str) : list str :=
  findall_loop p s (2 * length s + 2) 0 false.

(** The pattern syntax the built-in patterns are written in. *)
Inductive regex :=
| Empty                            (* the empty pattern *)
| Chr (c : ascii)                  (* a literal character *)
| Cls (ranges : list (nat * nat))  (* [x-y...], by code points *)
| Cat (r1 r2 : regex)              (* r1 r2 *)
| Rep (r : regex) (n : nat)        (* r{n} *)
| WordB                            (* \b *)
| Grp (r : regex).                 (* ( r ) *)

(** [\w] for a str pattern: [c.isalnum() or c == "_"]. *)
Definition isword (c : ascii) : bool :=
  let n := ord c in
  ((48 <=? n) && (n <=? 57)) || ((65 <=? n) && (n <=? 90)) || ((97 <=? n) && (n <=? 122))
  || (n =? 95)
  || (n =? 170) || (n =? 178) || (n =? 179) || (n =? 181) || (n =? 185) || (n =? 186)
  || ((188 <=? n) && (n <=? 190))
  || ((192 <=? n) && (n <=? 214)) || ((216 <=? n) && (n <=? 246)) || (248 <=? n).

Definition isword_at (s : str) (i : nat) : bool :=
  match s !! i with
  | Some c => isword c
  | None => false
  end.

(** [\b] at [pos]: exactly one of [s[pos-1]], [s[pos]] is a word character,
    the outside of [s] counting as none. *)
Definition at_boundary (s : str) (pos : nat) : bool :=
  xorb (match pos with 0 => false | S p => isword_at s p end) (isword_at s pos).

Definition in_ranges (ranges : list (nat * nat)) (c : ascii) : bool :=
  existsb (λ r, (r.1 <=? ord c) && (ord c <=? r.2)) ranges.

(** The match of [r] anchored at [pos]: its end and the span of the group,
    if one was matched. This syntax has no choice points. *)
Fixpoint rmatch (r : regex) (s : str) (pos : nat) : option (nat * option (nat * nat)) :=
  match r with
  | Empty => Some (pos, None)
  | Chr c =>
      match s !! pos with
      | Some x => if decide (x = c) then Some (S pos, None) else None
      | None => None
      end
  | Cls ranges =>
      match s !! pos with
      | Some x => if in_ranges ranges x then Some (S pos, None) else None
      | None => None
      end
  | Cat r1 r2 =>
      match rmatch r1 s pos with
      | Some (e1, g1) =>
          match rmatch r2 s e1 with
          | Some (e2, g2) => Some (e2, from_option Some g1 g2)
          | None => None
          end
      | None => None
      end
  | Rep r n =>
      (fix rep (n : nat) (pos : nat) (g : option (nat * nat)) :=
         match n with
         | 0 => Some (pos, g)
         | S n' =>
             match rmatch r s pos with
             | Some (e, g') => rep n' e (from_option Some g g')
             | None => None
             end
         end) n pos None
  | WordB => if at_boundary s pos then Some (pos, None) else None
  | Grp r =>
      match rmatch r s pos with
      | Some (e, _) => Some (e, Some (pos, e))
      | None => None
      end
  end.

Fixpoint has_group (r : regex) : bool :=
  match r with
  | Empty | Chr _ | Cls _ | WordB => false
  | Cat r1 r2 => has_group r1 || has_group r2
  | Rep r _ => has_group r
  | Grp _ => true
  end.

(** The compiled form of a pattern written in [regex]. *)
Definition compiled (r : regex) : pattern :=
  mkPattern (λ s pos must_advance,
    match rmatch r s pos with
    | Some (e, g) =>
        if must_advance && bool_decide (e = pos) then None
        else
          Some (e, if has_group r
                   then from_option (λ g, slice s g.1 g.2) [] g
                   else slice s pos e)
    | None => None
    end).

End re.

(** ** Exceptions *)

Inductive exn :=
  TypeError | ValueError | AttributeError | OverflowError | RecursionError | ReError.

Inductive result (A : Type) := Ok (a : A) | Raise (e : exn).
Arguments Ok {A} a.
Arguments Raise {A} e.

(** Sequencing: the first exception raised ends the computation. *)
Global Instance result_bind : MBind result := λ A B k r,
  match r with
  | Ok a => k a
  | Raise e => Raise e
  end.

(** [[f(x) for x in l]] for an [f] that can raise. *)
Fixpoint for_each {A B} (f : A → result B) (l : list A) : result (list B) :=
  match l with
  | [] => Ok []
  | x :: l' => y ← f x ; ys ← for_each f l' ; Ok (y :: ys)
  end.

(** ** extract_text_and_images *)

(** The optional PDF libraries: [None] when their import fails; otherwise,
    for a path, [None] when opening or reading the file raises, or the
    result of [extract_text()] for each page, itself possibly [None]. *)
Definition pdf_backend : Type := option (str → option (list (option str))).

(** [sep.join(l)]. *)
Fixpoint join (sep : str) (l : list str) : str :=
  match l with
  | [] => []
  | [x] => x
  | x :: l' => x ++ sep ++ join sep l'
  end.

(** The text component of [extract_text_and_images(pdf_path)]; the page
    images are opaque handles that [validate] never reads. *)
Definition extract_text_and_images (backend : pdf_backend) (pdf_path : str) : str :=
  match backend with
  | None => []
  | Some open_pdf =>
      let texts :=
        match open_pdf pdf_path with
        | Some pages => map (λ page, default [] page) pages
        | None => [[]]
        end in
      join (T "

") texts
  end.

(** ** AgreementValidator *)

Local Set Warnings "-register-all".

(** A value loaded by [yaml.safe_load]; mapping keys are strings and floats
    are finite. *)
Inductive yaml :=
| YNull
| YBool (b : bool)
| YInt (n : Z)
| YFloat (q : Q)
| YStr (s : str)
| YList (l : list yaml)
| YDict (d : list (str * yaml)).

(** [bool(v)]. *)
Definition truthy (v : yaml) : bool :=
  match v with
  | YNull => false
  | YBool b => b
  | YInt n => negb (n =? 0)%Z
  | YFloat q => negb (Qeq_bool q 0)
  | YStr s => negb (bool_decide (s = []))
  | YList l => negb (bool_decide (length l = 0))
  | YDict d => negb (bool_decide (length d = 0))
  end.

Definition DEFAULT_pan_regex : str := T "\b([A-Z]{5}[0-9]{4}[A-Z])\b".
Definition DEFAULT_gst_regex : str := T "\b[0-9]{2}[A-Z]{5}[0-9]{4}[A-Z][1-9A-Z]Z[0-9A-Z]\b".

Definition DEFAULT_CONFIG : gmap str yaml :=
  list_to_map
    [ (T "pan_regex", YStr DEFAULT_pan_regex);
      (T "gst_regex", YStr DEFAULT_gst_regex);
      (T "coi_keywords",
        YList [YStr (T "certificate of incorporation"); YStr (T "incorporation certificate")]);
      (T "ratecard_keywords",
        YList [YStr (T "rate card"); YStr (T "rate-card"); YStr (T "price list")]);
      (T "similarity_threshold", YFloat 0.75) ].

(** The two built-in patterns in the syntax of [re.regex]. *)
Definition upper : re.regex := re.Cls [(65, 90)].
Definition digit : re.regex := re.Cls [(48, 57)].

Definition pan_regex_ast : re.regex :=
  re.Cat re.WordB
    (re.Cat (re.Grp (re.Cat (re.Rep upper 5) (re.Cat (re.Rep digit 4) upper)))
       re.WordB).

Definition gst_regex_ast : re.regex :=
  re.Cat re.WordB
   (re.Cat (re.Rep digit 2)
     (re.Cat (re.Rep upper 5)
       (re.Cat (re.Rep digit 4)
         (re.Cat upper
           (re.Cat (re.Cls [(49, 57); (65, 90)])
             (re.Cat (re.Chr "Z")
               (re.Cat (re.Cls [(48, 57); (65, 90)]) re.WordB))))))).

Record validator := mkValidator {
  cfg : gmap str yaml;
  pan_re : re.pattern;
  gst_re : re.pattern;
  coi_keywords : list str;
  ratecard_keywords : list str;
  sim_threshold : Q
}.

(** [re.compile(pattern)] inside [try: ... except re.error:], which
    compiles the built-in [fallback] instead. [re_compile] is the engine on
    a str: it compiles the pattern, raises [re.error] ([ReError]) or raises
    something else ([OverflowError] on a repeat count beyond the engine's
    limit, [RecursionError] on a pattern nested too deep), which the handler
    does not catch; nor does it catch the [TypeError] of an argument that is
    not a str, or what compiling the fallback raises. *)
Definition compile_or_default (re_compile : str → result re.pattern)
    (fallback : str) (pattern : yaml) : result re.pattern :=
  match pattern with
  | YStr s =>
      match re_compile s with
      | Ok p => Ok p
      | Raise ReError => re_compile fallback
      | Raise e => Raise e
      end
  | _ => Raise TypeError
  end.

(** [[k.lower() for k in v]]: a list gives its items, a str its
    characters, a dict its keys; anything else is not iterable. *)
Definition lower_each (v : yaml) : result (list str) :=
  match v with
  | YList l =>
      for_each (λ k, match k with
                     | YStr s => Ok (lower s)
                     | _ => Raise AttributeError
                     end) l
  | YStr s => Ok (map (λ c, lower [c]) s)
  | YDict d => Ok (map (λ kv, lower kv.1) d)
  | _ => Raise TypeError
  end.

(** [float(v)]; [float_of_str] is [float] on a str, [None] standing for
    [ValueError]. An int that rounds beyond the largest double overflows. *)
Definition to_float (float_of_str : str → option Q) (v : yaml) : result Q :=
  match v with
  | YFloat q => Ok q
  | YInt n =>
      if (Z.abs n <? 2 ^ 1024 - 2 ^ 970)%Z then Ok (inject_Z n) else Raise OverflowError
  | YBool b => Ok (if b then 1%Q else 0%Q)
  | YStr s =>
      match float_of_str s with
      | Some q => Ok q
      | None => Raise ValueError
      end
  | _ => Raise TypeError
  end.

(** [v or d]. *)
Definition or_else (v : option yaml) (d : yaml) : yaml :=
  match v with
  | Some x => if truthy x then x else d
  | None => d
  end.

(** [AgreementValidator.__init__]. [loaded] is what the [try] block around
    [open] and [yaml.safe_load] leaves in [cfg]: [None] when either raised,
    else the mapping read (an empty document reads as no mapping at all and
    [or {}] makes it the empty one). The file is taken to hold a mapping:
    on a document that is a scalar or a sequence [merged.update(cfg)] raises
    out of the constructor, which is not modelled. *)
Definition __init__ (re_compile : str → result re.pattern)
    (float_of_str : str → option Q) (loaded : option (gmap str yaml))
  : result validator :=
  let cfg : gmap str yaml := default ∅ loaded in
  let merged := cfg ∪ DEFAULT_CONFIG in
  let pan_pattern := or_else (merged !! T "pan_regex") (YStr []) in
  let gst_pattern := or_else (merged !! T "gst_regex") (YStr []) in
  pan ← compile_or_default re_compile DEFAULT_pan_regex pan_pattern ;
  gst ← compile_or_default re_compile DEFAULT_gst_regex gst_pattern ;
  coi ← lower_each (default (YList []) (merged !! T "coi_keywords")) ;
  ratecard ← lower_each (default (YList []) (merged !! T "ratecard_keywords")) ;
  threshold ← to_float float_of_str (default (YFloat 0.75) (merged !! T "similarity_threshold")) ;
  Ok (mkValidator merged pan gst coi ratecard threshold).

(** [_search_pan_gst]. *)
Definition _search_pan_gst (self : validator) (text : str) : list str * list str :=
  if decide (text = []) then ([], [])
  else (re.findall (pan_re self) text, re.findall (gst_re self) text).

(** [_keyword_check]; [text or ""] is [text] for a str. *)
Definition _keyword_check (text : str) (keywords : list str) : list str :=
  let t := lower text in
  filter (λ k, contains t k) keywords.

(** [if not (text and text.strip()): text = ""]. *)
Definition blank_to_empty (text : str) : str :=
  if decide (text ≠ [] ∧ strip text ≠ []) then text else [].

(** [[l.strip() for l in text.splitlines() if l.strip()]]. *)
Definition stripped_lines (text : str) : list str :=
  filter (λ l, l ≠ []) (map strip (splitlines text)).

(** An entry of [clause_similarity_samples]; [best_match] is [None] or a str. *)
Record sample := mkSample { main : str; best_match : option str; score : Q }.

(** The inner [for c in client_lines[:40]] loop, with the running [best]
    and [best_line]. *)
Fixpoint best_loop (m : str) (cs : list str) (best : Q) (best_line : option str)
  : Q * option str :=
  match cs with
  | [] => (best, best_line)
  | c :: cs' =>
      let sim := clause_similarity m c in
      if Qlt_le_dec best sim then best_loop m cs' sim (Some c)
      else best_loop m cs' best best_line
  end.

(** The outer [for m in main_lines[:20]] loop. *)
Definition similarity_samples (main_lines client_lines : list str) : list sample :=
  map (λ m, let '(best, best_line) := best_loop m (take 40 client_lines) 0%Q None in
            mkSample m best_line best)
      (take 20 main_lines).

(** The same two loops for a scorer [similarity] with values in [F], the
    comparison [gt] of [sim > best] and the initial [best]: [zero]. A sample
    is then a [scored F]. [similarity_samples] is the loop on the exact
    scores, [similarity_samples_double] the loop on the doubles the program
    computes. *)
Record scored (F : Type) := mkScored {
  s_main : str;
  s_best_match : option str;
  s_score : F
}.
Arguments mkScored {F} _ _ _.
Arguments s_main {F} _.
Arguments s_best_match {F} _.
Arguments s_score {F} _.

Section matcher.
Context {F : Type} (similarity : str → str → F) (gt : F → F → bool) (zero : F).

Fixpoint best_loop_with (m : str) (cs : list str) (best : F) (best_line : option str)
  : F * option str :=
  match cs with
  | [] => (best, best_line)
  | c :: cs' =>
      let sim := similarity m c in
      if gt sim best then best_loop_with m cs' sim (Some c)
      else best_loop_with m cs' best best_line
  end.

Definition samples_with (main_lines client_lines : list str) : list (scored F) :=
  map (λ m, let '(best, best_line) := best_loop_with m (take 40 client_lines) zero None in
            mkScored m best_line best)
      (take 20 main_lines).

End matcher.

Definition similarity_samples_double (main_lines client_lines : list str)
  : list (scored spec_float) :=
  samples_with clause_similarity_double double.gt double.zero main_lines client_lines.

(** An entry of [documents_summary]. *)
Record doc_summary := mkDocSummary {
  doc_pan : list str;
  doc_gst : list str;
  doc_coi_keywords : list str;
  doc_rate_keywords : list str;
  text_snippet : str
}.

(** [str(n)] for [n >= 0]. *)
Definition str_of_nat (n : nat) : str := T (NilZero.string_of_uint (Nat.to_uint n)).

(** The [for idx, doc_path in enumerate(documents)] loop. The [try] around
    the extraction has nothing to catch: [extract_text_and_images] handles
    every failure of the backend itself. *)
Fixpoint documents_loop (backend : pdf_backend) (self : validator) (idx : nat)
    (documents document_names : list str) (documents_summary : gmap str doc_summary)
  : gmap str doc_summary :=
  match documents with
  | [] => documents_summary
  | doc_path :: documents' =>
      let doc_name :=
        match document_names !! idx with
        | Some name => name
        | None => T "document_" ++ str_of_nat (idx + 1) ++ T ".pdf"
        end in
      let d_text := blank_to_empty (extract_text_and_images backend doc_path) in
      let '(pan_d, gst_d) := _search_pan_gst self d_text in
      let coi_d := _keyword_check d_text (coi_keywords self) in
      let rate_d := _keyword_check d_text (ratecard_keywords self) in
      documents_loop backend self (S idx) documents' document_names
        (<[doc_name := mkDocSummary pan_d gst_d coi_d rate_d (take 1000 d_text)]>
           documents_summary)
  end.

(** The dict [validate] returns; a pair holds the ["main"] and ["client"]
    entries of a two-key dict. *)
Record report := mkReport {
  pan : list str * list str;
  gst : list str * list str;
  r_coi_keywords : list str * list str;
  rate_keywords : list str * list str;
  diff : diff_result;
  clause_similarity_samples : list sample;
  documents : gmap str doc_summary
}.

(** [validate]; [documents or []] and [document_names or []] are the lists
    themselves, [None] being passed as [[]]. *)
Definition validate (backend : pdf_backend) (self : validator)
    (main_pdf client_pdf : str) (documents document_names : list str) : report :=
  let main_text := blank_to_empty (extract_text_and_images backend main_pdf) in
  let client_text := blank_to_empty (extract_text_and_images backend client_pdf) in
  let '(pan_main, gst_main) := _search_pan_gst self main_text in
  let '(pan_client, gst_client) := _search_pan_gst self client_text in
  let coi_main := _keyword_check main_text (coi_keywords self) in
  let coi_client := _keyword_check client_text (coi_keywords self) in
  let rate_main := _keyword_check main_text (ratecard_keywords self) in
  let rate_client := _keyword_check client_text (ratecard_keywords self) in
  let diff := simple_diff main_text client_text in
  let main_lines := take 200 (stripped_lines main_text) in
  let client_lines := take 200 (stripped_lines client_text) in
  let similarities := similarity_samples main_lines client_lines in
  let documents_summary := documents_loop backend self 0 documents document_names ∅ in
  mkReport (pan_main, pan_client) (gst_main, gst_client) (coi_main, coi_client)
    (rate_main, rate_client) diff similarities documents_summary.

(** ** Fixtures for the examples *)

(** A backend over a table of files, each a list of page texts; opening a
    file that is not in the table raises. *)
Definition pdf_files (files : list (str * list (option str))) : pdf_backend :=
  Some (λ path, (list_to_map files : gmap str (list (option str))) !! path).

(** An engine that compiles the patterns written out in this file, the two
    built-in ones and the empty one, and rejects every other string with
    [re.error]. *)
Definition builtin_compile (s : str) : result re.pattern :=
  if decide (s = DEFAULT_pan_regex) then Ok (re.compiled pan_regex_ast)
  else if decide (s = DEFAULT_gst_regex) then Ok (re.compiled gst_regex_ast)
  else if decide (s = []) then Ok (re.compiled re.Empty)
  else Raise ReError.

(** A [float] that accepts no string. *)
Definition no_float (s : str) : option Q := None.

(** The validator [__init__] builds when there is no configuration file. *)
Definition default_validator : validator :=
  mkValidator DEFAULT_CONFIG (re.compiled pan_regex_ast) (re.compiled gst_regex_ast)
    [T "certificate of incorporation"; T "incorporation certificate"]
    [T "rate card"; T "rate-card"; T "price list"]
    0.75.

(** ** Reading a diff result back (section 8 of the specification)

    The round trip of the specification: walk the opcodes over [a], copy
    what stays, insert the next span of [added] at an [insert] opcode and
    remove the next span of [removed] at a [delete] opcode. A [replace]
    opcode has no span in the diff result, so nothing is inserted and
    nothing removed there. [rest] is the part of [a] not yet read. *)
Fixpoint apply_diff (ops : list difflib.opcode) (rest : str) (adds removes : list str)
  : str :=
  match ops with
  | [] => rest
  | op :: ops' =>
      let n := difflib.op_i2 op - difflib.op_i1 op in
      match difflib.op_tag op with
      | difflib.Equal | difflib.Replace =>
          take n rest ++ apply_diff ops' (drop n rest) adds removes
      | difflib.Insert =>
          match adds with
          | span :: adds' => span ++ apply_diff ops' rest adds' removes
          | [] => apply_diff ops' rest [] removes
          end
      | difflib.Delete =>
          match removes with
          | span :: removes' => apply_diff ops' (drop (length span) rest) adds removes'
          | [] => apply_diff ops' rest adds []
          end
      end
  end.

Definition reconstruct (a b : str) : str :=
  let d := simple_diff a b in
  apply_diff (difflib.get_opcodes a b) a (added d) (removed d).

(** Where a chain of blocks ends, starting from the cursor [(i, j)]. *)
Fixpoint end_cursor (l : list difflib.Match) (i j : nat) : nat * nat :=
  match l with
  | [] => (i, j)
  | x :: l' =>
      end_cursor l' (difflib.m_a x + difflib.m_size x) (difflib.m_b x + difflib.m_size x)
  end.

(** ** The scorer as the specification words it (section 4.4) *)

(** The whitespace-split lowercase token set of a string. *)
Definition token_set (s : str) : gset str := list_to_set (split (lower s)).

(** Size of the intersection of the token sets divided by the size of
    their union, 0.0 if either token set is empty. *)
Definition tokenJaccard (a b : str) : Q :=
  if decide (token_set a = ∅ ∨ token_set b = ∅) then 0%Q
  else (inject_Z (Z.of_nat (size (token_set a ∩ token_set b)))
        / inject_Z (Z.of_nat (size (token_set a ∪ token_set b))))%Q.

(** The character-level ratio, on the original-case strings. *)
Definition sequenceRatio (a b : str) : Q := difflib.ratio a b.

(** Both empty: 1.0; exactly one empty: 0.0; both non-empty: the blend. *)
Definition score_spec (a b : str) : Q :=
  if decide (a = [] ∧ b = []) then 1%Q
  else if decide (a = [] ∨ b = []) then 0%Q
  else (0.6 * tokenJaccard a b + 0.4 * sequenceRatio a b)%Q.

(** ** The keyword check as the specification words it (findKeywords)

    The subset of the keyword list, in the list's order, whose lowercase
    form occurs in the lower-cased text. *)
Definition findKeywords (text : str) (keywordList : list str) : list str :=
  filter (λ k, contains (lower text) (lower k)) keywordList.

(** ** The entries of the extra-documents summary *)

(** The display name of the document at position [idx]. *)
Definition doc_name (document_names : list str) (idx : nat) : str :=
  match document_names !! idx with
  | Some name => name
  | None => T "document_" ++ str_of_nat (idx + 1) ++ T ".pdf"
  end.

(** The summary [validate] computes for one extra document. *)
Definition summary_of (backend : pdf_backend) (self : validator) (doc_path : str)
  : doc_summary :=
  let d_text := blank_to_empty (extract_text_and_images backend doc_path) in
  mkDocSummary (_search_pan_gst self d_text).1 (_search_pan_gst self d_text).2
    (_keyword_check d_text (coi_keywords self))
    (_keyword_check d_text (ratecard_keywords self))
    (take 1000 d_text).

(** * Invariants and specifications used in the proofs *)

(** [x] is a match of [a] against [b] inside the region
    [(alo, ahi, blo, bhi)]. *)
Definition match_in (a b : str) (alo ahi blo bhi : nat) (x : difflib.Match) : Prop :=
  alo ≤ difflib.m_a x ∧ difflib.m_a x + difflib.m_size x ≤ ahi ∧
  blo ≤ difflib.m_b x ∧ difflib.m_b x + difflib.m_size x ≤ bhi ∧
  ∀ t, t < difflib.m_size x →
    is_Some (a !! (difflib.m_a x + t)) ∧
    a !! (difflib.m_a x + t) = b !! (difflib.m_b x + t).

(** An entry [j ↦ k] of a row of [find_longest_match]: a match of
    length [k] that ends just before [e] in [a] and at [j] in [b]. *)
Definition entry_ok (a b : str) (alo blo bhi e j k : nat) : Prop :=
  1 ≤ k ∧ alo + k ≤ e ∧ blo + k ≤ j + 1 ∧ j < bhi ∧
  ∀ t, t < k →
    is_Some (a !! (e - k + t)) ∧ a !! (e - k + t) = b !! (j + 1 - k + t).

Definition row_ok (a b : str) (alo blo bhi e : nat) (row : gmap nat nat) : Prop :=
  ∀ j k, row !! j = Some k → entry_ok a b alo blo bhi e j k.

(** The total size of a list of blocks. *)
Definition sum_sizes (l : list difflib.Match) : nat :=
  foldr (λ triple acc, difflib.m_size triple + acc) 0 l.

(** Regions and blocks as boxes of the [a] x [b] grid. *)
Definition r_alo (r : difflib.region) : nat := r.1.1.1.
Definition r_ahi (r : difflib.region) : nat := r.1.1.2.
Definition r_blo (r : difflib.region) : nat := r.1.2.
Definition r_bhi (r : difflib.region) : nat := r.2.

Definition box_of (x : difflib.Match) : difflib.region :=
  (difflib.m_a x, difflib.m_a x + difflib.m_size x,
   difflib.m_b x, difflib.m_b x + difflib.m_size x).

Definition proper (r : difflib.region) : Prop := r_alo r ≤ r_ahi r ∧ r_blo r ≤ r_bhi r.

(** [r1] lies up and to the left of [r2]. *)
Definition before (r1 r2 : difflib.region) : Prop :=
  r_ahi r1 ≤ r_alo r2 ∧ r_bhi r1 ≤ r_blo r2.

Definition apart (r1 r2 : difflib.region) : Prop := before r1 r2 ∨ before r2 r1.

Definition inside (r w : difflib.region) : Prop :=
  r_alo w ≤ r_alo r ∧ r_ahi r ≤ r_ahi w ∧ r_blo w ≤ r_blo r ∧ r_bhi r ≤ r_bhi w.

Fixpoint pairwise_apart (l : list difflib.region) : Prop :=
  match l with
  | [] => True
  | r :: l' => Forall (apart r) l' ∧ pairwise_apart l'
  end.

(** What the loop of [get_matching_blocks] maintains: the pending regions
    and the blocks found so far are boxes that lie pairwise apart, inside
    the grid, and every block is a match that is not empty. *)
Record gmb_inv (a b : str) (queue : list difflib.region) (blocks : list difflib.Match)
  : Prop := mkGmbInv {
  inv_proper : Forall proper queue;
  inv_inside : Forall (λ r, inside r (0, length a, 0, length b)) queue;
  inv_queue : pairwise_apart queue;
  inv_cross : ∀ r x, r ∈ queue → x ∈ blocks → apart r (box_of x);
  inv_match : ∀ x, x ∈ blocks →
    1 ≤ difflib.m_size x ∧ match_in a b 0 (length a) 0 (length b) x;
  inv_blocks : ∀ x y, x ∈ blocks → y ∈ blocks → x = y ∨ apart (box_of x) (box_of y);
  inv_nodup : NoDup blocks
}.

Definition region_weight (r : difflib.region) : nat := 2 * (r_ahi r - r_alo r) + 1.

Definition queue_weight (queue : list difflib.region) : nat :=
  foldr (λ r acc, region_weight r + acc) 0 queue.

(** The blocks of [l] follow one another from the cursor [(i, j)] on, and
    each is a match. *)
Fixpoint chain_from (a b : str) (i j : nat) (l : list difflib.Match) : Prop :=
  match l with
  | [] => True
  | x :: l' =>
      match_in a b i (length a) j (length b) x ∧
      chain_from a b (difflib.m_a x + difflib.m_size x) (difflib.m_b x + difflib.m_size x) l'
  end.

(** What a similarity sample for the main line [m] records about the
    client lines [cs]: a score no client line exceeds; for a best match, the
    first client line that attains the score, which is then positive; for no
    best match, the score 0. *)
Definition best_of (m : str) (cs : list str) (s : sample) : Prop :=
  (0 <= score s)%Q ∧
  (∀ c, c ∈ cs → (clause_similarity m c <= score s)%Q) ∧
  match best_match s with
  | Some c =>
      ∃ k, cs !! k = Some c ∧ score s = clause_similarity m c ∧ (0 < score s)%Q ∧
           ∀ k' c', k' < k → cs !! k' = Some c' → (clause_similarity m c' < score s)%Q
  | None => score s = 0%Q
  end.

(** The same for a scorer with values in [F] compared by [gt], [valid]
    telling the values that are numbers: no client line scores above the
    sample's score, which is not below [zero]; the best match is the first
    client line with that score, every line before it scoring below it
    unless its score is no number, and the score is then above [zero];
    without a best match the score is [zero]. *)
Definition best_of_with {F : Type} (similarity : str → str → F) (gt : F → F → bool)
    (zero : F) (valid : F → Prop) (m : str) (cs : list str) (s : scored F) : Prop :=
  valid (s_score s) ∧
  gt zero (s_score s) = false ∧
  (∀ c, c ∈ cs → gt (similarity m c) (s_score s) = false) ∧
  match s_best_match s with
  | Some c =>
      ∃ k, cs !! k = Some c ∧ s_score s = similarity m c ∧ gt (s_score s) zero = true ∧
           ∀ k' c', k' < k → cs !! k' = Some c' → valid (similarity m c') →
             gt (s_score s) (similarity m c') = true
  | None => s_score s = zero
  end.

(** What the loop needs of the comparison: [x > y] and [y > x] exclude each
    other; when [x > z], a [y] that is a number is below [x] or above [z];
    and what is above something is a number. The comparison of doubles is
    such, the numbers being the doubles that are not NaN. *)
Record weak_order {F : Type} (valid : F → Prop) (gt : F → F → bool) : Prop := {
  gt_asym : ∀ x y, gt x y = true → gt y x = false;
  gt_cotrans : ∀ x y z, valid y → gt x z = true → gt x y = true ∨ gt y z = true;
  gt_valid : ∀ x y, gt x y = true → valid x
}.

(** What every compiled pattern satisfies: a match starting inside [s] ends
    inside [s], not before its start, and beyond its start when it had to
    advance. *)
Definition wf_pattern (p : re.pattern) : Prop :=
  ∀ s pos must_advance e item,
    pos ≤ length s →
    re.match_at p s pos must_advance = Some (e, item) →
    pos ≤ e ∧ e ≤ length s ∧ (must_advance = true → pos < e).

(** All non-overlapping matches of [p] in [s] from [pos] on, in order of
    appearance and with duplicates: either no position from [pos] on has a
    match, or the first that has one contributes its item and the matches
    after its end follow. [must_advance] refuses an empty match at [pos]
    itself. *)
Inductive all_matches (p : re.pattern) (s : str) : nat → bool → list str → Prop :=
| no_match pos must_advance :
    (∀ t, pos ≤ t ≤ length s →
       re.match_at p s t (must_advance && bool_decide (t = pos)) = None) →
    all_matches p s pos must_advance []
| next_match pos must_advance start e item items :
    pos ≤ start ≤ length s →
    (∀ t, pos ≤ t < start →
       re.match_at p s t (must_advance && bool_decide (t = pos)) = None) →
    re.match_at p s start (must_advance && bool_decide (start = pos)) = Some (e, item) →
    all_matches p s e (bool_decide (e = start)) items →
    all_matches p s pos must_advance (item :: items).

(** The opcodes [get_opcodes] emits for one block [(ai, bj, size)] met at
    the cursor [(i, j)]: one for the gap before the block, one for the block. *)
Definition gap_op (i j ai bj : nat) : list difflib.opcode :=
  if decide (i < ai ∧ j < bj) then [difflib.mkOp difflib.Replace i ai j bj]
  else if decide (i < ai) then [difflib.mkOp difflib.Delete i ai j bj]
  else if decide (j < bj) then [difflib.mkOp difflib.Insert i ai j bj]
  else [].

Definition eq_op (ai bj size : nat) : list difflib.opcode :=
  if decide (size ≠ 0)
  then [difflib.mkOp difflib.Equal ai (ai + size) bj (bj + size)] else [].

(** ** A string against itself

    [keyed] tells whether the character at position [i] has an entry in the
    table [b2j] (it has none when [autojunk] dropped it), and [diag_len] is
    the length of the run of keyed characters that ends at [i]: the value
    [find_longest_match] computes on the diagonal when [a] is [b]. *)
Definition keyed (s : str) (b2j : gmap ascii (list nat)) (i : nat) : bool :=
  match s !! i with
  | Some x => bool_decide (is_Some (b2j !! x))
  | None => false
  end.

Fixpoint diag_len (s : str) (b2j : gmap ascii (list nat)) (i : nat) : nat :=
  match i with
  | 0 => if keyed s b2j 0 then 1 else 0
  | S i' => if keyed s b2j i then diag_len s b2j i' + 1 else 0
  end.

Definition prev_diag (s : str) (b2j : gmap ascii (list nat)) (i : nat) : nat :=
  match i with
  | 0 => 0
  | S i' => diag_len s b2j i'
  end.

(** The entry of the previous row that the entry at [j] extends. *)
Definition prev_len (j2len : gmap nat nat) (j : nat) : nat :=
  match j with
  | 0 => 0
  | S j' => default 0 (j2len !! j')
  end.

(** ** The shape of an identifier

    [shape r] lists the character classes a pattern reads, one for each
    character of a match, and [fits item classes] says that [item] has one
    character in each class, in order. [pan_shape] and [gst_shape] are the
    classes of the two built-in patterns, read off their strings: five
    capitals, four digits and a capital for a PAN; two digits, five
    capitals, four digits, a capital, one of [1-9A-Z], a Z and one of
    [0-9A-Z] for a GST number. *)
Fixpoint shape (r : re.regex) : list (list (nat * nat)) :=
  match r with
  | re.Empty | re.WordB => []
  | re.Chr c => [[(ord c, ord c)]]
  | re.Cls ranges => [ranges]
  | re.Cat r1 r2 => shape r1 ++ shape r2
  | re.Rep r n => concat (replicate n (shape r))
  | re.Grp r => shape r
  end.

Definition fits (item : str) (classes : list (list (nat * nat))) : Prop :=
  Forall2 (λ c ranges, re.in_ranges ranges c = true) item classes.

Definition pan_shape : list (list (nat * nat)) :=
  replicate 5 [(65, 90)] ++ replicate 4 [(48, 57)] ++ [[(65, 90)]].

Definition gst_shape : list (list (nat * nat)) :=
  replicate 2 [(48, 57)] ++ replicate 5 [(65, 90)] ++ replicate 4 [(48, 57)] ++
  [[(65, 90)]; [(49, 57); (65, 90)]; [(90, 90)]; [(48, 57); (65, 90)]].

(** ** A well-typed configuration

    The types [__init__] can work with: a pattern is a str or is blank
    (null, empty, zero or false, for which [or r""] puts the empty pattern),
    a keyword list is a list of strs, and the threshold is a float, a bool or
    an int that [float] can convert. A key the file leaves out is not
    constrained. *)
Definition blank_or_str (v : yaml) : Prop := truthy v = false ∨ ∃ s, v = YStr s.

Definition str_list (v : yaml) : Prop := ∃ ks, v = YList (map YStr ks).

Definition number (v : yaml) : Prop :=
  match v with
  | YFloat _ | YBool _ => True
  | YInt n => (Z.abs n < 2 ^ 1024 - 2 ^ 970)%Z
  | _ => False
  end.

Definition well_typed (config : gmap str yaml) : Prop :=
  (∀ v, config !! T "pan_regex" = Some v → blank_or_str v) ∧
  (∀ v, config !! T "gst_regex" = Some v → blank_or_str v) ∧
  (∀ v, config !! T "coi_keywords" = Some v → str_list v) ∧
  (∀ v, config !! T "ratecard_keywords" = Some v → str_list v) ∧
  (∀ v, config !! T "similarity_threshold" = Some v → number v).

(** The engine either compiles [s] or raises [re.error] on it: it raises
    nothing that [except re.error] lets through. *)
Definition re_error_only (re_compile : str → result re.pattern) (s : str) : Prop :=
  ∀ e, re_compile s = Raise e → e = ReError.

(** What [__init__] hands to [re.compile] is within the engine's limits:
    the empty pattern, which stands for a blank entry, and the configured
    patterns. *)
Definition within_limits (re_compile : str → result re.pattern)
    (config : gmap str yaml) : Prop :=
  re_error_only re_compile [] ∧
  (∀ s, config !! T "pan_regex" = Some (YStr s) → re_error_only re_compile s) ∧
  (∀ s, config !! T "gst_regex" = Some (YStr s) → re_error_only re_compile s).

(** ** The lines of a text

    What [stripped_lines] keeps of a list of raw lines: each line trimmed,
    the blank ones dropped. *)
Definition kept_lines (lines : list str) : list str :=
  filter (λ l, l ≠ []) (map strip lines).

(** * Proofs *)

(** ** difflib: the matches found are matches *)

Lemma chain_b_fill_sound (b' pre : str) (b2j : gmap ascii (list nat)) :
  (∀ x js j, b2j !! x = Some js → j ∈ js → (pre ++ b') !! j = Some x) →
  ∀ x js j, difflib.chain_b_fill b' (length pre) b2j !! x = Some js → j ∈ js →
    (pre ++ b') !! j = Some x.
Proof.
  revert pre b2j. induction b' as [|elt b' IH]; intros pre b2j Hinv; simpl.
  - exact Hinv.
  - intros x js j Hx Hj.
    replace (pre ++ elt :: b') with ((pre ++ [elt]) ++ b') by (by rewrite <- app_assoc).
    apply (IH (pre ++ [elt]) (<[elt:=default [] (b2j !! elt) ++ [length pre]]> b2j)) with js;
      [|by rewrite length_app, Nat.add_1_r|done].
    clear x js j Hx Hj. intros x js j Hx Hj.
    rewrite <- app_assoc. simpl.
    destruct (decide (elt = x)) as [->|Hne].
    + rewrite lookup_insert_eq in Hx. injection Hx as <-.
      apply elem_of_app in Hj as [Hj|Hj].
      * destruct (b2j !! x) as [js0|] eqn:E; simpl in Hj; [|by apply elem_of_nil in Hj].
        by apply (Hinv x js0).
      * apply list_elem_of_singleton in Hj as ->.
        by rewrite lookup_app_r, Nat.sub_diag.
    + rewrite lookup_insert_ne in Hx by done. by apply (Hinv x js).
Qed.

Lemma chain_b_sound (b : str) x js j :
  difflib.chain_b b !! x = Some js → j ∈ js → b !! j = Some x.
Proof.
  intros Hx Hj.
  assert (difflib.chain_b_fill b 0 ∅ !! x = Some js) as Hfill.
  { unfold difflib.chain_b in Hx. case_decide; [|done].
    by apply map_lookup_filter_Some in Hx as [? _]. }
  apply (chain_b_fill_sound b [] ∅) with js; [|done..].
  intros ??? Hempty. by rewrite lookup_empty in Hempty.
Qed.

Lemma entry_ok_extend (a b : str) alo blo bhi i j x (j2len : gmap nat nat) :
  alo ≤ i → blo ≤ j → j < bhi →
  a !! i = Some x → b !! j = Some x →
  row_ok a b alo blo bhi i j2len →
  entry_ok a b alo blo bhi (S i) j
    (match j with 0 => 0 | S j' => default 0 (j2len !! j') end + 1).
Proof.
  intros Halo Hblo Hbhi Ha Hb Hrow.
  assert (entry_ok a b alo blo bhi (S i) j 1) as Hone.
  { repeat split; try lia.
    - replace (S i - 1 + t) with i by lia. by rewrite Ha.
    - replace (S i - 1 + t) with i by lia.
      replace (j + 1 - 1 + t) with j by lia. congruence. }
  destruct j as [|j']; [exact Hone|].
  destruct (j2len !! j') as [k0|] eqn:E; [|exact Hone]. simpl.
  destruct (Hrow j' k0 E) as (Hk & Hka & Hkb & _ & Hpt).
  repeat split; try lia.
  - destruct (decide (t = k0)) as [->|Hne].
    + replace (S i - (k0 + 1) + k0) with i by lia. by rewrite Ha.
    + replace (S i - (k0 + 1) + t) with (i - k0 + t) by lia. apply Hpt. lia.
  - destruct (decide (t = k0)) as [->|Hne].
    + replace (S i - (k0 + 1) + k0) with i by lia.
      replace (S j' + 1 - (k0 + 1) + k0) with (S j') by lia. congruence.
    + replace (S i - (k0 + 1) + t) with (i - k0 + t) by lia.
      replace (S j' + 1 - (k0 + 1) + t) with (j' + 1 - k0 + t) by lia.
      apply Hpt. lia.
Qed.

Lemma entry_ok_match (a b : str) alo ahi blo bhi i j k :
  i < ahi → entry_ok a b alo blo bhi (S i) j k →
  match_in a b alo ahi blo bhi (difflib.mkMatch (i + 1 - k) (j + 1 - k) k).
Proof.
  intros Hi (Hk & Hka & Hkb & Hj & Hpt). unfold match_in; simpl.
  repeat split; try lia.
  - replace (i + 1 - k + t) with (S i - k + t) by lia. by apply Hpt.
  - replace (i + 1 - k + t) with (S i - k + t) by lia. by apply Hpt.
Qed.

Lemma flm_inner_ok (a b : str) alo ahi blo bhi i js j2len newj2len best :
  alo ≤ i → i < ahi →
  (∀ j, j ∈ js → ∃ x, a !! i = Some x ∧ b !! j = Some x) →
  row_ok a b alo blo bhi i j2len →
  row_ok a b alo blo bhi (S i) newj2len →
  match_in a b alo ahi blo bhi best →
  row_ok a b alo blo bhi (S i) (difflib.flm_inner i blo bhi j2len js newj2len best).1 ∧
  match_in a b alo ahi blo bhi (difflib.flm_inner i blo bhi j2len js newj2len best).2.
Proof.
  intros Halo Hahi Hjs Hprev.
  revert newj2len best. induction js as [|j js IH]; intros newj2len best Hnew Hbest; simpl.
  - done.
  - assert (∀ j', j' ∈ js → ∃ x, a !! i = Some x ∧ b !! j' = Some x) as Hjs'.
    { intros j' Hj'. apply Hjs. by right. }
    destruct (decide (j < blo)); [by apply IH|].
    destruct (decide (bhi ≤ j)); [done|].
    assert (entry_ok a b alo blo bhi (S i) j
              (match j with 0 => 0 | S j' => default 0 (j2len !! j') end + 1)) as Hentry.
    { destruct (Hjs j) as (x & Ha & Hb); [by left|].
      apply entry_ok_extend with x; try done; lia. }
    apply IH; [done| |].
    + intros j0 k0 Hlook. destruct (decide (j = j0)) as [->|Hne].
      * rewrite lookup_insert_eq in Hlook. by injection Hlook as <-.
      * rewrite lookup_insert_ne in Hlook by done. by apply Hnew.
    + case_decide; [|done]. by eapply entry_ok_match.
Qed.

Lemma row_ok_empty (a b : str) alo blo bhi e : row_ok a b alo blo bhi e ∅.
Proof. intros j k Hlook. by rewrite lookup_empty in Hlook. Qed.

Lemma flm_outer_ok (a b : str) alo ahi blo bhi n :
  ∀ i0 j2len best,
    alo ≤ i0 → i0 + n ≤ ahi →
    row_ok a b alo blo bhi i0 j2len →
    match_in a b alo ahi blo bhi best →
    match_in a b alo ahi blo bhi
      (difflib.flm_outer a (difflib.chain_b b) blo bhi (seq i0 n) j2len best).
Proof.
  induction n as [|n IH]; intros i0 j2len best Hlo Hhi Hrow Hbest; simpl; [done|].
  pose proof (flm_inner_ok a b alo ahi blo bhi i0
    (match a !! i0 with
     | Some x => default [] (difflib.chain_b b !! x)
     | None => []
     end) j2len ∅ best) as Hinner.
  destruct (difflib.flm_inner _ _ _ _ _ _ _) as [newj2len best'].
  destruct Hinner as [Hrow' Hbest'];
    [lia | lia | | exact Hrow | apply row_ok_empty | exact Hbest |].
  - intros j Hj. destruct (a !! i0) as [x|] eqn:Ha; [|by apply elem_of_nil in Hj].
    exists x. split; [done|].
    destruct (difflib.chain_b b !! x) as [js|] eqn:Hx; [|by apply elem_of_nil in Hj].
    by apply chain_b_sound with js.
  - apply IH; [lia | lia | exact Hrow' | exact Hbest'].
Qed.

Lemma extend_left_ok (a b : str) alo ahi blo bhi fuel :
  ∀ best, match_in a b alo ahi blo bhi best →
    match_in a b alo ahi blo bhi (difflib.extend_left a b alo blo fuel best).
Proof.
  induction fuel as [|fuel IH]; intros best Hbest; simpl; [done|].
  case_decide as Hc; [|done]. destruct Hc as (Hi & Hj & Hsome & Heq).
  apply IH. destruct Hbest as (H1 & H2 & H3 & H4 & Hpt).
  unfold match_in; simpl. repeat split; try lia.
  - destruct t as [|t]; [by rewrite Nat.add_0_r|].
    replace (difflib.m_a best - 1 + S t) with (difflib.m_a best + t) by lia.
    apply Hpt. lia.
  - destruct t as [|t]; [by rewrite !Nat.add_0_r|].
    replace (difflib.m_a best - 1 + S t) with (difflib.m_a best + t) by lia.
    replace (difflib.m_b best - 1 + S t) with (difflib.m_b best + t) by lia.
    apply Hpt. lia.
Qed.

Lemma extend_right_ok (a b : str) alo ahi blo bhi fuel :
  ∀ best, match_in a b alo ahi blo bhi best →
    match_in a b alo ahi blo bhi (difflib.extend_right a b ahi bhi fuel best).
Proof.
  induction fuel as [|fuel IH]; intros best Hbest; simpl; [done|].
  case_decide as Hc; [|done]. destruct Hc as (Hi & Hj & Hsome & Heq).
  apply IH. destruct Hbest as (H1 & H2 & H3 & H4 & Hpt).
  unfold match_in; simpl. repeat split; try lia.
  - destruct (decide (t = difflib.m_size best)) as [->|Hne]; [done|]. apply Hpt. lia.
  - destruct (decide (t = difflib.m_size best)) as [->|Hne]; [done|]. apply Hpt. lia.
Qed.

(** [find_longest_match] returns a match of [a] against [b] that lies in
    the region it was asked to search. *)
Lemma find_longest_match_ok (a b : str) alo ahi blo bhi :
  alo ≤ ahi → blo ≤ bhi →
  match_in a b alo ahi blo bhi
    (difflib.find_longest_match a b (difflib.chain_b b) alo ahi blo bhi).
Proof.
  intros Ha Hb. unfold difflib.find_longest_match.
  apply extend_right_ok, extend_left_ok, flm_outer_ok; try lia.
  - apply row_ok_empty.
  - unfold match_in; simpl. repeat split; lia.
Qed.

(** ** difflib: the loop of [get_matching_blocks] *)

Ltac boxes :=
  unfold apart, before, inside, proper, box_of, r_alo, r_ahi, r_blo, r_bhi in *;
  simpl in *; try lia.

Lemma apart_sym r1 r2 : apart r1 r2 → apart r2 r1.
Proof. unfold apart. tauto. Qed.

Lemma apart_inside r s w : apart w r → inside s w → apart s r.
Proof. boxes. Qed.

Lemma match_in_inside (a b : str) alo ahi blo bhi x :
  match_in a b alo ahi blo bhi x → inside (box_of x) (alo, ahi, blo, bhi).
Proof. intros (? & ? & ? & ? & _). boxes. Qed.

Lemma match_in_widen (a b : str) alo ahi blo bhi alo' ahi' blo' bhi' x :
  match_in a b alo ahi blo bhi x →
  inside (alo, ahi, blo, bhi) (alo', ahi', blo', bhi') →
  match_in a b alo' ahi' blo' bhi' x.
Proof. intros (? & ? & ? & ? & Hpt) Hin. unfold match_in. boxes. repeat split; try lia; apply Hpt; done. Qed.

Lemma gmb_inv_drop (a b : str) w queue blocks :
  gmb_inv a b (w :: queue) blocks → gmb_inv a b queue blocks.
Proof.
  intros [H1 H2 H3 H4 H5 H6 H7]. split; try done.
  - by inversion H1.
  - by inversion H2.
  - by destruct H3.
  - intros r x Hr Hx. apply H4; [by right|done].
Qed.

Lemma gmb_inv_push (a b : str) s queue blocks :
  gmb_inv a b queue blocks →
  proper s → inside s (0, length a, 0, length b) →
  Forall (apart s) queue →
  (∀ x, x ∈ blocks → apart s (box_of x)) →
  gmb_inv a b (s :: queue) blocks.
Proof.
  intros [H1 H2 H3 H4 H5 H6 H7] Hp Hin Hq Hb. split; try done.
  - by constructor.
  - by constructor.
  - intros r x Hr Hx. apply elem_of_cons in Hr as [->|Hr]; [by apply Hb|by apply H4].
Qed.

Lemma gmb_inv_found (a b : str) x queue blocks :
  gmb_inv a b queue blocks →
  1 ≤ difflib.m_size x → match_in a b 0 (length a) 0 (length b) x →
  (∀ r, r ∈ queue → apart r (box_of x)) →
  (∀ y, y ∈ blocks → apart (box_of x) (box_of y)) →
  gmb_inv a b queue (blocks ++ [x]).
Proof.
  intros [H1 H2 H3 H4 H5 H6 H7] Hk Hm Hq Hb. split; try done.
  - intros r y Hr Hy. apply elem_of_app in Hy as [Hy|Hy]; [by apply H4|].
    apply list_elem_of_singleton in Hy as ->. by apply Hq.
  - intros y Hy. apply elem_of_app in Hy as [Hy|Hy]; [by apply H5|].
    by apply list_elem_of_singleton in Hy as ->.
  - intros y z Hy Hz.
    apply elem_of_app in Hy as [Hy|Hy]; apply elem_of_app in Hz as [Hz|Hz].
    + by apply H6.
    + apply list_elem_of_singleton in Hz as ->. right. by apply apart_sym, Hb.
    + apply list_elem_of_singleton in Hy as ->. right. by apply Hb.
    + apply list_elem_of_singleton in Hy as ->.
      apply list_elem_of_singleton in Hz as ->. by left.
  - apply NoDup_app. split; [done|]. split; [|apply NoDup_singleton].
    intros y Hy Hyx. apply list_elem_of_singleton in Hyx as ->.
    specialize (Hb x Hy). boxes.
Qed.

Lemma gmb_inv_init (a b : str) : gmb_inv a b [(0, length a, 0, length b)] [].
Proof.
  split.
  - constructor; [boxes|constructor].
  - constructor; [boxes|constructor].
  - simpl. split; [constructor|done].
  - intros r x _ Hx. by apply elem_of_nil in Hx.
  - intros x Hx. by apply elem_of_nil in Hx.
  - intros x y Hx. by apply elem_of_nil in Hx.
  - constructor.
Qed.

Lemma queue_weight_cons r queue :
  queue_weight (r :: queue) = region_weight r + queue_weight queue.
Proof. reflexivity. Qed.

(** The loop keeps its invariant, and a queue whose weight is within the
    fuel is emptied. *)
Lemma gmb_loop_inv (a b : str) fuel :
  ∀ queue blocks,
    gmb_inv a b queue blocks →
    gmb_inv a b (difflib.gmb_loop a b (difflib.chain_b b) fuel queue blocks).2
                (difflib.gmb_loop a b (difflib.chain_b b) fuel queue blocks).1 ∧
    (queue_weight queue ≤ fuel →
     (difflib.gmb_loop a b (difflib.chain_b b) fuel queue blocks).2 = []).
Proof.
  induction fuel as [|fuel IH]; intros queue blocks Hinv.
  - destruct queue as [|w queue]; simpl; [done|]. split; [done|].
    unfold queue_weight, region_weight; simpl. lia.
  - destruct queue as [|[[[alo ahi] blo] bhi] queue]; [done|].
    simpl.
    set (x := difflib.find_longest_match a b (difflib.chain_b b) alo ahi blo bhi).
    assert (proper (alo, ahi, blo, bhi)) as Hproper.
    { pose proof (inv_proper _ _ _ _ Hinv) as H. by apply Forall_cons in H as [? _]. }
    assert (inside (alo, ahi, blo, bhi) (0, length a, 0, length b)) as Hglobal.
    { pose proof (inv_inside _ _ _ _ Hinv) as H. by apply Forall_cons in H as [? _]. }
    assert (Forall (apart (alo, ahi, blo, bhi)) queue) as Hrest
      by (by destruct (inv_queue _ _ _ _ Hinv)).
    assert (∀ y, y ∈ blocks → apart (alo, ahi, blo, bhi) (box_of y)) as Hblocks.
    { intros y Hy. apply (inv_cross _ _ _ _ Hinv); [by left|done]. }
    assert (match_in a b alo ahi blo bhi x) as Hx.
    { apply find_longest_match_ok; boxes. }
    pose proof (match_in_inside _ _ _ _ _ _ _ Hx) as Hxin.
    pose proof (gmb_inv_drop _ _ _ _ _ Hinv) as Hinv0.
    case_decide as Hk.
    + assert (gmb_inv a b queue (blocks ++ [x])) as Hinv1.
      { apply gmb_inv_found; [done|lia| | |].
        - eapply match_in_widen; [exact Hx|done].
        - intros r Hr. apply apart_sym. eapply apart_inside; [|exact Hxin].
          by apply (proj1 (Forall_forall _ _) Hrest).
        - intros y Hy. eapply apart_inside; [|exact Hxin]. by apply Hblocks. }
      set (q1 := if decide (alo < difflib.m_a x ∧ blo < difflib.m_b x)
                 then (alo, difflib.m_a x, blo, difflib.m_b x) :: queue else queue).
      assert (gmb_inv a b q1 (blocks ++ [x]) ∧
              Forall (apart (difflib.m_a x + difflib.m_size x, ahi,
                             difflib.m_b x + difflib.m_size x, bhi)) q1 ∧
              queue_weight q1 ≤ queue_weight queue + 2 * (difflib.m_a x - alo) + 1)
        as (Hinv2 & Hq1 & Hw1).
      { assert (Forall (apart (difflib.m_a x + difflib.m_size x, ahi,
                               difflib.m_b x + difflib.m_size x, bhi)) queue) as Hq.
        { eapply Forall_impl; [exact Hrest|]. intros r Hr. simpl in Hr.
          eapply apart_inside; [exact Hr|]. boxes. }
        subst q1. case_decide as Hc.
        - split; [|split].
          + apply gmb_inv_push; [done| | | |]; try (boxes; fail).
            * eapply Forall_impl; [exact Hrest|]. intros r Hr. simpl in Hr.
              eapply apart_inside; [exact Hr|]. boxes.
            * intros y Hy. apply elem_of_app in Hy as [Hy|Hy].
              -- eapply apart_inside; [by apply Hblocks|]. boxes.
              -- apply list_elem_of_singleton in Hy as ->. boxes.
          + constructor; [boxes|done].
          + rewrite queue_weight_cons. unfold region_weight. boxes.
        - split; [done|]. split; [done|lia]. }
      set (q2 := if decide (difflib.m_a x + difflib.m_size x < ahi ∧
                            difflib.m_b x + difflib.m_size x < bhi)
                 then (difflib.m_a x + difflib.m_size x, ahi,
                       difflib.m_b x + difflib.m_size x, bhi) :: q1 else q1).
      assert (gmb_inv a b q2 (blocks ++ [x]) ∧
              queue_weight q2 ≤
                queue_weight q1 + 2 * (ahi - (difflib.m_a x + difflib.m_size x)) + 1)
        as (Hinv3 & Hw2).
      { subst q2. case_decide as Hc.
        - split.
          + apply gmb_inv_push; [done| | |done|]; try (boxes; fail).
            intros y Hy. apply elem_of_app in Hy as [Hy|Hy].
            * eapply apart_inside; [by apply Hblocks|]. boxes.
            * apply list_elem_of_singleton in Hy as ->. boxes.
          + rewrite queue_weight_cons. unfold region_weight. boxes.
        - split; [done|lia]. }
      destruct (IH q2 (blocks ++ [x]) Hinv3) as [Hres Hdone].
      split; [exact Hres|].
      intros Hw. apply Hdone.
      change (region_weight (alo, ahi, blo, bhi) + queue_weight queue ≤ S fuel) in Hw.
      unfold region_weight in Hw. boxes.
    + destruct (IH queue blocks Hinv0) as [Hres Hdone].
      split; [exact Hres|].
      intros Hw. apply Hdone.
      change (region_weight (alo, ahi, blo, bhi) + queue_weight queue ≤ S fuel) in Hw.
      unfold region_weight in Hw. lia.
Qed.

(** ** difflib: sorting and merging the blocks *)

Global Instance Match_le_trans : Transitive difflib.Match_le.
Proof. intros x y z. unfold difflib.Match_le. lia. Qed.

Global Instance Match_le_total : Total difflib.Match_le.
Proof. intros x y. unfold difflib.Match_le. lia. Qed.

Lemma chain_from_weaken (a b : str) l i j i' j' :
  i ≤ i' → j ≤ j' → chain_from a b i' j' l → chain_from a b i j l.
Proof.
  intros Hi Hj. destruct l as [|x l]; simpl; [done|].
  intros [(H1 & H2 & H3 & H4 & Hpt) Hrest]. split; [|done].
  unfold match_in. repeat split; try lia; by apply Hpt.
Qed.

(** Blocks that lie pairwise apart, listed in tuple order, follow one
    another. *)
Lemma sorted_chain (a b : str) l :
  StronglySorted difflib.Match_le l → NoDup l →
  (∀ x, x ∈ l → 1 ≤ difflib.m_size x ∧ match_in a b 0 (length a) 0 (length b) x) →
  (∀ x y, x ∈ l → y ∈ l → x = y ∨ apart (box_of x) (box_of y)) →
  ∀ i j, (∀ x, x ∈ l → i ≤ difflib.m_a x ∧ j ≤ difflib.m_b x) →
    chain_from a b i j l.
Proof.
  induction l as [|x l IH]; intros Hsorted Hnodup Hmatch Hapart i j Hlow; simpl; [done|].
  apply StronglySorted_inv in Hsorted as [Hsorted Hx].
  apply NoDup_cons in Hnodup as [Hnotin Hnodup].
  split.
  - destruct (Hmatch x) as [_ (H1 & H2 & H3 & H4 & Hpt)]; [by left|].
    destruct (Hlow x) as [? ?]; [by left|].
    unfold match_in. repeat split; try lia; by apply Hpt.
  - apply IH; [done|done| | |].
    + intros y Hy. apply Hmatch. by right.
    + intros y z Hy Hz. apply Hapart; by right.
    + intros y Hy.
      assert (difflib.Match_le x y) as Hle by (by apply (proj1 (Forall_forall _ _) Hx)).
      destruct (Hmatch x) as [Hkx _]; [by left|].
      destruct (Hmatch y) as [Hky _]; [by right|].
      destruct (Hapart x y) as [->|Hxy]; [by left|by right|done|].
      unfold difflib.Match_le in Hle. boxes.
Qed.

Lemma collapse_acc blocks :
  ∀ i1 j1 k1 non_adjacent,
    difflib.collapse i1 j1 k1 blocks non_adjacent =
    non_adjacent ++ difflib.collapse i1 j1 k1 blocks [].
Proof.
  induction blocks as [|x blocks IH]; intros i1 j1 k1 non_adjacent; simpl; [done|].
  case_decide; [by apply IH|].
  rewrite IH. rewrite (IH _ _ _ (if decide (k1 ≠ 0) then _ else _)).
  by rewrite app_assoc.
Qed.

(** Merging adjacent blocks keeps them a chain of matches. [(i1, j1, k1)]
    is the block under construction, absent from the chain while empty. *)
Lemma collapse_chain (a b : str) blocks :
  ∀ i1 j1 k1 i j,
    chain_from a b i j
      ((if decide (k1 ≠ 0) then [difflib.mkMatch i1 j1 k1] else []) ++ blocks) →
    chain_from a b i j (difflib.collapse i1 j1 k1 blocks []).
Proof.
  induction blocks as [|x blocks IH]; intros i1 j1 k1 i j Hchain; simpl.
  - by rewrite app_nil_r in Hchain.
  - destruct x as [i2 j2 k2]; simpl in *.
    destruct (decide (k1 ≠ 0)) as [Hk1|Hk1]; simpl in Hchain.
    + (* a block is under construction *)
      destruct Hchain as [Hcur [Hx Hrest]]; simpl in *.
      case_decide as Hadj.
      * destruct Hadj as [<- <-]. apply IH.
        rewrite decide_True by lia. simpl. split.
        -- destruct Hcur as (H1 & H2 & H3 & H4 & Hpt); simpl in *.
           destruct Hx as (G1 & G2 & G3 & G4 & Gpt); simpl in *.
           unfold match_in; simpl. repeat split; try lia.
           ++ destruct (decide (t < k1)); [by apply Hpt|].
              replace (i1 + t) with (i1 + k1 + (t - k1)) by lia. apply Gpt. lia.
           ++ destruct (decide (t < k1)); [by apply Hpt|].
              replace (i1 + t) with (i1 + k1 + (t - k1)) by lia.
              replace (j1 + t) with (j1 + k1 + (t - k1)) by lia. apply Gpt. lia.
        -- simpl. by replace (i1 + (k1 + k2)) with (i1 + k1 + k2) by lia;
             replace (j1 + (k1 + k2)) with (j1 + k1 + k2) by lia.
      * rewrite collapse_acc. simpl. split; [done|].
        apply IH. destruct (decide (k2 ≠ 0)); simpl; [done|].
        destruct Hx as (? & ? & ? & ? & _); simpl in *.
        eapply chain_from_weaken; [| |exact Hrest]; lia.
    + (* no block yet: the next one starts it, adjacent or not *)
      assert (k1 = 0) as -> by lia. simpl.
      assert (chain_from a b i j (difflib.collapse i2 j2 k2 blocks [])) as Hgoal.
      { apply IH. destruct (decide (k2 ≠ 0)); simpl; [done|].
        destruct Hchain as [(? & ? & ? & ? & _) Hrest]; simpl in *.
        eapply chain_from_weaken; [| |exact Hrest]; lia. }
      case_decide as Hadj; [|done].
      destruct Hadj as [Hi Hj]. rewrite Nat.add_0_r in Hi, Hj. by subst.
Qed.

Lemma chain_from_sentinel (a b : str) l :
  ∀ i j, i ≤ length a → j ≤ length b → chain_from a b i j l →
    chain_from a b i j (l ++ [difflib.mkMatch (length a) (length b) 0]).
Proof.
  induction l as [|x l IH]; intros i j Hi Hj Hchain; simpl.
  - split; [|done]. unfold match_in; simpl. repeat split; lia.
  - destruct Hchain as [Hx Hrest]. split; [done|].
    destruct Hx as (? & ? & ? & ? & _). apply IH; [lia|lia|done].
Qed.

(** The fuel [get_matching_blocks] runs its loop with is enough: no region
    is left pending. *)
Lemma get_matching_blocks_terminates (a b : str) :
  (difflib.gmb_loop a b (difflib.chain_b b) (difflib.gmb_fuel a)
     [(0, length a, 0, length b)] []).2 = [].
Proof.
  apply gmb_loop_inv; [apply gmb_inv_init|].
  unfold queue_weight, region_weight, difflib.gmb_fuel; simpl. boxes.
Qed.

(** The matching blocks, sentinel included, are matches of [a] against [b]
    that follow one another from the origin. *)
Lemma get_matching_blocks_chain (a b : str) :
  chain_from a b 0 0 (difflib.get_matching_blocks a b).
Proof.
  unfold difflib.get_matching_blocks.
  destruct (gmb_loop_inv a b (difflib.gmb_fuel a) [(0, length a, 0, length b)] []
              (gmb_inv_init a b)) as [[_ _ _ _ Hmatch Hblocks Hnodup] _].
  set (found := (difflib.gmb_loop a b (difflib.chain_b b) (difflib.gmb_fuel a)
                   [(0, length a, 0, length b)] []).1) in *.
  pose proof (merge_sort_Permutation difflib.Match_le found) as Hperm.
  apply chain_from_sentinel; [lia|lia|].
  apply (collapse_chain a b _ 0 0 0 0 0). simpl.
  apply sorted_chain.
  - apply StronglySorted_merge_sort; apply _.
  - by rewrite Hperm.
  - intros x Hx. apply Hmatch. by rewrite <- Hperm.
  - intros x y Hx Hy. apply Hblocks; by rewrite <- Hperm.
  - intros x _. lia.
Qed.

(** ** Opcodes and the diff *)

Lemma opcodes_loop_acc blocks :
  ∀ i j answer,
    difflib.opcodes_loop blocks i j answer =
    answer ++ difflib.opcodes_loop blocks i j [].
Proof.
  induction blocks as [|x blocks IH]; intros i j answer; simpl.
  - by rewrite app_nil_r.
  - rewrite IH. symmetry. rewrite IH. symmetry.
    repeat case_decide; simpl; by rewrite <- ?app_assoc.
Qed.

Lemma simple_diff_loop_acc (a b : str) ops :
  ∀ adds removes,
    simple_diff_loop a b ops adds removes =
    mkDiff (adds ++ added (simple_diff_loop a b ops [] []))
           (removes ++ removed (simple_diff_loop a b ops [] [])).
Proof.
  induction ops as [|op ops IH]; intros adds removes; simpl.
  - by rewrite !app_nil_r.
  - destruct (difflib.op_tag op); rewrite IH; symmetry; rewrite IH; simpl;
      by rewrite <- ?app_assoc.
Qed.

Lemma match_in_slices (a b : str) alo ahi blo bhi x :
  match_in a b alo ahi blo bhi x →
  take (difflib.m_size x) (drop (difflib.m_a x) a) =
  take (difflib.m_size x) (drop (difflib.m_b x) b).
Proof.
  intros (_ & _ & _ & _ & Hpt). apply list_eq. intros t.
  destruct (decide (t < difflib.m_size x)) as [Hlt|Hge].
  - rewrite !lookup_take_lt, !lookup_drop by done. by apply Hpt.
  - by rewrite !lookup_take_ge by lia.
Qed.

Lemma end_cursor_sentinel l x :
  ∀ i j, end_cursor (l ++ [x]) i j =
         (difflib.m_a x + difflib.m_size x, difflib.m_b x + difflib.m_size x).
Proof. induction l as [|y l IH]; intros i j; simpl; [done|apply IH]. Qed.

(** Reading the diff back over a chain of blocks that ends at the ends of
    [a] and [b] gives the rest of [b], as long as no opcode is a
    [replace]. *)
Lemma apply_diff_chain (a b : str) blocks :
  ∀ i j,
    chain_from a b i j blocks →
    end_cursor blocks i j = (length a, length b) →
    (∀ op, op ∈ difflib.opcodes_loop blocks i j [] → difflib.op_tag op ≠ difflib.Replace) →
    apply_diff (difflib.opcodes_loop blocks i j []) (drop i a)
      (added (simple_diff_loop a b (difflib.opcodes_loop blocks i j []) [] []))
      (removed (simple_diff_loop a b (difflib.opcodes_loop blocks i j []) [] []))
    = drop j b.
Proof.
  induction blocks as [|x blocks IH]; intros i j Hchain Hend Hnorep.
  - simpl in *. injection Hend as -> ->. by rewrite !drop_ge.
  - destruct x as [ai bj size]. simpl in Hchain, Hend.
    destruct Hchain as [Hx Hrest].
    pose proof (match_in_slices _ _ _ _ _ _ _ Hx) as Hslices.
    destruct Hx as (Hi & Hia & Hj & Hjb & _). simpl in Hi, Hia, Hj, Hjb, Hslices, Hrest.
    set (rest := difflib.opcodes_loop blocks (ai + size) (bj + size) []) in *.
    set (eq_op := if decide (size ≠ 0)
                  then [difflib.mkOp difflib.Equal ai (ai + size) bj (bj + size)]
                  else []).
    set (gap_op := if decide (i < ai ∧ j < bj) then [difflib.mkOp difflib.Replace i ai j bj]
                   else if decide (i < ai) then [difflib.mkOp difflib.Delete i ai j bj]
                   else if decide (j < bj) then [difflib.mkOp difflib.Insert i ai j bj]
                   else []).
    assert (difflib.opcodes_loop (difflib.mkMatch ai bj size :: blocks) i j []
            = gap_op ++ eq_op ++ rest) as Hops.
    { simpl. rewrite opcodes_loop_acc. fold rest. subst gap_op eq_op.
      repeat case_decide; simpl; by rewrite <- ?app_assoc. }
    rewrite Hops in *. clear Hops.
    (* the blocks after this one *)
    assert (apply_diff rest (drop (ai + size) a)
              (added (simple_diff_loop a b rest [] []))
              (removed (simple_diff_loop a b rest [] [])) = drop (bj + size) b) as Hafter.
    { apply IH; [done|done|]. intros op Hop. apply Hnorep.
      apply elem_of_app; right. apply elem_of_app; by right. }
    (* the block itself *)
    assert (apply_diff (eq_op ++ rest) (drop ai a)
              (added (simple_diff_loop a b (eq_op ++ rest) [] []))
              (removed (simple_diff_loop a b (eq_op ++ rest) [] [])) = drop bj b) as Hblock.
    { subst eq_op. case_decide as Hsize; simpl.
      - replace (ai + size - ai) with size by lia.
        rewrite drop_drop, Hafter, Hslices.
        rewrite <- (drop_drop b size bj). apply take_drop.
      - assert (size = 0) as Hz by lia. rewrite Hz, !Nat.add_0_r in Hafter. exact Hafter. }
    (* the gap before it *)
    subst gap_op. case_decide as Hrep.
    + exfalso. apply (Hnorep (difflib.mkOp difflib.Replace i ai j bj)); [|done].
      apply elem_of_app; left. by left.
    + case_decide as Hdel; [|case_decide as Hins].
      * assert (j = bj) as -> by lia. simpl.
        rewrite simple_diff_loop_acc. simpl.
        unfold slice. rewrite length_take_le by (rewrite length_drop; lia).
        rewrite drop_drop. replace (i + (ai - i)) with ai by lia. exact Hblock.
      * assert (i = ai) as -> by lia. simpl.
        rewrite simple_diff_loop_acc. simpl.
        rewrite Hblock. unfold slice.
        replace (drop bj b) with (drop (bj - j) (drop j b))
          by (rewrite drop_drop; f_equal; lia).
        apply take_drop.
      * assert (i = ai) as -> by lia. assert (j = bj) as -> by lia. exact Hblock.
Qed.

(** ** The ratio lies between 0 and 1 *)

Lemma chain_from_sum_sizes (a b : str) l :
  ∀ i j, i ≤ length a → j ≤ length b → chain_from a b i j l →
    i + sum_sizes l ≤ length a ∧ j + sum_sizes l ≤ length b.
Proof.
  induction l as [|x l IH]; intros i j Hi Hj Hchain; simpl.
  - lia.
  - destruct Hchain as [(H1 & H2 & H3 & H4 & _) Hrest].
    destruct (IH _ _ H2 H4 Hrest). lia.
Qed.

Lemma fraction_range (m n : nat) :
  m ≤ n → n ≠ 0 →
  (0 <= inject_Z (Z.of_nat m) / inject_Z (Z.of_nat n) <= 1)%Q.
Proof.
  intros Hmn Hn.
  assert (0 < inject_Z (Z.of_nat n))%Q as Hpos.
  { change 0%Q with (inject_Z 0). rewrite <- Zlt_Qlt. lia. }
  assert (0 <= inject_Z (Z.of_nat m))%Q as Hm.
  { change 0%Q with (inject_Z 0). rewrite <- Zle_Qle. lia. }
  assert (inject_Z (Z.of_nat m) <= inject_Z (Z.of_nat n))%Q as Hle.
  { rewrite <- Zle_Qle. lia. }
  split.
  - apply Qle_shift_div_l; [done|]. lra.
  - apply Qle_shift_div_r; [done|]. lra.
Qed.

Lemma calculate_ratio_range (matches length : nat) :
  2 * matches ≤ length →
  (0 <= difflib.calculate_ratio matches length <= 1)%Q.
Proof.
  intros Hle. unfold difflib.calculate_ratio. case_decide as Hlen; [|lra].
  destruct (fraction_range (2 * matches) length Hle Hlen) as [H0 H1].
  assert (2 * inject_Z (Z.of_nat matches) / inject_Z (Z.of_nat length)
          == inject_Z (Z.of_nat (2 * matches)) / inject_Z (Z.of_nat length))%Q as Heq.
  { rewrite Nat2Z.inj_mul, inject_Z_mult. reflexivity. }
  rewrite Heq. done.
Qed.

Lemma ratio_range (a b : str) : (0 <= difflib.ratio a b <= 1)%Q.
Proof.
  unfold difflib.ratio. apply calculate_ratio_range.
  pose proof (get_matching_blocks_chain a b) as Hchain.
  apply chain_from_sum_sizes in Hchain; [|lia|lia].
  unfold sum_sizes in Hchain. lia.
Qed.

(** ** fuzzy_ratio *)

Lemma fuzzy_ratio_both_empty : (fuzzy_ratio [] [] == 1)%Q.
Proof. reflexivity. Qed.

Lemma fuzzy_ratio_one_empty (a b : str) :
  (a = [] ∧ b ≠ []) ∨ (a ≠ [] ∧ b = []) → (fuzzy_ratio a b == 0)%Q.
Proof.
  intros Hone. unfold fuzzy_ratio.
  rewrite decide_False by (intros [-> ->]; destruct Hone as [[_ ?]|[? _]]; done).
  rewrite decide_True by tauto. reflexivity.
Qed.

Lemma fuzzy_ratio_no_tokens (a b : str) :
  a ≠ [] → b ≠ [] → token_set a = ∅ ∨ token_set b = ∅ → (fuzzy_ratio a b == 0)%Q.
Proof.
  intros Ha Hb Htok. unfold fuzzy_ratio.
  rewrite decide_False by tauto. rewrite decide_False by tauto.
  fold (token_set a) (token_set b). rewrite decide_True by done. reflexivity.
Qed.

Lemma fuzzy_ratio_blend (a b : str) :
  a ≠ [] → b ≠ [] → token_set a ≠ ∅ → token_set b ≠ ∅ →
  (fuzzy_ratio a b == 0.6 * tokenJaccard a b + 0.4 * sequenceRatio a b)%Q.
Proof.
  intros Ha Hb Hta Htb. unfold fuzzy_ratio, tokenJaccard, sequenceRatio.
  rewrite decide_False by tauto. rewrite decide_False by tauto.
  fold (token_set a) (token_set b).
  rewrite !decide_False by tauto. reflexivity.
Qed.

Lemma tokenJaccard_range (a b : str) : (0 <= tokenJaccard a b <= 1)%Q.
Proof.
  unfold tokenJaccard. case_decide as Htok; [lra|].
  apply fraction_range.
  - apply subseteq_size. intros x Hx. apply elem_of_intersection in Hx as [Hx _].
    by apply elem_of_union_l.
  - intros Hz. apply size_empty_iff in Hz. apply Htok. left.
    apply leibniz_equiv. intros x. split; [|by intros ?%not_elem_of_empty].
    intros Hx. apply (Hz x). by apply elem_of_union_l.
Qed.

Lemma fuzzy_ratio_range (a b : str) : (0 <= fuzzy_ratio a b <= 1)%Q.
Proof.
  destruct (decide (a = [])) as [->|Ha]; destruct (decide (b = [])) as [->|Hb].
  - rewrite fuzzy_ratio_both_empty. lra.
  - rewrite fuzzy_ratio_one_empty by tauto. lra.
  - rewrite fuzzy_ratio_one_empty by tauto. lra.
  - destruct (decide (token_set a = ∅ ∨ token_set b = ∅)) as [Htok|Htok].
    + rewrite fuzzy_ratio_no_tokens by done. lra.
    + rewrite fuzzy_ratio_blend by tauto.
      pose proof (tokenJaccard_range a b). pose proof (ratio_range a b).
      unfold sequenceRatio. lra.
Qed.

Lemma tokenJaccard_sym (a b : str) : tokenJaccard a b = tokenJaccard b a.
Proof.
  unfold tokenJaccard.
  rewrite (comm_L (∩) (token_set a)), (comm_L (∪) (token_set a)).
  destruct (decide (token_set a = ∅ ∨ token_set b = ∅));
    [rewrite decide_True by tauto|rewrite decide_False by tauto]; done.
Qed.

(** ** The greedy matcher *)

Lemma best_loop_spec (m : str) cs :
  ∀ best line,
    (best <= (best_loop m cs best line).1)%Q ∧
    (∀ c, c ∈ cs → (clause_similarity m c <= (best_loop m cs best line).1)%Q) ∧
    (best_loop m cs best line = (best, line) ∨
     ∃ k c, cs !! k = Some c ∧
            (best_loop m cs best line).2 = Some c ∧
            (best_loop m cs best line).1 = clause_similarity m c ∧
            (best < (best_loop m cs best line).1)%Q ∧
            ∀ k' c', k' < k → cs !! k' = Some c' →
              (clause_similarity m c' < (best_loop m cs best line).1)%Q).
Proof.
  induction cs as [|c cs IH]; intros best line; simpl.
  - split; [lra|]. split; [|by left]. intros c Hc. by apply elem_of_nil in Hc.
  - destruct (Qlt_le_dec best (clause_similarity m c)) as [Hlt|Hle].
    + destruct (IH (clause_similarity m c) (Some c)) as (Hge & Hall & Hlast).
      split; [lra|]. split.
      * intros c0 Hc0. apply elem_of_cons in Hc0 as [->|Hc0]; [done|by apply Hall].
      * right. destruct Hlast as [Hsame|(k & c0 & Hk & Hline & Hbest & Hgt & Hfirst)].
        -- exists 0, c. rewrite Hsame. simpl. repeat split; try done. intros; lia.
        -- exists (S k), c0. repeat split; try done; [lra|].
           intros [|k'] c' Hk' Hc'; simpl in Hc'.
           ++ injection Hc' as <-. done.
           ++ apply (Hfirst k'); [lia|done].
    + destruct (IH best line) as (Hge & Hall & Hlast).
      split; [done|]. split.
      * intros c0 Hc0. apply elem_of_cons in Hc0 as [->|Hc0]; [lra|by apply Hall].
      * destruct Hlast as [Hsame|(k & c0 & Hk & Hline & Hbest & Hgt & Hfirst)]; [by left|].
        right. exists (S k), c0. repeat split; try done.
        intros [|k'] c' Hk' Hc'; simpl in Hc'.
        -- injection Hc' as <-. lra.
        -- apply (Hfirst k'); [lia|done].
Qed.

Lemma similarity_samples_main (main_lines client_lines : list str) :
  map main (similarity_samples main_lines client_lines) = take 20 main_lines.
Proof.
  unfold similarity_samples. induction (take 20 main_lines) as [|m l IH]; simpl; [done|].
  destruct (best_loop m (take 40 client_lines) 0 None). simpl. by rewrite IH.
Qed.

Lemma similarity_samples_best (main_lines client_lines : list str) :
  Forall (λ s, best_of (main s) (take 40 client_lines) s)
    (similarity_samples main_lines client_lines).
Proof.
  unfold similarity_samples. apply Forall_forall. intros s Hs.
  apply list_elem_of_fmap in Hs as (m & -> & _).
  destruct (best_loop_spec m (take 40 client_lines) 0%Q None) as (Hge & Hall & Hlast).
  destruct (best_loop m (take 40 client_lines) 0 None) as [best line]; simpl in *.
  unfold best_of; simpl. split; [done|]. split; [done|].
  destruct Hlast as [Hsame|(k & c & Hk & -> & Hbest & Hgt & Hfirst)].
  - by injection Hsame as -> ->.
  - by exists k.
Qed.

Lemma stripped_lines_spec (text l : str) :
  l ∈ stripped_lines text ↔ l ≠ [] ∧ ∃ raw, raw ∈ splitlines text ∧ l = strip raw.
Proof.
  unfold stripped_lines. rewrite list_elem_of_filter, list_elem_of_fmap.
  split; intros [H1 (raw & H2 & H3)]; (split; [done|]); exists raw; done.
Qed.

Lemma samples_best_of_client_lines (backend : pdf_backend) (self : validator)
    (main_pdf client_pdf : str) (documents document_names : list str) :
  Forall (λ s, best_of (main s)
                 (take 40 (stripped_lines
                    (blank_to_empty (extract_text_and_images backend client_pdf)))) s)
    (clause_similarity_samples
       (validate backend self main_pdf client_pdf documents document_names)).
Proof.
  unfold validate.
  destruct (_search_pan_gst self _) as [pan_main gst_main].
  destruct (_search_pan_gst self _) as [pan_client gst_client]. simpl.
  pose proof (similarity_samples_best
    (take 200 (stripped_lines (blank_to_empty (extract_text_and_images backend main_pdf))))
    (take 200 (stripped_lines (blank_to_empty (extract_text_and_images backend client_pdf)))))
    as Hbest.
  by rewrite take_take in Hbest.
Qed.

(** ** Lower case and containment *)

Lemma lower_char_idem (c : ascii) : lower_char (lower_char c) = lower_char c.
Proof. destruct c as [[] [] [] [] [] [] [] []]; reflexivity. Qed.

Lemma lower_idem (s : str) : lower (lower s) = lower s.
Proof.
  unfold lower. rewrite <- list_fmap_compose. apply list_fmap_ext.
  intros _ c _. apply lower_char_idem.
Qed.

Lemma lower_app (s1 s2 : str) : lower (s1 ++ s2) = lower s1 ++ lower s2.
Proof. apply fmap_app. Qed.

Lemma startswith_app (k post : str) : startswith (k ++ post) k = true.
Proof. induction k as [|x k IH]; simpl; [by destruct post|]. by rewrite decide_True. Qed.

Lemma contains_app (pre k post : str) : contains (pre ++ k ++ post) k = true.
Proof.
  induction pre as [|c pre IH]; simpl.
  - assert (∀ t, contains t k = startswith t k || match t with
                                               | [] => false
                                               | _ :: t' => contains t' k
                                               end) as Hunfold by (by intros []).
    by rewrite Hunfold, startswith_app.
  - rewrite IH. apply orb_true_r.
Qed.

Lemma keyword_check_one (text k : str) :
  _keyword_check text [k] = if contains (lower text) k then [k] else [].
Proof.
  unfold _keyword_check. rewrite filter_cons, filter_nil.
  destruct (contains (lower text) k); by case_decide.
Qed.

(** ** The constructor *)

Lemma bind_Ok {A B} (r : result A) (k : A → result B) (v : B) :
  (x ← r; k x) = Ok v → ∃ a, r = Ok a ∧ k a = Ok v.
Proof. destruct r as [a|e]; simpl; [by exists a|done]. Qed.

Lemma for_each_lower (l : list yaml) (ks : list str) :
  for_each (λ k, match k with
                 | YStr s => Ok (lower s)
                 | _ => Raise AttributeError
                 end) l = Ok ks →
  Forall (λ k, lower k = k) ks.
Proof.
  revert ks. induction l as [|y l IH]; intros ks; simpl.
  - intros [= <-]. constructor.
  - intros H. apply bind_Ok in H as (k & Hk & H). apply bind_Ok in H as (ks' & Hks & [= <-]).
    constructor; [|by apply IH].
    destruct y; try done. injection Hk as <-. apply lower_idem.
Qed.

Lemma lower_each_lower (v : yaml) (ks : list str) :
  lower_each v = Ok ks → Forall (λ k, lower k = k) ks.
Proof.
  destruct v; simpl; try done.
  - intros [= <-]. apply Forall_fmap, Forall_true. intros c. exact (lower_idem [c]).
  - apply for_each_lower.
  - intros [= <-]. apply Forall_fmap, Forall_true. intros kv. exact (lower_idem kv.1).
Qed.

(** Whatever the configuration, the keyword lists of a validator are in
    lower case. *)
Lemma init_keywords_lower re_compile float_of_str loaded (v : validator) :
  __init__ re_compile float_of_str loaded = Ok v →
  Forall (λ k, lower k = k) (coi_keywords v) ∧
  Forall (λ k, lower k = k) (ratecard_keywords v).
Proof.
  unfold __init__. intros H.
  apply bind_Ok in H as (pan & _ & H). apply bind_Ok in H as (gst & _ & H).
  apply bind_Ok in H as (coi & Hcoi & H). apply bind_Ok in H as (rate & Hrate & H).
  apply bind_Ok in H as (threshold & _ & [= <-]). simpl.
  split; by eapply lower_each_lower.
Qed.

(** ** The regex engine *)

Lemma search_spec (p : re.pattern) (s : str) n :
  ∀ start must_advance,
    match re.search p s start must_advance n with
    | None =>
        ∀ t, start ≤ t ≤ start + n →
          re.match_at p s t (must_advance && bool_decide (t = start)) = None
    | Some (found, e, item) =>
        start ≤ found ≤ start + n ∧
        re.match_at p s found (must_advance && bool_decide (found = start)) = Some (e, item) ∧
        ∀ t, start ≤ t < found →
          re.match_at p s t (must_advance && bool_decide (t = start)) = None
    end.
Proof.
  induction n as [|n IH]; intros start must_advance; simpl.
  - destruct (re.match_at p s start must_advance) as [[e item]|] eqn:E.
    + rewrite bool_decide_eq_true_2, andb_true_r by done.
      repeat split; try lia; try done; intros; lia.
    + intros t Ht. assert (t = start) as -> by lia.
      by rewrite bool_decide_eq_true_2, andb_true_r.
  - destruct (re.match_at p s start must_advance) as [[e item]|] eqn:E.
    + rewrite bool_decide_eq_true_2, andb_true_r by done.
      repeat split; try lia; try done; intros; lia.
    + specialize (IH (S start) false).
      destruct (re.search p s (S start) false n) as [[[found e] item]|].
      * destruct IH as (Hrange & Hmatch & Hbefore). simpl in Hmatch.
        rewrite bool_decide_eq_false_2, andb_false_r by lia.
        repeat split; try lia; try done.
        intros t Ht. destruct (decide (t = start)) as [->|Hne].
        -- by rewrite bool_decide_eq_true_2, andb_true_r.
        -- rewrite bool_decide_eq_false_2, andb_false_r by done.
           apply (Hbefore t). lia.
      * intros t Ht. destruct (decide (t = start)) as [->|Hne].
        -- by rewrite bool_decide_eq_true_2, andb_true_r.
        -- rewrite bool_decide_eq_false_2, andb_false_r by done.
           apply (IH t). lia.
Qed.

(** With fuel for the positions still ahead, the loop of [findall] reports
    all the matches. *)
Lemma findall_loop_all_matches (p : re.pattern) (s : str) :
  wf_pattern p →
  ∀ fuel pos (must_advance : bool),
    2 * (length s + 1 - pos) ≤ fuel + (if must_advance then 1 else 0) →
    all_matches p s pos must_advance (re.findall_loop p s fuel pos must_advance).
Proof.
  intros Hwf. induction fuel as [|fuel IH]; intros pos must_advance Hfuel; simpl.
  - apply no_match. intros t Ht. destruct must_advance; lia.
  - case_decide as Hpos; [apply no_match; intros; lia|].
    pose proof (search_spec p s (length s - pos) pos must_advance) as Hsearch.
    destruct (re.search p s pos must_advance (length s - pos)) as [[[found e] item]|].
    + destruct Hsearch as (Hrange & Hmatch & Hbefore).
      assert (found ≤ length s) as Hfound by lia.
      destruct (Hwf _ _ _ _ _ Hfound Hmatch) as (Hle & Hlen & Hadv).
      apply next_match with found e; [lia|done|done|].
      apply IH. destruct (decide (e = found)) as [->|Hne];
        [rewrite bool_decide_eq_true_2 by done
        |rewrite bool_decide_eq_false_2 by done; destruct must_advance; lia].
      destruct must_advance; [|lia].
      destruct (decide (found = pos)) as [->|Hne]; [|lia].
      rewrite bool_decide_eq_true_2 in Hadv by done. simpl in Hadv.
      specialize (Hadv eq_refl). lia.
    + apply no_match. intros t Ht. apply Hsearch. lia.
Qed.

Lemma findall_all_matches (p : re.pattern) (s : str) :
  wf_pattern p → all_matches p s 0 false (re.findall p s).
Proof. intros Hwf. apply findall_loop_all_matches; [done|]. lia. Qed.

Lemma rmatch_bounds (r : re.regex) (s : str) :
  ∀ pos e g, pos ≤ length s → re.rmatch r s pos = Some (e, g) → pos ≤ e ∧ e ≤ length s.
Proof.
  induction r as [|c|ranges|r1 IH1 r2 IH2|r IH n| |r IH]; intros pos e g Hpos; simpl.
  - intros [= <- _]. lia.
  - destruct (s !! pos) as [x|] eqn:E; [|done].
    apply lookup_lt_Some in E. case_decide; [|done]. intros [= <- _]. lia.
  - destruct (s !! pos) as [x|] eqn:E; [|done].
    apply lookup_lt_Some in E. destruct (re.in_ranges ranges x); [|done].
    intros [= <- _]. lia.
  - destruct (re.rmatch r1 s pos) as [[e1 g1]|] eqn:E1; [|done].
    destruct (re.rmatch r2 s e1) as [[e2 g2]|] eqn:E2; [|done].
    intros [= <- _].
    destruct (IH1 _ _ _ Hpos E1) as [? ?]. destruct (IH2 e1 e2 g2) as [? ?]; [lia|done|lia].
  - generalize (@None (nat * nat)). revert pos Hpos.
    induction n as [|n IHn]; intros pos Hpos g0.
    + intros [= <- _]. lia.
    + destruct (re.rmatch r s pos) as [[e1 g1]|] eqn:E1; [|done].
      destruct (IH _ _ _ Hpos E1) as [? ?].
      intros Hrep. apply IHn in Hrep; lia.
  - destruct (re.at_boundary s pos); [|done]. intros [= <- _]. lia.
  - destruct (re.rmatch r s pos) as [[e1 g1]|] eqn:E1; [|done].
    intros [= <- _]. by apply (IH _ _ g1).
Qed.

(** A pattern compiled from the syntax of [re.regex] is well formed. *)
Lemma compiled_wf (r : re.regex) : wf_pattern (re.compiled r).
Proof.
  intros s pos must_advance e item Hpos. unfold re.compiled; simpl.
  destruct (re.rmatch r s pos) as [[e' g]|] eqn:E; [|done].
  destruct (rmatch_bounds _ _ _ _ _ Hpos E) as [? ?].
  destruct must_advance; simpl.
  - case_bool_decide; [done|]. intros [= <- _]. repeat split; first [lia|intros; lia].
  - intros [= <- _]. repeat split; first [lia|done].
Qed.

Lemma or_else_str (s : str) : or_else (Some (YStr s)) (YStr []) = YStr s.
Proof. unfold or_else, truthy. destruct s; done. Qed.

(** Case analysis on the comparisons of exponents and mantissas. *)
Ltac compare_cases :=
  repeat match goal with
  | |- context [Z.compare ?a ?b] => destruct (Z.compare_spec a b)
  | |- context [Pos.compare_cont Eq ?a ?b] =>
      change (Pos.compare_cont Eq a b) with (Pos.compare a b);
      destruct (Pos.compare_spec a b)
  end; simpl; try tauto; try (intros; discriminate); try (intros; lia); auto.

(** Evaluate the lookup of the key [k] in the merged configuration. *)
Ltac lookup_key k v :=
  match goal with
  | |- context [?m !! T k] =>
      replace (m !! T k) with (Some v) by (vm_compute; reflexivity)
  end.

Ltac lookup_defaults_but k :=
  try (assert_fails (unify k "pan_regex"%string);
       lookup_key "pan_regex"%string (YStr DEFAULT_pan_regex));
  try (assert_fails (unify k "gst_regex"%string);
       lookup_key "gst_regex"%string (YStr DEFAULT_gst_regex));
  try (assert_fails (unify k "coi_keywords"%string);
       lookup_key "coi_keywords"%string
         (YList [YStr (T "certificate of incorporation");
                 YStr (T "incorporation certificate")]));
  try (assert_fails (unify k "ratecard_keywords"%string);
       lookup_key "ratecard_keywords"%string
         (YList [YStr (T "rate card"); YStr (T "rate-card"); YStr (T "price list")]));
  try (assert_fails (unify k "similarity_threshold"%string);
       lookup_key "similarity_threshold"%string (YFloat 0.75)).

(** ** The extra documents *)

Lemma documents_loop_cons backend self idx doc_path documents names summary :
  documents_loop backend self idx (doc_path :: documents) names summary =
  documents_loop backend self (S idx) documents names
    (<[doc_name names idx := summary_of backend self doc_path]> summary).
Proof.
  simpl. unfold summary_of, doc_name.
  by destruct (_search_pan_gst self _) as [pan_d gst_d].
Qed.

(** A name no document of the loop bears keeps its entry. *)
Lemma documents_loop_keep backend self names n documents :
  ∀ idx summary,
    (∀ j, j < length documents → doc_name names (idx + j) ≠ n) →
    documents_loop backend self idx documents names summary !! n = summary !! n.
Proof.
  induction documents as [|d ds IH]; intros idx summary Hother; [done|].
  rewrite documents_loop_cons, IH.
  - apply lookup_insert_ne. specialize (Hother 0). rewrite Nat.add_0_r in Hother.
    apply Hother. simpl. lia.
  - intros j Hj. replace (S idx + j) with (idx + S j) by lia. apply Hother. simpl. lia.
Qed.

(** The entry of a name is the summary of the last document that bears it. *)
Lemma documents_loop_last backend self names documents :
  ∀ idx summary i doc_path,
    documents !! i = Some doc_path →
    (∀ j, i < j < length documents → doc_name names (idx + j) ≠ doc_name names (idx + i)) →
    documents_loop backend self idx documents names summary !! doc_name names (idx + i)
    = Some (summary_of backend self doc_path).
Proof.
  induction documents as [|d ds IH]; intros idx summary i doc_path Hi Hlater; [done|].
  rewrite documents_loop_cons. destruct i as [|i]; simpl in Hi.
  - injection Hi as ->. rewrite Nat.add_0_r in *. rewrite documents_loop_keep.
    + apply lookup_insert_eq.
    + intros j Hj. replace (S idx + j) with (idx + S j) by lia. apply Hlater. simpl. lia.
  - replace (idx + S i) with (S idx + i) by lia. apply IH; [done|].
    intros j Hj. replace (S idx + j) with (idx + S j) by lia.
    replace (S idx + i) with (idx + S i) by lia. apply Hlater. simpl. lia.
Qed.

Lemma documents_loop_dom backend self names documents :
  ∀ idx summary n,
    is_Some (documents_loop backend self idx documents names summary !! n) ↔
    is_Some (summary !! n) ∨ ∃ i, i < length documents ∧ doc_name names (idx + i) = n.
Proof.
  induction documents as [|d ds IH]; intros idx summary n.
  - simpl. split; [by left|]. intros [?|(i & ? & _)]; [done|simpl in *; lia].
  - rewrite documents_loop_cons, IH, lookup_insert_is_Some. split.
    + intros [[<-|[_ Hn]]|(i & Hi & Hname)].
      * right. exists 0. rewrite Nat.add_0_r. simpl. split; [lia|done].
      * by left.
      * right. exists (S i). replace (idx + S i) with (S idx + i) by lia.
        simpl. split; [lia|done].
    + intros [Hn|(i & Hi & Hname)].
      * left. destruct (decide (doc_name names idx = n)); [by left|by right].
      * destruct i as [|i].
        -- left. left. by rewrite Nat.add_0_r in Hname.
        -- right. exists i. replace (S idx + i) with (idx + S i) by lia.
           simpl in Hi. split; [lia|done].
Qed.

Lemma documents_loop_size backend self names documents :
  ∀ idx summary,
    size (documents_loop backend self idx documents names summary)
    ≤ size summary + length documents.
Proof.
  induction documents as [|d ds IH]; intros idx summary; [simpl; lia|].
  rewrite documents_loop_cons. etrans; [apply IH|].
  rewrite map_size_insert.
      destruct (summary !! doc_name names idx); simpl; unfold id; lia.
Qed.

(** A document whose name is already a key adds no entry. *)
Lemma documents_loop_size_present backend self names documents :
  ∀ idx summary j,
    j < length documents → is_Some (summary !! doc_name names (idx + j)) →
    size (documents_loop backend self idx documents names summary)
    < size summary + length documents.
Proof.
  induction documents as [|d ds IH]; intros idx summary j Hj Hkey; [simpl in Hj; lia|].
  rewrite documents_loop_cons. destruct j as [|j].
  - rewrite Nat.add_0_r in Hkey. destruct Hkey as [x Hx].
    eapply Nat.le_lt_trans; [apply documents_loop_size|].
    rewrite map_size_insert, Hx. simpl. unfold id. lia.
  - eapply Nat.lt_le_trans.
    + apply (IH (S idx) _ j); [simpl in Hj; lia|].
      replace (S idx + j) with (idx + S j) by lia.
      apply lookup_insert_is_Some'. by right.
    + rewrite map_size_insert.
      destruct (summary !! doc_name names idx); simpl; unfold id; lia.
Qed.

(** Two documents with one name make the summary shorter than the list. *)
Lemma documents_loop_size_shared backend self names documents :
  ∀ idx summary i j,
    i < j < length documents →
    doc_name names (idx + i) = doc_name names (idx + j) →
    size (documents_loop backend self idx documents names summary)
    < size summary + length documents.
Proof.
  induction documents as [|d ds IH]; intros idx summary i j Hij Hname;
    [simpl in Hij; lia|].
  rewrite documents_loop_cons. destruct j as [|j]; [lia|]. destruct i as [|i].
  - rewrite Nat.add_0_r in Hname. eapply Nat.lt_le_trans.
    + apply (documents_loop_size_present _ _ _ _ (S idx) _ j); [simpl in Hij; lia|].
      replace (S idx + j) with (idx + S j) by lia. rewrite <- Hname.
      rewrite lookup_insert_eq. done.
    + rewrite map_size_insert.
      destruct (summary !! doc_name names idx); simpl; unfold id; lia.
  - eapply Nat.lt_le_trans.
    + apply (IH (S idx) _ i j); [simpl in Hij; lia|].
      by replace (S idx + i) with (idx + S i) by lia;
         replace (S idx + j) with (idx + S j) by lia.
    + rewrite map_size_insert.
      destruct (summary !! doc_name names idx); simpl; unfold id; lia.
Qed.

Lemma validate_documents backend self main_pdf client_pdf docs names :
  documents (validate backend self main_pdf client_pdf docs names)
  = documents_loop backend self 0 docs names ∅.
Proof.
  unfold validate.
  destruct (_search_pan_gst self _) as [pan_main gst_main].
  by destruct (_search_pan_gst self _) as [pan_client gst_client].
Qed.

(** ** The report, field by field *)

Lemma validate_fields backend self main_pdf client_pdf docs names :
  let main_text := blank_to_empty (extract_text_and_images backend main_pdf) in
  let client_text := blank_to_empty (extract_text_and_images backend client_pdf) in
  validate backend self main_pdf client_pdf docs names =
  mkReport
    ((_search_pan_gst self main_text).1, (_search_pan_gst self client_text).1)
    ((_search_pan_gst self main_text).2, (_search_pan_gst self client_text).2)
    (_keyword_check main_text (coi_keywords self),
     _keyword_check client_text (coi_keywords self))
    (_keyword_check main_text (ratecard_keywords self),
     _keyword_check client_text (ratecard_keywords self))
    (simple_diff main_text client_text)
    (similarity_samples (take 200 (stripped_lines main_text))
                        (take 200 (stripped_lines client_text)))
    (documents_loop backend self 0 docs names ∅).
Proof.
  simpl. unfold validate.
  destruct (_search_pan_gst self _) as [pan_main gst_main].
  by destruct (_search_pan_gst self _) as [pan_client gst_client].
Qed.

Lemma blank_to_empty_blank (text : str) : strip text = [] → blank_to_empty text = [].
Proof. intros Hblank. unfold blank_to_empty. rewrite decide_False; [done|]. tauto. Qed.

(** In the empty text the only keyword found is the empty one. *)
Lemma keyword_check_empty (keywords : list str) :
  _keyword_check [] keywords = filter (λ k, k = []) keywords.
Proof.
  unfold _keyword_check. apply list_filter_iff. intros k. by destruct k.
Qed.

Lemma similarity_samples_no_client (main_lines : list str) :
  Forall (λ s, best_match s = None ∧ score s = 0%Q) (similarity_samples main_lines []).
Proof.
  unfold similarity_samples. apply Forall_forall. intros s Hs.
  by apply list_elem_of_fmap in Hs as (m & -> & _).
Qed.

(** ** Occurrences *)

Lemma startswith_prefix (k : str) : ∀ t, startswith t k = true → ∃ post, t = k ++ post.
Proof.
  induction k as [|x k IH]; intros t Hstart; [by exists t|].
  destruct t as [|y t]; [done|]. simpl in Hstart.
  destruct (decide (x = y)) as [->|]; [|done].
  destruct (IH t Hstart) as [post ->]. by exists post.
Qed.

(** [k in t] holds exactly when [k] occurs in [t]. *)
Lemma contains_occurs (t k : str) :
  contains t k = true ↔ ∃ pre post, t = pre ++ k ++ post.
Proof.
  split; [|intros (pre & post & ->); apply contains_app].
  induction t as [|c t IH]; intros Hin.
  - destruct k; [by exists [], []|done].
  - change (startswith (c :: t) k || contains t k = true) in Hin.
    apply orb_true_iff in Hin as [Hin|Hin].
    + apply startswith_prefix in Hin as [post ->]. by exists [], post.
    + destruct (IH Hin) as (pre & post & ->). by exists (c :: pre), post.
Qed.

Lemma length_lower (s : str) : length (lower s) = length s.
Proof. apply length_map. Qed.

(** What occurs in a lower-cased text is in lower case. *)
Lemma occurs_in_lower (text pre k post : str) : lower text = pre ++ k ++ post → lower k = k.
Proof.
  intros Heq. pose proof (lower_idem text) as Hidem.
  rewrite Heq, !lower_app in Hidem.
  apply app_inj_1 in Hidem as [_ Hidem]; [|apply length_lower].
  apply app_inj_1 in Hidem as [Hk _]; [done|apply length_lower].
Qed.

Lemma for_each_strs (ks : list str) :
  for_each (λ k, match k with
                 | YStr s => Ok (lower s)
                 | _ => Raise AttributeError
                 end) (map YStr ks) = Ok (map lower ks).
Proof. induction ks as [|k ks IH]; simpl; [done|]. by rewrite IH. Qed.

Lemma filter_map_lower (P : str → bool) (ks : list str) :
  filter (λ k, P k) (map lower ks) = map lower (filter (λ k, P (lower k)) ks).
Proof.
  induction ks as [|k ks IH]; [done|]. simpl. rewrite !filter_cons, IH.
  by destruct (P (lower k)).
Qed.

(** The keyword lists of a validator are the configured ones in lower case. *)
Lemma init_keywords_configured (re_compile : str → result re.pattern)
    (float_of_str : str → option Q) (config : gmap str yaml) (self : validator) :
  __init__ re_compile float_of_str (Some config) = Ok self →
  (∀ ks, config !! T "coi_keywords" = Some (YList (map YStr ks)) →
     coi_keywords self = map lower ks) ∧
  (∀ ks, config !! T "ratecard_keywords" = Some (YList (map YStr ks)) →
     ratecard_keywords self = map lower ks).
Proof.
  unfold __init__. intros H.
  apply bind_Ok in H as (pan & _ & H). apply bind_Ok in H as (gst & _ & H).
  apply bind_Ok in H as (coi & Hcoi & H). apply bind_Ok in H as (rate & Hrate & H).
  apply bind_Ok in H as (threshold & _ & [= <-]). simpl.
  split; intros ks Hks.
  - rewrite (lookup_union_Some_l _ _ _ _ Hks) in Hcoi. simpl in Hcoi.
    rewrite for_each_strs in Hcoi. by injection Hcoi as <-.
  - rewrite (lookup_union_Some_l _ _ _ _ Hks) in Hrate. simpl in Hrate.
    rewrite for_each_strs in Hrate. by injection Hrate as <-.
Qed.

(** ** The greedy matcher, for any scorer *)

Section matcher_spec.
Context {F : Type} (similarity : str → str → F) (gt : F → F → bool) (zero : F).
Context (valid : F → Prop) (Horder : weak_order valid gt).

Lemma gt_irrefl (x : F) : gt x x = false.
Proof.
  destruct (gt x x) eqn:E; [|done].
  destruct Horder as [Hasym _ _]. by rewrite (Hasym x x E) in E.
Qed.

Lemma best_loop_with_spec (m : str) (cs : list str) :
  ∀ best line r l, valid best →
    best_loop_with similarity gt m cs best line = (r, l) →
    valid r ∧ gt best r = false ∧
    (∀ c, c ∈ cs → gt (similarity m c) r = false) ∧
    ((r, l) = (best, line) ∨
     ∃ k c, cs !! k = Some c ∧ l = Some c ∧ r = similarity m c ∧ gt r best = true ∧
            ∀ k' c', k' < k → cs !! k' = Some c' → valid (similarity m c') →
              gt r (similarity m c') = true).
Proof.
  pose proof gt_irrefl as Hirrefl. destruct Horder as [Hasym Hcotrans Hnumber].
  induction cs as [|c cs IH]; intros best line r l Hbest Hloop; simpl in Hloop.
  - injection Hloop as <- <-. split; [done|]. split; [by apply Hirrefl|].
    split; [|by left]. intros c Hc. by apply elem_of_nil in Hc.
  - destruct (gt (similarity m c) best) eqn:Hgt.
    + assert (valid (similarity m c)) as Hc by (by eapply Hnumber).
      destruct (IH _ _ _ _ Hc Hloop) as (Hr & Hge & Hall & Hlast).
      split; [done|]. split; [|split].
      * destruct (Hcotrans _ r _ Hr Hgt) as [H|H]; [congruence|by apply Hasym].
      * intros c0 Hc0. apply elem_of_cons in Hc0 as [->|Hc0]; [done|by apply Hall].
      * right. destruct Hlast as [Hsame|(k & c0 & Hk & Hline & Hval & Hgt' & Hfirst)].
        -- injection Hsame as -> ->. exists 0, c.
           split; [done|]. split; [done|]. split; [done|]. split; [done|]. intros; lia.
        -- exists (S k), c0. split; [done|]. split; [done|]. split; [done|]. split.
           ++ destruct (Hcotrans _ best _ Hbest Hgt') as [H|H]; [done|].
              rewrite (Hasym _ _ Hgt) in H. done.
           ++ intros [|k'] c' Hk' Hc' Hnum; simpl in Hc'.
              ** by injection Hc' as <-.
              ** apply (Hfirst k'); [lia|done|done].
    + destruct (IH _ _ _ _ Hbest Hloop) as (Hr & Hge & Hall & Hlast).
      split; [done|]. split; [done|]. split.
      * intros c0 Hc0. apply elem_of_cons in Hc0 as [->|Hc0]; [|by apply Hall].
        destruct (gt (similarity m c) r) eqn:E; [|done].
        destruct (Hcotrans _ best _ Hbest E) as [H|H]; congruence.
      * destruct Hlast as [Hsame|(k & c0 & Hk & Hline & Hval & Hgt' & Hfirst)]; [by left|].
        right. exists (S k), c0. split; [done|]. split; [done|]. split; [done|].
        split; [done|].
        intros [|k'] c' Hk' Hc' Hnum; simpl in Hc'.
        -- injection Hc' as <-.
           destruct (Hcotrans _ (similarity m c) _ Hnum Hgt') as [H|H]; [done|congruence].
        -- apply (Hfirst k'); [lia|done|done].
Qed.

Lemma samples_with_main (main_lines client_lines : list str) :
  map s_main (samples_with similarity gt zero main_lines client_lines) = take 20 main_lines.
Proof.
  unfold samples_with. induction (take 20 main_lines) as [|m l IH]; simpl; [done|].
  destruct (best_loop_with similarity gt m (take 40 client_lines) zero None). simpl.
  by rewrite IH.
Qed.

Lemma samples_with_best (main_lines client_lines : list str) :
  valid zero →
  Forall (λ s, best_of_with similarity gt zero valid (s_main s) (take 40 client_lines) s)
    (samples_with similarity gt zero main_lines client_lines).
Proof.
  intros Hzero. unfold samples_with. apply Forall_forall. intros s Hs.
  apply list_elem_of_fmap in Hs as (m & -> & Hm).
  destruct (best_loop_with similarity gt m (take 40 client_lines) zero None)
    as [best line] eqn:Hloop.
  destruct (best_loop_with_spec m (take 40 client_lines) _ _ _ _ Hzero Hloop)
    as (Hnum & Hge & Hall & Hlast).
  unfold best_of_with; simpl. split; [done|]. split; [done|]. split; [done|].
  destruct Hlast as [Hsame|(k & c & Hk & -> & Hval & Hgt & Hfirst)].
  - by injection Hsame as -> ->.
  - by exists k.
Qed.

End matcher_spec.

(** The comparison of doubles orders the doubles that are not NaN. *)
Lemma double_weak_order : weak_order (λ x, x ≠ S754_nan) double.gt.
Proof.
  split.
  - intros x y. unfold double.gt, SFltb, SFcompare.
    destruct x as [[]|[]| |[] m1 e1], y as [[]|[]| |[] m2 e2];
      simpl; try discriminate; try reflexivity; compare_cases.
  - intros x y z Hy. unfold double.gt, SFltb, SFcompare.
    destruct x as [[]|[]| |[] m1 e1], y as [[]|[]| |[] m2 e2], z as [[]|[]| |[] m3 e3];
      simpl; try discriminate; try congruence; auto; compare_cases.
  - intros x y. unfold double.gt, SFltb, SFcompare.
    destruct y as [[]|[]| |[] m2 e2], x as [[]|[]| |[] m1 e1]; simpl; by intros.
Qed.

(** The loop of [validate] is the loop on the exact scores. *)
Lemma similarity_samples_exact (main_lines client_lines : list str) :
  map (λ s, mkScored (main s) (best_match s) (score s))
    (similarity_samples main_lines client_lines)
  = samples_with clause_similarity (λ x y, if Qlt_le_dec y x then true else false) 0%Q
      main_lines client_lines.
Proof.
  unfold similarity_samples, samples_with. rewrite map_map. apply map_ext. intros m.
  assert (∀ cs best line,
    best_loop m cs best line =
    best_loop_with clause_similarity (λ x y, if Qlt_le_dec y x then true else false)
      m cs best line) as Hloop.
  { induction cs as [|c cs IH]; intros best line; simpl; [done|].
    destruct (Qlt_le_dec best (clause_similarity m c)); apply IH. }
  rewrite <- Hloop. by destruct (best_loop m (take 40 client_lines) 0 None).
Qed.

(** * The claims *)

(** ** C1: symmetry of the scorer *)

(** C1, as stated, fails: the scorer is not symmetric. The character ratio
    of ["tide"] against ["diet"] is 0.25 and that of ["diet"] against
    ["tide"] is 0.5, so the scores are 0.1 and 0.2. *)
Lemma C1_score_not_symmetric :
  (fuzzy_ratio (T "tide") (T "diet") == 0.1)%Q ∧
  (fuzzy_ratio (T "diet") (T "tide") == 0.2)%Q ∧
  ¬ (fuzzy_ratio (T "tide") (T "diet") == fuzzy_ratio (T "diet") (T "tide"))%Q.
Proof. vm_compute. repeat split; congruence. Qed.

(** C1, amended: for every pair of strings [a] and [b] whose character
    ratio is the same in both argument orders, [score(a, b)] equals
    [score(b, a)]: the empty-argument cases and the token overlap are
    symmetric, the character ratio of difflib is what need not be. *)
Theorem C1_score_symmetric_when_ratio_is (a b : str) :
  (difflib.ratio a b == difflib.ratio b a)%Q →
  (fuzzy_ratio a b == fuzzy_ratio b a)%Q.
Proof.
  intros Hratio.
  destruct (decide (a = [])) as [->|Ha]; destruct (decide (b = [])) as [->|Hb].
  - reflexivity.
  - rewrite !fuzzy_ratio_one_empty by tauto. reflexivity.
  - rewrite !fuzzy_ratio_one_empty by tauto. reflexivity.
  - destruct (decide (token_set a = ∅ ∨ token_set b = ∅)) as [Htok|Htok].
    + rewrite !fuzzy_ratio_no_tokens by tauto. reflexivity.
    + rewrite !fuzzy_ratio_blend by tauto.
      rewrite (tokenJaccard_sym a b). unfold sequenceRatio. rewrite Hratio. reflexivity.
Qed.

(** An instance: ["ab"] and ["ba"] have the same ratio in both orders. *)
Lemma C1_score_symmetric_when_ratio_is_witness :
  (difflib.ratio (T "ab") (T "ba") == difflib.ratio (T "ba") (T "ab"))%Q ∧
  (fuzzy_ratio (T "ab") (T "ba") == fuzzy_ratio (T "ba") (T "ab"))%Q.
Proof.
  assert (difflib.ratio (T "ab") (T "ba") == difflib.ratio (T "ba") (T "ab"))%Q as H
    by (vm_compute; reflexivity).
  split; [exact H|]. exact (C1_score_symmetric_when_ratio_is (T "ab") (T "ba") H).
Defined.

(** ** C2: the contract of the scorer *)

(** C2, as stated, fails on two strings of blanks: both are non-empty, so the
    specification blends 0.6 * 0.0 with 0.4 * 1.0, but neither has a token
    and the code returns 0.0. *)
Lemma C2_blank_strings_score_zero :
  (fuzzy_ratio (T " ") (T " ") == 0)%Q ∧
  (score_spec (T " ") (T " ") == 0.4)%Q ∧
  ¬ (fuzzy_ratio (T " ") (T " ") == score_spec (T " ") (T " "))%Q.
Proof. vm_compute. repeat split; congruence. Qed.

(** C2, amended: [score("", "") = 1.0]; if exactly one argument is empty the
    score is 0.0; if both are non-empty and the token set of either is empty
    the score is 0.0; if both are non-empty and both token sets are
    non-empty the score is [0.6 * tokenJaccard(a, b) + 0.4 *
    sequenceRatio(a, b)]; and for every [a] and [b] the result lies in
    [0.0, 1.0]. *)
Theorem C2_score_contract (a b : str) :
  (fuzzy_ratio [] [] == 1)%Q ∧
  ((a = [] ∧ b ≠ []) ∨ (a ≠ [] ∧ b = []) → (fuzzy_ratio a b == 0)%Q) ∧
  (a ≠ [] → b ≠ [] → token_set a = ∅ ∨ token_set b = ∅ → (fuzzy_ratio a b == 0)%Q) ∧
  (a ≠ [] → b ≠ [] → token_set a ≠ ∅ → token_set b ≠ ∅ →
   (fuzzy_ratio a b == 0.6 * tokenJaccard a b + 0.4 * sequenceRatio a b)%Q) ∧
  (0 <= fuzzy_ratio a b <= 1)%Q.
Proof.
  split; [apply fuzzy_ratio_both_empty|].
  split; [apply fuzzy_ratio_one_empty|].
  split; [apply fuzzy_ratio_no_tokens|].
  split; [apply fuzzy_ratio_blend|apply fuzzy_ratio_range].
Qed.

(** ** C3: reading the diff back *)

(** C3, as stated, fails: the only opcode between ["a"] and ["b"] is a
    [replace], the diff result is empty, and reading it back over ["a"]
    gives ["a"]. *)
Lemma C3_replace_is_lost :
  difflib.get_opcodes (T "a") (T "b") = [difflib.mkOp difflib.Replace 0 1 0 1] ∧
  simple_diff (T "a") (T "b") = mkDiff [] [] ∧
  reconstruct (T "a") (T "b") = T "a" ∧
  reconstruct (T "a") (T "b") ≠ T "b".
Proof. vm_compute. repeat split; congruence. Qed.

(** C3, amended: for every pair of strings [a] and [b] whose opcode sequence
    holds no [replace] opcode, applying the diff result of [diff(a, b)] back
    to [a], inserting each span of [added] and removing each span of
    [removed] at the positions and in the order the opcode sequence emits
    them, reconstructs [b] exactly. *)
Theorem C3_round_trip_without_replace (a b : str) :
  Forall (λ op, difflib.op_tag op ≠ difflib.Replace) (difflib.get_opcodes a b) →
  reconstruct a b = b.
Proof.
  intros Hnorep.
  pose proof (apply_diff_chain a b (difflib.get_matching_blocks a b) 0 0) as Hchain.
  rewrite !drop_0 in Hchain. apply Hchain.
  - apply get_matching_blocks_chain.
  - unfold difflib.get_matching_blocks. rewrite end_cursor_sentinel. simpl.
    by rewrite !Nat.add_0_r.
  - by apply Forall_forall.
Qed.

(** An instance: ["tide"] to ["diet"] is an insert, an equal and a delete. *)
Lemma C3_round_trip_without_replace_witness :
  Forall (λ op, difflib.op_tag op ≠ difflib.Replace)
    (difflib.get_opcodes (T "tide") (T "diet")) ∧
  reconstruct (T "tide") (T "diet") = T "diet".
Proof.
  assert (Forall (λ op, difflib.op_tag op ≠ difflib.Replace)
            (difflib.get_opcodes (T "tide") (T "diet"))) as H.
  { apply (bool_decide_unpack _). vm_compute. exact I. }
  split; [exact H|]. exact (C3_round_trip_without_replace (T "tide") (T "diet") H).
Defined.

(** ** C5: the greedy matcher *)

(** C5, as stated, fails when no client line scores above 0.0: ["xyz"] is
    the first (and only) client line and attains the maximum similarity to
    ["abc"], which is 0.0, on the exact scores as on the doubles, yet no
    best match is recorded. *)
Lemma C5_no_best_match_at_zero :
  clause_similarity_samples
    (validate (pdf_files [(T "main.pdf", [Some (T "abc")]); (T "client.pdf", [Some (T "xyz")])])
       default_validator (T "main.pdf") (T "client.pdf") [] [])
  = [mkSample (T "abc") None 0] ∧
  (clause_similarity (T "abc") (T "xyz") == 0)%Q ∧
  similarity_samples_double [T "abc"] [T "xyz"] = [mkScored (T "abc") None double.zero] ∧
  clause_similarity_double (T "abc") (T "xyz") = double.zero.
Proof. vm_compute. repeat split; reflexivity. Qed.

(** C5, amended, on the scores as the program computes them, in doubles and
    compared as doubles: for every pair of extracted main and client texts,
    the matcher produces one sample per line of the first 20 non-empty,
    whitespace-trimmed main lines, the lines [validate] itself samples,
    blank lines being dropped before the truncation to 20 and 40; the
    sample's score is a number that is not below 0.0 and that none of the
    first 40 non-empty trimmed client lines scores above; the recorded best
    match is the first client line with that score, every client line
    before it scoring below it (a score that is NaN apart), and the score is
    then above 0.0; and the best match is absent, with score 0.0, when no
    client line scores above 0.0. *)
Theorem C5_greedy_matcher (backend : pdf_backend) (self : validator)
    (main_pdf client_pdf : str) (documents document_names : list str) :
  let main_text := blank_to_empty (extract_text_and_images backend main_pdf) in
  let client_text := blank_to_empty (extract_text_and_images backend client_pdf) in
  let main_lines := filter (λ l, l ≠ []) (map strip (splitlines main_text)) in
  let client_lines := filter (λ l, l ≠ []) (map strip (splitlines client_text)) in
  let samples := similarity_samples_double (take 200 main_lines) (take 200 client_lines) in
  map s_main samples = take 20 main_lines ∧
  map s_main samples
  = map main (clause_similarity_samples
                (validate backend self main_pdf client_pdf documents document_names)) ∧
  Forall (λ s, best_of_with clause_similarity_double double.gt double.zero
                 (λ x, x ≠ S754_nan) (s_main s) (take 40 client_lines) s) samples.
Proof.
  simpl. unfold similarity_samples_double.
  rewrite samples_with_main, take_take. split; [done|]. split.
  - rewrite validate_fields. simpl. by rewrite similarity_samples_main, take_take.
  - pose proof (samples_with_best clause_similarity_double double.gt double.zero
                  (λ x, x ≠ S754_nan) double_weak_order
                  (take 200 (stripped_lines
                     (blank_to_empty (extract_text_and_images backend main_pdf))))
                  (take 200 (stripped_lines
                     (blank_to_empty (extract_text_and_images backend client_pdf)))))
      as Hbest.
    rewrite !take_take in Hbest. by apply Hbest.
Qed.

(** Where rounding decides: the main line "a b" against the client lines
    "bbb a" and "aa ab", which both score 3/10 exactly, and 0.3 and
    0.30000000000000004 in doubles: the program records "aa ab", the loop
    on the exact scores "bbb a". *)
Lemma matcher_tie_in_doubles :
  similarity_samples_double [T "a b"] [T "bbb a"; T "aa ab"]
  = [mkScored (T "a b") (Some (T "aa ab")) (S754_finite false 5404319552844596 (-54))] ∧
  clause_similarity_double (T "a b") (T "bbb a") = S754_finite false 5404319552844595 (-54) ∧
  (clause_similarity (T "a b") (T "bbb a") == clause_similarity (T "a b") (T "aa ab"))%Q ∧
  map best_match (similarity_samples [T "a b"] [T "bbb a"; T "aa ab"]) = [Some (T "bbb a")].
Proof. vm_compute. repeat split; reflexivity. Qed.

(** ** C6: no field of the report is null *)



(** ** C7: the keyword check *)

(** C7, as stated, fails for a keyword written with a capital letter: its
    lowercase form occurs in the lower-cased text, so the specification
    returns it, but the code looks for the keyword as it is written, which
    occurs in no lower-cased text. *)
Lemma C7_capital_keyword_not_found :
  _keyword_check (T "Rate Card") [T "Rate Card"] = [] ∧
  findKeywords (T "Rate Card") [T "Rate Card"] = [T "Rate Card"].
Proof. vm_compute. split; reflexivity. Qed.

(** C7, amended: for every text and keyword list, the keyword check returns
    exactly the keywords that the specification returns and that are written
    in lower case, in the order of the list: all of them when the list is in
    lower case, as the keyword lists of every validator are. These are the
    configured keywords in lower case, so for a validator the check returns
    the lowercase forms of exactly the configured keywords whose lowercase
    form occurs in the lower-cased text. [findKeywords(text, ["rate card"])]
    is [["rate card"]] whenever the text contains "Rate Card" in any case,
    and [[]] when the lower-cased text contains neither "rate card" nor
    "rate-card". *)
Theorem C7_keyword_check (text : str) (keywords : list str) :
  _keyword_check text keywords = filter (λ k, lower k = k) (findKeywords text keywords) ∧
  (Forall (λ k, lower k = k) keywords →
   _keyword_check text keywords = findKeywords text keywords) ∧
  (∀ re_compile float_of_str loaded self,
     __init__ re_compile float_of_str loaded = Ok self →
     _keyword_check text (coi_keywords self) = findKeywords text (coi_keywords self) ∧
     _keyword_check text (ratecard_keywords self)
     = findKeywords text (ratecard_keywords self)) ∧
  (∀ re_compile float_of_str config self ks,
     __init__ re_compile float_of_str (Some config) = Ok self →
     (config !! T "coi_keywords" = Some (YList (map YStr ks)) →
        _keyword_check text (coi_keywords self) = map lower (findKeywords text ks)) ∧
     (config !! T "ratecard_keywords" = Some (YList (map YStr ks)) →
        _keyword_check text (ratecard_keywords self) = map lower (findKeywords text ks))) ∧
  (∀ pre mid post, text = pre ++ mid ++ post → lower mid = T "rate card" →
     _keyword_check text [T "rate card"] = [T "rate card"]) ∧
  (contains (lower text) (T "rate card") = false →
   contains (lower text) (T "rate-card") = false →
   _keyword_check text [T "rate card"] = []).
Proof.
  assert (∀ l, Forall (λ k, lower k = k) l → _keyword_check text l = findKeywords text l)
    as Hagree.
  { intros l Hlower. unfold _keyword_check, findKeywords.
    induction Hlower as [|k ks Hk _ IH]; [done|].
    rewrite !filter_cons, IH, Hk. done. }
  split; [|split; [|split; [|split; [|split]]]].
  - unfold _keyword_check, findKeywords. rewrite list_filter_filter.
    apply list_filter_iff. intros k. split.
    + intros Hk. assert (lower k = k) as Hlower.
      { apply Is_true_true, contains_occurs in Hk as (pre & post & Heq).
        by eapply occurs_in_lower. }
      by rewrite Hlower.
    + intros [Hlower Hk]. by rewrite Hlower in Hk.
  - apply Hagree.
  - intros re_compile float_of_str loaded self Hinit.
    destruct (init_keywords_lower _ _ _ _ Hinit) as [Hcoi Hrate].
    split; by apply Hagree.
  - intros re_compile float_of_str config self ks Hinit.
    destruct (init_keywords_configured _ _ _ _ Hinit) as [Hcoi Hrate].
    split; intros Hks.
    + rewrite (Hcoi ks Hks). unfold _keyword_check, findKeywords.
      apply (filter_map_lower (contains (lower text))).
    + rewrite (Hrate ks Hks). unfold _keyword_check, findKeywords.
      apply (filter_map_lower (contains (lower text))).
  - intros pre mid post -> Hmid. rewrite keyword_check_one.
    by rewrite !lower_app, Hmid, contains_app.
  - intros Hnone _. rewrite keyword_check_one. by rewrite Hnone.
Qed.

(** ** C8: identifier extraction *)

(** C8: for every text, identifier extraction reports, for each of the two
    compiled patterns, all the non-overlapping matches, in order of
    appearance and with duplicates; for the empty text it returns two empty
    sequences whatever the patterns are, also for a pattern that matches the
    empty string, on which the engine would report one empty match; and with
    the built-in patterns the text "ABCDE1234F is the PAN" yields
    [["ABCDE1234F"]] for PAN and [[]] for GST. *)
Theorem C8_search_pan_gst (self : validator) (text : str) :
  wf_pattern (pan_re self) → wf_pattern (gst_re self) →
  (text ≠ [] →
   all_matches (pan_re self) text 0 false (_search_pan_gst self text).1 ∧
   all_matches (gst_re self) text 0 false (_search_pan_gst self text).2) ∧
  _search_pan_gst self [] = ([], []) ∧
  re.findall (re.compiled re.Empty) [] = [[]] ∧
  _search_pan_gst default_validator (T "ABCDE1234F is the PAN") = ([T "ABCDE1234F"], []).
Proof.
  intros Hpan Hgst. repeat split.
  - unfold _search_pan_gst. rewrite decide_False by done. by apply findall_all_matches.
  - unfold _search_pan_gst. rewrite decide_False by done. by apply findall_all_matches.
Qed.

(** An instance: the built-in patterns, which are well formed, report a
    repeated identifier twice. *)
Lemma C8_search_pan_gst_witness :
  wf_pattern (pan_re default_validator) ∧ wf_pattern (gst_re default_validator) ∧
  all_matches (pan_re default_validator) (T "ABCDE1234F, ABCDE1234F") 0 false
    [T "ABCDE1234F"; T "ABCDE1234F"].
Proof.
  split; [apply compiled_wf|]. split; [apply compiled_wf|].
  exact (proj1 (proj1 (C8_search_pan_gst default_validator (T "ABCDE1234F, ABCDE1234F")
                         (compiled_wf pan_regex_ast) (compiled_wf gst_regex_ast))
                  ltac:(discriminate))).
Defined.

(** ** C4: construction *)

(** C4, on the code: with an engine that compiles the two built-in patterns,
    a configuration file that is missing or does not parse yields the
    default validator, and a configured pattern the engine rejects, with
    [re.error], is replaced by the built-in one; but construction does fail, with
    [TypeError], on a configuration whose [coi_keywords] entry is empty
    (null), and on one whose [pan_regex] is a number: the handlers only
    cover the loading of the file and [re.error]. *)
Theorem C4_init_defaults_and_failure (re_compile : str → result re.pattern)
    (float_of_str : str → option Q) :
  re_compile DEFAULT_pan_regex = Ok (re.compiled pan_regex_ast) →
  re_compile DEFAULT_gst_regex = Ok (re.compiled gst_regex_ast) →
  __init__ re_compile float_of_str None = Ok default_validator ∧
  (∀ bad, re_compile bad = Raise ReError →
     ∃ v, __init__ re_compile float_of_str (Some {[ T "pan_regex" := YStr bad ]}) = Ok v ∧
          pan_re v = re.compiled pan_regex_ast ∧ gst_re v = re.compiled gst_regex_ast) ∧
  (∀ bad, re_compile bad = Raise ReError →
     ∃ v, __init__ re_compile float_of_str (Some {[ T "gst_regex" := YStr bad ]}) = Ok v ∧
          pan_re v = re.compiled pan_regex_ast ∧ gst_re v = re.compiled gst_regex_ast) ∧
  __init__ re_compile float_of_str (Some {[ T "coi_keywords" := YNull ]}) = Raise TypeError ∧
  __init__ re_compile float_of_str (Some {[ T "pan_regex" := YInt 123 ]}) = Raise TypeError.
Proof.
  intros Hpan Hgst. split; [|split; [|split; [|split]]].
  - unfold __init__. lookup_defaults_but ""%string.
    rewrite !or_else_str. unfold compile_or_default. rewrite Hpan, Hgst. reflexivity.
  - intros bad Hbad. eexists. unfold __init__.
    lookup_key "pan_regex"%string (YStr bad). lookup_defaults_but "pan_regex"%string.
    rewrite !or_else_str. unfold compile_or_default. rewrite Hbad, Hpan, Hgst. simpl. done.
  - intros bad Hbad. eexists. unfold __init__.
    lookup_key "gst_regex"%string (YStr bad). lookup_defaults_but "gst_regex"%string.
    rewrite !or_else_str. unfold compile_or_default. rewrite Hbad, Hpan, Hgst. simpl. done.
  - unfold __init__.
    lookup_key "coi_keywords"%string YNull. lookup_defaults_but "coi_keywords"%string.
    rewrite !or_else_str. unfold compile_or_default. rewrite Hpan, Hgst. reflexivity.
  - unfold __init__.
    lookup_key "pan_regex"%string (YInt 123). reflexivity.
Qed.

(** An instance: the engine of the examples compiles the built-in patterns. *)
Lemma C4_init_defaults_and_failure_witness :
  builtin_compile DEFAULT_pan_regex = Ok (re.compiled pan_regex_ast) ∧
  builtin_compile DEFAULT_gst_regex = Ok (re.compiled gst_regex_ast) ∧
  __init__ builtin_compile no_float (Some {[ T "coi_keywords" := YNull ]}) = Raise TypeError.
Proof.
  assert (builtin_compile DEFAULT_pan_regex = Ok (re.compiled pan_regex_ast)) as Hpan
    by reflexivity.
  assert (builtin_compile DEFAULT_gst_regex = Ok (re.compiled gst_regex_ast)) as Hgst
    by reflexivity.
  split; [exact Hpan|]. split; [exact Hgst|].
  exact (proj1 (proj2 (proj2 (proj2
           (C4_init_defaults_and_failure builtin_compile no_float Hpan Hgst))))).
Defined.

(** ** C10: the extra-documents summary *)

(** C10: the extra-documents summary of the report is a mapping keyed by
    display name, the name of the document at position [idx] being the one
    supplied or else [document_{idx+1}.pdf]: its keys are the names of the
    documents supplied; the entry of a name is the summary of the last
    document bearing it, so a later document overwrites an earlier one of
    the same name; and the mapping has at most as many entries as there are
    documents, and fewer as soon as two documents share a name. *)
Theorem C10_documents_summary (backend : pdf_backend) (self : validator)
    (main_pdf client_pdf : str) (docs names : list str) :
  let summary := documents (validate backend self main_pdf client_pdf docs names) in
  (∀ idx, names !! idx = None →
     doc_name names idx = T "document_" ++ str_of_nat (idx + 1) ++ T ".pdf") ∧
  doc_name [] 0 = T "document_1.pdf" ∧
  (∀ n, is_Some (summary !! n) ↔ ∃ idx, idx < length docs ∧ doc_name names idx = n) ∧
  (∀ idx doc_path,
     docs !! idx = Some doc_path →
     (∀ later, idx < later < length docs → doc_name names later ≠ doc_name names idx) →
     summary !! doc_name names idx = Some (summary_of backend self doc_path)) ∧
  size summary ≤ length docs ∧
  (∀ i j, i < j < length docs → doc_name names i = doc_name names j →
     size summary < length docs).
Proof.
  simpl. rewrite validate_documents. repeat split.
  - intros idx Hnone. unfold doc_name. by rewrite Hnone.
  - intros Hsome. apply documents_loop_dom in Hsome as [Hsome|Hsome]; [|done].
    rewrite lookup_empty in Hsome. by destruct Hsome.
  - intros Hname. apply documents_loop_dom. by right.
  - intros idx doc_path Hdoc Hlater.
    by apply (documents_loop_last backend self names docs 0 ∅ idx doc_path).
  - etrans; [apply documents_loop_size|]. by rewrite map_size_empty.
  - intros i j Hij Hname.
    pose proof (documents_loop_size_shared backend self names docs 0 ∅ i j Hij Hname) as H.
    by rewrite map_size_empty in H.
Qed.

(** ** C9: documents of blanks *)

(** C9, as stated, fails on the keyword results: the empty string occurs in
    every text, the empty one included, so a validator configured with an
    empty keyword reports it for a main document made of blanks. *)
Lemma C9_empty_keyword_in_blank_document :
  (self ← __init__ builtin_compile no_float
            (Some {[ T "coi_keywords" := YList [YStr []] ]});
   Ok (r_coi_keywords
         (validate (pdf_files [(T "main.pdf", [Some (T "   ")]);
                               (T "client.pdf", [Some (T "x")])])
            self (T "main.pdf") (T "client.pdf") [] [])))
  = Ok ([[]], [[]]).
Proof. vm_compute. reflexivity. Qed.

(** C9, amended: for every validation call, an extracted text (main, client
    or extra document) that consists only of whitespace is replaced by the
    empty string before any scanning, diffing or matching, so such a
    document has empty identifier results and an empty text snippet, is
    diffed as the empty string, and its keyword results hold exactly the
    configured keywords that are themselves the empty string, none with the
    built-in keyword lists. *)
Theorem C9_blank_documents (backend : pdf_backend) (self : validator)
    (main_pdf client_pdf : str) (docs names : list str) :
  let main_raw := extract_text_and_images backend main_pdf in
  let client_raw := extract_text_and_images backend client_pdf in
  let r := validate backend self main_pdf client_pdf docs names in
  let blank_summary :=
    mkDocSummary [] [] (filter (λ k, k = []) (coi_keywords self))
      (filter (λ k, k = []) (ratecard_keywords self)) [] in
  (strip main_raw = [] →
     (pan r).1 = [] ∧ (gst r).1 = [] ∧
     (r_coi_keywords r).1 = filter (λ k, k = []) (coi_keywords self) ∧
     (rate_keywords r).1 = filter (λ k, k = []) (ratecard_keywords self) ∧
     diff r = simple_diff [] (blank_to_empty client_raw) ∧
     clause_similarity_samples r = []) ∧
  (strip client_raw = [] →
     (pan r).2 = [] ∧ (gst r).2 = [] ∧
     (r_coi_keywords r).2 = filter (λ k, k = []) (coi_keywords self) ∧
     (rate_keywords r).2 = filter (λ k, k = []) (ratecard_keywords self) ∧
     diff r = simple_diff (blank_to_empty main_raw) [] ∧
     Forall (λ s, best_match s = None ∧ score s = 0%Q) (clause_similarity_samples r)) ∧
  (∀ idx doc_path,
     docs !! idx = Some doc_path →
     (∀ later, idx < later < length docs → doc_name names later ≠ doc_name names idx) →
     strip (extract_text_and_images backend doc_path) = [] →
     documents r !! doc_name names idx = Some blank_summary) ∧
  filter (λ k, k = []) (coi_keywords default_validator) = [] ∧
  filter (λ k, k = []) (ratecard_keywords default_validator) = [].
Proof.
  simpl. rewrite validate_fields. simpl.
  split; [|split; [|split; [|done]]].
  - intros Hblank. rewrite (blank_to_empty_blank _ Hblank), !keyword_check_empty. done.
  - intros Hblank. rewrite (blank_to_empty_blank _ Hblank), !keyword_check_empty.
    repeat split. apply similarity_samples_no_client.
  - intros idx doc_path Hdoc Hlater Hblank.
    rewrite (documents_loop_last backend self names docs 0 ∅ idx doc_path Hdoc Hlater).
    unfold summary_of. rewrite (blank_to_empty_blank _ Hblank), !keyword_check_empty. done.
Qed.

(** * Further properties *)

(** ** simple_diff at the edges *)

(** When the first search finds nothing, the sentinel is the only block. *)
Lemma get_matching_blocks_no_match (a b : str) :
  difflib.m_size
    (difflib.find_longest_match a b (difflib.chain_b b) 0 (length a) 0 (length b)) = 0 →
  difflib.get_matching_blocks a b = [difflib.mkMatch (length a) (length b) 0].
Proof.
  intros Hsize. unfold difflib.get_matching_blocks, difflib.gmb_fuel.
  replace (2 * length a + 1) with (S (2 * length a)) by lia. simpl.
  rewrite Hsize. simpl. by destruct (length a + (length a + 0)).
Qed.

Lemma opcodes_of_sentinel (la lb : nat) :
  difflib.opcodes_loop [difflib.mkMatch la lb 0] 0 0 [] =
  if decide (0 < la ∧ 0 < lb) then [difflib.mkOp difflib.Replace 0 la 0 lb]
  else if decide (0 < la) then [difflib.mkOp difflib.Delete 0 la 0 lb]
  else if decide (0 < lb) then [difflib.mkOp difflib.Insert 0 la 0 lb]
  else [].
Proof. simpl. by repeat case_decide. Qed.

Lemma slice_all {A} (l : list A) : slice l 0 (length l) = l.
Proof. unfold slice. rewrite drop_0, Nat.sub_0_r. by apply take_ge. Qed.

(** X1: against the empty string the whole of the other string is one span:
    added when the empty string is the first argument, removed when it is the
    second; two empty strings differ in nothing. *)
Theorem X1_simple_diff_empty_side (s : str) :
  simple_diff [] [] = mkDiff [] [] ∧
  (s ≠ [] → simple_diff [] s = mkDiff [s] [] ∧ simple_diff s [] = mkDiff [] [s]).
Proof.
  split; [done|]. intros Hs.
  assert (0 < length s) as Hlen by (destruct s; [done|simpl; lia]).
  assert (∀ a b : str, a = [] ∨ b = [] →
            difflib.get_matching_blocks a b = [difflib.mkMatch (length a) (length b) 0])
    as Hblocks.
  { intros a b Hab. apply get_matching_blocks_no_match.
    destruct (find_longest_match_ok a b 0 (length a) 0 (length b)) as (_ & Ha & _ & Hb & _);
      [lia|lia|].
    destruct Hab as [-> | ->]; simpl in *; lia. }
  unfold simple_diff, difflib.get_opcodes. split.
  - rewrite Hblocks by (by left). rewrite opcodes_of_sentinel. simpl length.
    rewrite decide_False by lia. rewrite decide_False by lia. rewrite decide_True by done.
    simpl. by rewrite slice_all.
  - rewrite Hblocks by (by right). rewrite opcodes_of_sentinel. simpl length.
    rewrite decide_False by lia. rewrite decide_True by done.
    simpl. by rewrite slice_all.
Qed.

(** X2: two non-empty strings that have no character in common are one
    [replace] opcode apart, of which the diff result keeps nothing: it is
    empty, as for two equal strings. *)
Theorem X2_simple_diff_nothing_in_common (a b : str) :
  a ≠ [] → b ≠ [] → (∀ c, c ∈ a → c ∉ b) →
  difflib.get_opcodes a b = [difflib.mkOp difflib.Replace 0 (length a) 0 (length b)] ∧
  simple_diff a b = mkDiff [] [].
Proof.
  intros Ha Hb Hdisjoint.
  assert (difflib.get_matching_blocks a b = [difflib.mkMatch (length a) (length b) 0])
    as Hblocks.
  { apply get_matching_blocks_no_match.
    destruct (find_longest_match_ok a b 0 (length a) 0 (length b)) as (_ & _ & _ & _ & Hpt);
      [lia|lia|].
    destruct (difflib.m_size _) as [|k] eqn:Hk; [done|]. exfalso.
    destruct (Hpt 0) as [[c Hc] Heq]; [lia|].
    apply (Hdisjoint c).
    - by apply list_elem_of_lookup_2 in Hc.
    - rewrite Hc in Heq. symmetry in Heq. by apply list_elem_of_lookup_2 in Heq. }
  assert (0 < length a ∧ 0 < length b) as Hlen.
  { destruct a, b; try done; simpl; lia. }
  unfold simple_diff, difflib.get_opcodes.
  rewrite Hblocks, opcodes_of_sentinel, decide_True by done. done.
Qed.

(** An instance: ["abc"] and ["xyz"]. *)
Lemma X2_simple_diff_nothing_in_common_witness :
  T "abc" ≠ [] ∧ T "xyz" ≠ [] ∧ (∀ c, c ∈ T "abc" → c ∉ T "xyz") ∧
  simple_diff (T "abc") (T "xyz") = mkDiff [] [].
Proof.
  assert (T "abc" ≠ []) as Ha by discriminate.
  assert (T "xyz" ≠ []) as Hb by discriminate.
  assert (∀ c, c ∈ T "abc" → c ∉ T "xyz") as Hc.
  { intros c Hin Hout. apply list_elem_of_In in Hin. apply list_elem_of_In in Hout.
    simpl in Hin, Hout. intuition congruence. }
  split; [exact Ha|]. split; [exact Hb|]. split; [exact Hc|].
  exact (proj2 (X2_simple_diff_nothing_in_common (T "abc") (T "xyz") Ha Hb Hc)).
Defined.

(** ** The spans of simple_diff *)

Lemma opcodes_loop_cons (x : difflib.Match) blocks i j :
  difflib.opcodes_loop (x :: blocks) i j [] =
  gap_op i j (difflib.m_a x) (difflib.m_b x)
  ++ eq_op (difflib.m_a x) (difflib.m_b x) (difflib.m_size x)
  ++ difflib.opcodes_loop blocks (difflib.m_a x + difflib.m_size x)
       (difflib.m_b x + difflib.m_size x) [].
Proof.
  simpl. rewrite opcodes_loop_acc. unfold gap_op, eq_op.
  repeat case_decide; simpl; by rewrite <- ?app_assoc.
Qed.

Lemma simple_diff_loop_app (a b : str) ops1 ops2 :
  simple_diff_loop a b (ops1 ++ ops2) [] [] =
  mkDiff (added (simple_diff_loop a b ops1 [] []) ++ added (simple_diff_loop a b ops2 [] []))
         (removed (simple_diff_loop a b ops1 [] []) ++ removed (simple_diff_loop a b ops2 [] [])).
Proof.
  induction ops1 as [|op ops1 IH]; simpl.
  - by destruct (simple_diff_loop a b ops2 [] []).
  - destruct (difflib.op_tag op).
    + exact IH.
    + rewrite simple_diff_loop_acc, IH. symmetry. rewrite simple_diff_loop_acc. done.
    + rewrite simple_diff_loop_acc, IH. symmetry. rewrite simple_diff_loop_acc. done.
    + exact IH.
Qed.

Lemma sublist_drop_le {A} (l : list A) (i j : nat) :
  i ≤ j → drop j l `sublist_of` drop i l.
Proof.
  intros Hij. replace j with (i + (j - i)) by lia. rewrite <- drop_drop. apply sublist_drop.
Qed.

Lemma slice_nonempty {A} (l : list A) (i j : nat) : i < j → j ≤ length l → slice l i j ≠ [].
Proof.
  intros Hij Hj Hnil. apply (f_equal length) in Hnil. unfold slice in Hnil.
  rewrite length_take, length_drop in Hnil. simpl in Hnil. lia.
Qed.

Lemma slice_sublist {A} (l rest : list A) (i j : nat) :
  i ≤ j → rest `sublist_of` drop j l → slice l i j ++ rest `sublist_of` drop i l.
Proof.
  intros Hij Hrest. rewrite <- (take_drop (j - i) (drop i l)). unfold slice.
  apply sublist_app; [done|]. rewrite drop_drop. by replace (i + (j - i)) with j by lia.
Qed.

(** Along a chain of blocks every span recorded is a non-empty slice, and
    the spans added (removed) are taken from [b] (from [a]) from left to
    right without overlap. *)
Lemma simple_diff_spans_chain (a b : str) blocks :
  ∀ i j,
    chain_from a b i j blocks →
    let d := simple_diff_loop a b (difflib.opcodes_loop blocks i j []) [] [] in
    Forall (λ span, span ≠ []) (added d) ∧
    Forall (λ span, span ≠ []) (removed d) ∧
    concat (added d) `sublist_of` drop j b ∧
    concat (removed d) `sublist_of` drop i a.
Proof.
  induction blocks as [|x blocks IH]; intros i j Hchain.
  - simpl. repeat split; try constructor; apply sublist_nil_l.
  - destruct Hchain as [(Hi & Hia & Hj & Hjb & _) Hrest].
    destruct (IH _ _ Hrest) as (IHa & IHr & IHsa & IHsr).
    rewrite opcodes_loop_cons, !simple_diff_loop_app. simpl.
    assert (simple_diff_loop a b
              (eq_op (difflib.m_a x) (difflib.m_b x) (difflib.m_size x)) [] []
            = mkDiff [] []) as -> by (unfold eq_op; by case_decide).
    simpl.
    assert (concat (added (simple_diff_loop a b
              (difflib.opcodes_loop blocks (difflib.m_a x + difflib.m_size x)
                 (difflib.m_b x + difflib.m_size x) []) [] []))
            `sublist_of` drop (difflib.m_b x) b) as IHsa'.
    { etrans; [exact IHsa|]. apply sublist_drop_le. lia. }
    assert (concat (removed (simple_diff_loop a b
              (difflib.opcodes_loop blocks (difflib.m_a x + difflib.m_size x)
                 (difflib.m_b x + difflib.m_size x) []) [] []))
            `sublist_of` drop (difflib.m_a x) a) as IHsr'.
    { etrans; [exact IHsr|]. apply sublist_drop_le. lia. }
    unfold gap_op. repeat case_decide; simpl.
    + repeat split; try done.
      * etrans; [exact IHsa'|]. by apply sublist_drop_le.
      * etrans; [exact IHsr'|]. by apply sublist_drop_le.
    + repeat split; try done.
      * constructor; [|done]. apply slice_nonempty; lia.
      * etrans; [exact IHsa'|]. by apply sublist_drop_le.
      * by apply slice_sublist.
    + repeat split; try done.
      * constructor; [|done]. apply slice_nonempty; lia.
      * by apply slice_sublist.
      * etrans; [exact IHsr'|]. by apply sublist_drop_le.
    + repeat split; try done.
      * etrans; [exact IHsa'|]. by apply sublist_drop_le.
      * etrans; [exact IHsr'|]. by apply sublist_drop_le.
Qed.

(** X3: no span of a diff result is empty; the spans of [added], one after
    the other, are taken from [b] from left to right without overlap, and
    those of [removed] from [a]. *)
Theorem X3_simple_diff_spans (a b : str) :
  Forall (λ span, span ≠ []) (added (simple_diff a b)) ∧
  Forall (λ span, span ≠ []) (removed (simple_diff a b)) ∧
  concat (added (simple_diff a b)) `sublist_of` b ∧
  concat (removed (simple_diff a b)) `sublist_of` a.
Proof.
  pose proof (simple_diff_spans_chain a b _ 0 0 (get_matching_blocks_chain a b)) as H.
  simpl in H. by rewrite !drop_0 in H.
Qed.

(** ** A string against itself *)

Lemma StronglySorted_snoc (l : list nat) (i : nat) :
  StronglySorted lt l → Forall (λ j, j < i) l → StronglySorted lt (l ++ [i]).
Proof.
  induction 1 as [|x l Hl IH Hx]; intros Hall; simpl.
  - repeat constructor.
  - apply Forall_cons in Hall as [Hxi Hall]. constructor; [by apply IH|].
    apply Forall_app. split; [done|]. by constructor.
Qed.

(** The table of [__chain_b] lists, for each character, all its positions
    so far, in ascending order. *)
Lemma chain_b_fill_complete (b' pre : str) (b2j : gmap ascii (list nat)) :
  (∀ x, StronglySorted lt (default [] (b2j !! x)) ∧
        ∀ j, j ∈ default [] (b2j !! x) ↔ pre !! j = Some x) →
  ∀ x, StronglySorted lt (default [] (difflib.chain_b_fill b' (length pre) b2j !! x)) ∧
       ∀ j, j ∈ default [] (difflib.chain_b_fill b' (length pre) b2j !! x)
            ↔ (pre ++ b') !! j = Some x.
Proof.
  revert pre b2j. induction b' as [|elt b' IH]; intros pre b2j Hinv x; simpl.
  - rewrite app_nil_r. apply Hinv.
  - replace (pre ++ elt :: b') with ((pre ++ [elt]) ++ b') by (by rewrite <- app_assoc).
    replace (S (length pre)) with (length (pre ++ [elt]))
      by (by rewrite length_app, Nat.add_1_r).
    apply IH. clear x. intros x.
    destruct (Hinv x) as [Hsorted Hmem].
    destruct (decide (elt = x)) as [->|Hne].
    + rewrite lookup_insert_eq. simpl. split.
      * apply StronglySorted_snoc; [done|]. apply Forall_forall. intros j Hj.
        apply Hmem in Hj. by apply lookup_lt_Some in Hj.
      * intros j. rewrite elem_of_app, Hmem, list_elem_of_singleton. split.
        -- intros [Hj| ->].
           ++ by rewrite lookup_app_l by (by apply lookup_lt_Some in Hj).
           ++ by rewrite lookup_app_r, Nat.sub_diag.
        -- intros Hj. apply lookup_app_Some in Hj as [Hj|[Hge Hj]]; [by left|].
           right. apply list_lookup_singleton_Some in Hj as [Hz _]. lia.
    + rewrite lookup_insert_ne by done. split; [done|].
      intros j. rewrite Hmem. split.
      * intros Hj. by rewrite lookup_app_l by (by apply lookup_lt_Some in Hj).
      * intros Hj. apply lookup_app_Some in Hj as [Hj|[Hge Hj]]; [done|].
        apply list_lookup_singleton_Some in Hj as [_ Heq]. congruence.
Qed.

Lemma chain_b_complete (b : str) x js :
  difflib.chain_b b !! x = Some js →
  StronglySorted lt js ∧ ∀ j, j ∈ js ↔ b !! j = Some x.
Proof.
  intros Hx.
  assert (difflib.chain_b_fill b 0 ∅ !! x = Some js) as Hfill.
  { unfold difflib.chain_b in Hx. case_decide; [|done].
    by apply map_lookup_filter_Some in Hx as [? _]. }
  assert (∀ y, StronglySorted lt (default [] ((∅ : gmap ascii (list nat)) !! y)) ∧
               ∀ j, j ∈ default [] ((∅ : gmap ascii (list nat)) !! y)
                    ↔ ([] : str) !! j = Some y) as Hbase.
  { intros y. rewrite lookup_empty. simpl. split; [constructor|].
    intros j. split; [by intros ?%elem_of_nil|done]. }
  pose proof (chain_b_fill_complete b [] ∅ Hbase x) as Hc.
  change (length []) with 0 in Hc. rewrite Hfill in Hc. exact Hc.
Qed.

Lemma diag_len_keyed (s : str) b2j i :
  keyed s b2j i = true → diag_len s b2j i = prev_diag s b2j i + 1.
Proof. intros Hk. destruct i; simpl; by rewrite Hk. Qed.

Lemma diag_len_unkeyed (s : str) b2j i : keyed s b2j i = false → diag_len s b2j i = 0.
Proof. intros Hk. destruct i; simpl; by rewrite Hk. Qed.

Lemma prev_len_bound (s : str) b2j (row : gmap nat nat) i j :
  (∀ j k, row !! j = Some k → k ≤ prev_diag s b2j i ∧ k ≤ diag_len s b2j j) →
  prev_len row j ≤ prev_diag s b2j i ∧ prev_len row j ≤ prev_diag s b2j j.
Proof.
  intros Hrow. destruct j as [|j']; simpl; [lia|].
  destruct (row !! j') as [k0|] eqn:E; simpl; [by apply Hrow|lia].
Qed.

(** One row of [find_longest_match] on a string against itself: no entry
    exceeds the diagonal runs at its two ends, the diagonal entry is the run
    itself, and the best match stays on the diagonal, at least as long as
    every run met so far. *)
Lemma flm_inner_diag (s : str) (i : nat) (row : gmap nat nat) js :
  keyed s (difflib.chain_b s) i = true →
  (∀ j k, row !! j = Some k →
     k ≤ prev_diag s (difflib.chain_b s) i ∧ k ≤ diag_len s (difflib.chain_b s) j) →
  prev_len row i = prev_diag s (difflib.chain_b s) i →
  StronglySorted lt js →
  (∀ j, j ∈ js → j < length s ∧ keyed s (difflib.chain_b s) j = true) →
  ∀ newrow best,
    (∀ j k, newrow !! j = Some k →
       k ≤ diag_len s (difflib.chain_b s) i ∧ k ≤ diag_len s (difflib.chain_b s) j) →
    difflib.m_a best = difflib.m_b best →
    (∀ t, t < i → diag_len s (difflib.chain_b s) t ≤ difflib.m_size best) →
    ((i ∈ js ∧ newrow !! i = None) ∨
     (newrow !! i = Some (diag_len s (difflib.chain_b s) i) ∧
      diag_len s (difflib.chain_b s) i ≤ difflib.m_size best)) →
    (∀ j k, (difflib.flm_inner i 0 (length s) row js newrow best).1 !! j = Some k →
       k ≤ diag_len s (difflib.chain_b s) i ∧ k ≤ diag_len s (difflib.chain_b s) j) ∧
    (difflib.flm_inner i 0 (length s) row js newrow best).1 !! i
      = Some (diag_len s (difflib.chain_b s) i) ∧
    difflib.m_a (difflib.flm_inner i 0 (length s) row js newrow best).2
      = difflib.m_b (difflib.flm_inner i 0 (length s) row js newrow best).2 ∧
    (∀ t, t < S i →
       diag_len s (difflib.chain_b s) t
       ≤ difflib.m_size (difflib.flm_inner i 0 (length s) row js newrow best).2).
Proof.
  intros Hki Hrow Hprev Hsorted Hjs.
  induction js as [|j js IH]; intros newrow best Hnew Hdiag Hseen Hstate; simpl.
  - destruct Hstate as [[Hin _]|[Hi Hle]]; [by apply elem_of_nil in Hin|].
    split; [exact Hnew|]. split; [done|]. split; [done|].
    intros t Ht. destruct (decide (t = i)) as [->|Hne]; [done|]. apply Hseen. lia.
  - apply StronglySorted_inv in Hsorted as [Hsorted Hhead].
    destruct (Hjs j) as [Hjlen Hkj]; [by left|].
    destruct (decide (j < 0)) as [?|_]; [lia|].
    destruct (decide (length s ≤ j)) as [?|_]; [lia|].
    fold (prev_len row j).
    destruct (prev_len_bound s _ row i j Hrow) as [Hpi Hpj].
    pose proof (diag_len_keyed _ _ _ Hki) as HDi.
    pose proof (diag_len_keyed _ _ _ Hkj) as HDj.
    assert (j ≠ i → ¬ difflib.m_size best < prev_len row j + 1) as Hkeep.
    { intros Hne. destruct (decide (j < i)) as [Hlt|Hgt].
      - specialize (Hseen j Hlt). lia.
      - destruct Hstate as [[Hin _]|[_ Hle]]; [|lia].
        apply elem_of_cons in Hin as [->|Hin]; [done|].
        apply (proj1 (Forall_forall _ _) Hhead) in Hin. lia. }
    apply IH; clear IH.
    + done.
    + intros j' Hj'. apply Hjs. by right.
    + intros j' k' Hlook. destruct (decide (j = j')) as [<-|Hne].
      * rewrite lookup_insert_eq in Hlook. injection Hlook as <-. lia.
      * rewrite lookup_insert_ne in Hlook by done. by apply Hnew.
    + case_decide as Hupd; [|done]. simpl.
      destruct (decide (j = i)) as [->|Hne]; [done|]. by apply Hkeep in Hupd.
    + intros t Ht. specialize (Hseen t Ht). case_decide; simpl; lia.
    + destruct (decide (j = i)) as [->|Hne].
      * right. rewrite lookup_insert_eq, Hprev. split; [by rewrite HDi|].
        case_decide; simpl; lia.
      * destruct Hstate as [[Hin Hnone]|[Hsome Hle]].
        -- left. apply elem_of_cons in Hin as [->|Hin]; [done|].
           split; [done|]. by rewrite lookup_insert_ne.
        -- right. rewrite lookup_insert_ne by done. split; [done|].
           case_decide; simpl; lia.
Qed.

(** On a string against itself the best match of the rows is on the
    diagonal. *)
Lemma flm_outer_diag (s : str) rows :
  ∀ i row best,
    i + rows = length s →
    (∀ j k, row !! j = Some k →
       k ≤ prev_diag s (difflib.chain_b s) i ∧ k ≤ diag_len s (difflib.chain_b s) j) →
    prev_len row i = prev_diag s (difflib.chain_b s) i →
    difflib.m_a best = difflib.m_b best →
    (∀ t, t < i → diag_len s (difflib.chain_b s) t ≤ difflib.m_size best) →
    difflib.m_a (difflib.flm_outer s (difflib.chain_b s) 0 (length s) (seq i rows) row best)
    = difflib.m_b (difflib.flm_outer s (difflib.chain_b s) 0 (length s) (seq i rows) row best).
Proof.
  induction rows as [|rows IH]; intros i row best Hlen Hrow Hprev Hdiag Hseen; simpl; [done|].
  destruct (s !! i) as [x|] eqn:Hx; [|apply lookup_ge_None in Hx; lia].
  destruct (difflib.chain_b s !! x) as [js|] eqn:Hb2j; simpl.
  - assert (keyed s (difflib.chain_b s) i = true) as Hki.
    { unfold keyed. rewrite Hx, Hb2j. by apply bool_decide_eq_true_2. }
    destruct (chain_b_complete s x js Hb2j) as [Hsorted Hmem].
    pose proof (flm_inner_diag s i row js Hki Hrow Hprev Hsorted) as Hinner.
    destruct (Hinner
      ltac:(intros j Hj; apply Hmem in Hj; split;
              [by apply lookup_lt_Some in Hj
              |unfold keyed; rewrite Hj, Hb2j; by apply bool_decide_eq_true_2])
      ∅ best
      ltac:(intros j k Hlook; by rewrite lookup_empty in Hlook)
      Hdiag Hseen
      ltac:(left; split; [by apply Hmem|apply lookup_empty]))
      as (Hrow' & Hdi & Hdiag' & Hseen').
    destruct (difflib.flm_inner i 0 (length s) row js ∅ best) as [newrow best'].
    simpl in Hrow', Hdi, Hdiag', Hseen'.
    apply IH; [lia|exact Hrow'| |exact Hdiag'|exact Hseen'].
    simpl. by rewrite Hdi.
  - assert (keyed s (difflib.chain_b s) i = false) as Hki.
    { unfold keyed. rewrite Hx, Hb2j. apply bool_decide_eq_false_2. by intros [? ?]. }
    pose proof (diag_len_unkeyed _ _ _ Hki) as HDi.
    apply IH; [lia| | |exact Hdiag|].
    + intros j k Hlook. by rewrite lookup_empty in Hlook.
    + simpl. by rewrite lookup_empty, HDi.
    + intros t Ht. destruct (decide (t = i)) as [->|Hne]; [lia|]. apply Hseen. lia.
Qed.

Lemma extend_left_diag (s : str) fuel :
  ∀ best,
    difflib.m_a best = difflib.m_b best → difflib.m_a best ≤ fuel →
    difflib.m_a best ≤ length s →
    difflib.extend_left s s 0 0 fuel best
    = difflib.mkMatch 0 0 (difflib.m_size best + difflib.m_a best).
Proof.
  induction fuel as [|fuel IH]; intros [i j k] Hdiag Hfuel Hlen; simpl in *; subst j.
  - assert (i = 0) as -> by lia. by rewrite Nat.add_0_r.
  - destruct i as [|i].
    + rewrite decide_False by lia. by rewrite Nat.add_0_r.
    + rewrite decide_True.
      * rewrite IH; simpl; [f_equal|done|..]; lia.
      * repeat split; try lia. apply lookup_lt_is_Some. simpl. lia.
Qed.

Lemma extend_right_diag (s : str) fuel :
  ∀ k, k ≤ length s → length s - k ≤ fuel →
    difflib.extend_right s s (length s) (length s) fuel (difflib.mkMatch 0 0 k)
    = difflib.mkMatch 0 0 (length s).
Proof.
  induction fuel as [|fuel IH]; intros k Hk Hfuel; simpl.
  - f_equal. lia.
  - destruct (decide (k < length s)) as [Hlt|Hge].
    + rewrite decide_True.
      * apply IH; lia.
      * repeat split; try done. by apply lookup_lt_is_Some.
    + rewrite decide_False by lia. f_equal. lia.
Qed.

(** The longest match of a string against itself is the whole string. *)
Lemma find_longest_match_self (s : str) :
  difflib.find_longest_match s s (difflib.chain_b s) 0 (length s) 0 (length s)
  = difflib.mkMatch 0 0 (length s).
Proof.
  unfold difflib.find_longest_match. rewrite !Nat.sub_0_r.
  pose proof (flm_outer_ok s s 0 (length s) 0 (length s) (length s) 0 ∅
                (difflib.mkMatch 0 0 0)) as Hok.
  pose proof (flm_outer_diag s (length s) 0 ∅ (difflib.mkMatch 0 0 0)) as Hdiag.
  set (best := difflib.flm_outer s (difflib.chain_b s) 0 (length s)
                 (seq 0 (length s)) ∅ (difflib.mkMatch 0 0 0)) in *.
  destruct Hok as (_ & Hbound & _ & _ & _);
    [lia|lia|apply row_ok_empty|unfold match_in; simpl; repeat split; lia|].
  assert (difflib.m_a best = difflib.m_b best) as Hd.
  { apply Hdiag; [done| |done|done|intros t Ht; lia].
    intros j k Hlook. by rewrite lookup_empty in Hlook. }
  rewrite extend_left_diag by (try done; lia). simpl.
  apply extend_right_diag; lia.
Qed.

Lemma get_matching_blocks_self (s : str) :
  s ≠ [] →
  difflib.get_matching_blocks s s =
  [difflib.mkMatch 0 0 (length s); difflib.mkMatch (length s) (length s) 0].
Proof.
  intros Hs. assert (length s ≠ 0) as Hlen by (by destruct s).
  unfold difflib.get_matching_blocks, difflib.gmb_fuel.
  replace (2 * length s + 1) with (S (2 * length s)) by lia. simpl.
  rewrite find_longest_match_self. simpl.
  rewrite decide_True by done.
  destruct (decide (_ ∧ _)) as [?|_]; [lia|].
  destruct (length s + (length s + 0)); simpl; by rewrite decide_True.
Qed.

Lemma ratio_self (s : str) : (difflib.ratio s s == 1)%Q.
Proof.
  destruct (decide (s = [])) as [->|Hs]; [reflexivity|].
  unfold difflib.ratio. rewrite get_matching_blocks_self by done. simpl.
  unfold difflib.calculate_ratio. rewrite decide_True by (destruct s; [done|simpl; lia]).
  rewrite Nat.add_0_r, Nat2Z.inj_add, inject_Z_plus.
  assert (0 < inject_Z (Z.of_nat (length s)))%Q as Hpos.
  { change 0%Q with (inject_Z 0). rewrite <- Zlt_Qlt. destruct s; [done|simpl; lia]. }
  field. lra.
Qed.

(** The blocks of a chain that covers all of [a] and all of [b] leave no
    gap: what is left of [a] at the cursor is what is left of [b]. *)
Lemma chain_from_tight (a b : str) l :
  ∀ i j,
    chain_from a b i j l →
    i + sum_sizes l = length a → j + sum_sizes l = length b →
    drop i a = drop j b.
Proof.
  induction l as [|x l IH]; intros i j Hchain Hi Hj; simpl in *.
  - rewrite !drop_ge by lia. done.
  - destruct Hchain as [Hx Hrest].
    pose proof (match_in_slices _ _ _ _ _ _ _ Hx) as Hslices.
    destruct Hx as (H1 & H2 & H3 & H4 & _).
    destruct (chain_from_sum_sizes a b l _ _ H2 H4 Hrest) as [Ha Hb].
    assert (difflib.m_a x = i) as Hxi by lia. assert (difflib.m_b x = j) as Hxj by lia.
    rewrite Hxi, Hxj in *.
    rewrite <- (take_drop (difflib.m_size x) (drop i a)).
    rewrite <- (take_drop (difflib.m_size x) (drop j b)).
    rewrite Hslices, !drop_drop. f_equal. apply IH; [done|lia|lia].
Qed.

Lemma ratio_one_whole (m n : nat) :
  n ≠ 0 → (2 * inject_Z (Z.of_nat m) / inject_Z (Z.of_nat n) == 1)%Q → 2 * m = n.
Proof.
  intros Hn Hone.
  assert (0 < inject_Z (Z.of_nat n))%Q as Hpos.
  { change 0%Q with (inject_Z 0). rewrite <- Zlt_Qlt. lia. }
  assert (2 * inject_Z (Z.of_nat m) == inject_Z (Z.of_nat n))%Q as Heq.
  { assert (2 * inject_Z (Z.of_nat m)
            == 2 * inject_Z (Z.of_nat m) / inject_Z (Z.of_nat n) * inject_Z (Z.of_nat n))%Q
      as Hmul by (field; lra).
    rewrite Hmul, Hone. ring. }
  assert (inject_Z (Z.of_nat (2 * m)) == 2 * inject_Z (Z.of_nat m))%Q as Htwice.
  { rewrite Nat2Z.inj_mul, inject_Z_mult. reflexivity. }
  destruct (Nat.lt_trichotomy (2 * m) n) as [Hlt|[Hdone|Hgt]]; [|done|].
  - assert (inject_Z (Z.of_nat (2 * m)) < inject_Z (Z.of_nat n))%Q as H
      by (rewrite <- Zlt_Qlt; lia).
    lra.
  - assert (inject_Z (Z.of_nat n) < inject_Z (Z.of_nat (2 * m)))%Q as H
      by (rewrite <- Zlt_Qlt; lia).
    lra.
Qed.

(** Only equal strings have the ratio 1. *)
Lemma ratio_one_eq (a b : str) : (difflib.ratio a b == 1)%Q → a = b.
Proof.
  unfold difflib.ratio, difflib.calculate_ratio. intros Hone.
  pose proof (get_matching_blocks_chain a b) as Hchain.
  assert (0 + sum_sizes (difflib.get_matching_blocks a b) ≤ length a ∧
          0 + sum_sizes (difflib.get_matching_blocks a b) ≤ length b) as [Ha Hb].
  { apply chain_from_sum_sizes; [lia|lia|done]. }
  fold (sum_sizes (difflib.get_matching_blocks a b)) in Hone.
  case_decide as Hlen.
  - apply ratio_one_whole in Hone; [|done].
    pose proof (chain_from_tight a b _ 0 0 Hchain) as Htight.
    rewrite !drop_0 in Htight. apply Htight; lia.
  - destruct a, b; simpl in Hlen; try lia. done.
Qed.

Lemma tokenJaccard_self (s : str) : token_set s ≠ ∅ → (tokenJaccard s s == 1)%Q.
Proof.
  intros Htok. unfold tokenJaccard. rewrite decide_False by tauto.
  rewrite (idemp_L (∩)), (idemp_L (∪)).
  assert (size (token_set s) ≠ 0) as Hsize.
  { intros Hz. apply Htok. apply leibniz_equiv. by apply size_empty_iff. }
  assert (0 < inject_Z (Z.of_nat (size (token_set s))))%Q as Hpos.
  { change 0%Q with (inject_Z 0). rewrite <- Zlt_Qlt. lia. }
  field. lra.
Qed.

Lemma fuzzy_ratio_self (s : str) : token_set s ≠ ∅ → (fuzzy_ratio s s == 1)%Q.
Proof.
  intros Htok. assert (s ≠ []) as Hs by (by intros ->).
  rewrite fuzzy_ratio_blend by done.
  unfold sequenceRatio. rewrite tokenJaccard_self, ratio_self by done. reflexivity.
Qed.

(** Two strings that score 1.0 are equal, and empty or with a token. *)
Lemma fuzzy_ratio_one (a b : str) :
  (fuzzy_ratio a b == 1)%Q → a = b ∧ (a = [] ∨ token_set a ≠ ∅).
Proof.
  intros Hone.
  destruct (decide (a = [])) as [->|Ha]; destruct (decide (b = [])) as [->|Hb].
  - split; [done|by left].
  - rewrite fuzzy_ratio_one_empty in Hone by tauto. discriminate Hone.
  - rewrite fuzzy_ratio_one_empty in Hone by tauto. discriminate Hone.
  - destruct (decide (token_set a = ∅ ∨ token_set b = ∅)) as [Htok|Htok].
    + rewrite fuzzy_ratio_no_tokens in Hone by done. discriminate Hone.
    + rewrite fuzzy_ratio_blend in Hone by tauto.
      pose proof (tokenJaccard_range a b). pose proof (ratio_range a b).
      unfold sequenceRatio in Hone. split; [|right; tauto].
      apply ratio_one_eq. apply Qle_antisym; lra.
Qed.

(** ** X4, X5: a string against itself *)

(** X4: the diff of a string against itself is empty, and the similarity of
    a string to itself is 1.0 if it has a token, 0.0 if it is made of
    whitespace only, and 1.0 if it is empty. *)
Theorem X4_self_comparison (s : str) :
  simple_diff s s = mkDiff [] [] ∧
  (token_set s ≠ ∅ → (fuzzy_ratio s s == 1)%Q) ∧
  (s ≠ [] → token_set s = ∅ → (fuzzy_ratio s s == 0)%Q) ∧
  (fuzzy_ratio [] [] == 1)%Q.
Proof.
  split; [|split; [|split]].
  - destruct (decide (s = [])) as [->|Hs]; [done|].
    unfold simple_diff, difflib.get_opcodes. rewrite get_matching_blocks_self by done.
    simpl. repeat case_decide; try lia; done.
  - apply fuzzy_ratio_self.
  - intros Hs Htok. apply fuzzy_ratio_no_tokens; tauto.
  - reflexivity.
Qed.

(** X5: the similarity is 1.0 exactly for two equal strings that have a token
    or are empty: no two different strings score 1.0. *)
Theorem X5_score_one_iff_equal (a b : str) :
  (fuzzy_ratio a b == 1)%Q ↔ a = b ∧ (a = [] ∨ token_set a ≠ ∅).
Proof.
  split; [apply fuzzy_ratio_one|].
  intros [<- Htok]. destruct Htok as [->|Htok]; [reflexivity|].
  by apply fuzzy_ratio_self.
Qed.

(** ** X6: what the tokens alone decide *)

(** X6: two strings, not both empty, that share no token score at most 0.4,
    and two strings with the same non-empty set of tokens score at least
    0.6, whatever their characters: the tokens are compared in lower case. *)
Theorem X6_score_token_bounds (a b : str) :
  (token_set a ∩ token_set b = ∅ → a ≠ [] ∨ b ≠ [] → (fuzzy_ratio a b <= 0.4)%Q) ∧
  (token_set a = token_set b → token_set a ≠ ∅ → (0.6 <= fuzzy_ratio a b)%Q).
Proof.
  split.
  - intros Hdisjoint Hne.
    destruct (decide (a = [])) as [->|Ha]; destruct (decide (b = [])) as [->|Hb].
    + by destruct Hne.
    + rewrite fuzzy_ratio_one_empty by tauto. lra.
    + rewrite fuzzy_ratio_one_empty by tauto. lra.
    + destruct (decide (token_set a = ∅ ∨ token_set b = ∅)) as [Htok|Htok].
      * rewrite fuzzy_ratio_no_tokens by done. lra.
      * rewrite fuzzy_ratio_blend by tauto.
        assert (tokenJaccard a b == 0)%Q as ->.
        { unfold tokenJaccard. rewrite decide_False by done.
          rewrite Hdisjoint, size_empty. reflexivity. }
        pose proof (ratio_range a b). unfold sequenceRatio. lra.
  - intros Hsame Htok.
    assert (a ≠ []) as Ha by (by intros ->).
    assert (b ≠ []) as Hb by (intros ->; by rewrite Hsame in Htok).
    rewrite fuzzy_ratio_blend; [|done|done|done|by rewrite <- Hsame].
    assert (tokenJaccard a b == 1)%Q as ->.
    { unfold tokenJaccard. rewrite <- Hsame. by apply tokenJaccard_self. }
    pose proof (ratio_range a b). unfold sequenceRatio. lra.
Qed.

(** ** X7: the extractor *)

Lemma lstrip_blank (s : str) : Forall (λ c, isspace c = true) s → lstrip s = [].
Proof. induction 1 as [|c s Hc _ IH]; simpl; [done|]. by rewrite Hc. Qed.

Lemma strip_blank (s : str) : Forall (λ c, isspace c = true) s → strip s = [].
Proof. intros Hs. unfold strip. by rewrite lstrip_blank. Qed.

Lemma lstrip_nil (s : str) : lstrip s = [] → Forall (λ c, isspace c = true) s.
Proof.
  induction s as [|c s IH]; simpl; [constructor|].
  destruct (isspace c) eqn:Hc; [|done]. intros Hs. constructor; [done|by apply IH].
Qed.

Lemma lstrip_spec (s : str) :
  ∃ blanks, s = blanks ++ lstrip s ∧ Forall (λ c, isspace c = true) blanks.
Proof.
  induction s as [|c s (blanks & Hs & Hblanks)]; simpl.
  - by exists [].
  - destruct (isspace c) eqn:Hc.
    + exists (c :: blanks). split; [by rewrite Hs at 1|by constructor].
    + by exists [].
Qed.

(** Only a string of whitespace strips to the empty string. *)
Lemma strip_nil_iff (s : str) : strip s = [] ↔ Forall (λ c, isspace c = true) s.
Proof.
  split; [|apply strip_blank].
  unfold strip, rstrip. intros Hs.
  apply (f_equal reverse) in Hs. rewrite reverse_involutive in Hs. simpl in Hs.
  apply lstrip_nil in Hs. apply Forall_reverse in Hs.
  destruct (lstrip_spec s) as (blanks & Heq & Hblanks).
  rewrite Heq. apply Forall_app. split; [done|]. by rewrite reverse_involutive in Hs.
Qed.

Lemma join_blank (sep : str) (l : list str) :
  Forall (λ c, isspace c = true) sep →
  Forall (λ s, Forall (λ c, isspace c = true) s) l →
  Forall (λ c, isspace c = true) (join sep l).
Proof.
  intros Hsep. induction 1 as [|s l Hs Hl IH]; simpl; [constructor|].
  destruct l as [|s' l]; [done|]. by rewrite !Forall_app.
Qed.

(** X7: the text [validate] works with is empty when the PDF libraries are
    missing, when the file cannot be read, and when no page has any text but
    whitespace; the text of a one-page document is the text of its page. *)
Theorem X7_extraction_degrades_to_empty (open_pdf : str → option (list (option str)))
    (pdf_path : str) :
  extract_text_and_images None pdf_path = [] ∧
  (open_pdf pdf_path = None → extract_text_and_images (Some open_pdf) pdf_path = []) ∧
  (∀ pages, open_pdf pdf_path = Some pages →
     Forall (λ page, strip (default [] page) = []) pages →
     blank_to_empty (extract_text_and_images (Some open_pdf) pdf_path) = []) ∧
  (∀ page, open_pdf pdf_path = Some [page] →
     extract_text_and_images (Some open_pdf) pdf_path = default [] page).
Proof.
  split; [done|]. split; [|split].
  - intros Hopen. unfold extract_text_and_images. by rewrite Hopen.
  - intros pages Hopen Hblank. apply blank_to_empty_blank, strip_blank.
    unfold extract_text_and_images. rewrite Hopen. apply join_blank.
    + by repeat constructor.
    + apply Forall_fmap. eapply Forall_impl; [exact Hblank|].
      intros page Hpage. by apply strip_nil_iff.
  - intros page Hopen. unfold extract_text_and_images. by rewrite Hopen.
Qed.

(** ** X8, X9: the keyword check *)

Lemma filter_sublist_impl {A} (P Q : A → Prop) `{∀ x, Decision (P x)} `{∀ x, Decision (Q x)}
    (l : list A) :
  (∀ x, P x → Q x) → filter P l `sublist_of` filter Q l.
Proof.
  intros HPQ. induction l as [|x l IH]; [done|]. rewrite !filter_cons.
  destruct (decide (P x)) as [HP|HP].
  - rewrite decide_True by auto. by constructor.
  - destruct (decide (Q x)); [by constructor|done].
Qed.

(** X8: the keyword check reports a keyword exactly when it occurs, as it
    is written, in the lower-cased text; so every keyword it reports is in
    lower case, and a keyword written with a capital letter is never found. *)
Theorem X8_keyword_check_occurrences (text : str) (keywords : list str) :
  (∀ k, k ∈ _keyword_check text keywords ↔
        k ∈ keywords ∧ ∃ pre post, lower text = pre ++ k ++ post) ∧
  Forall (λ k, lower k = k) (_keyword_check text keywords).
Proof.
  assert (∀ k, k ∈ _keyword_check text keywords ↔
               k ∈ keywords ∧ ∃ pre post, lower text = pre ++ k ++ post) as Hiff.
  { intros k. unfold _keyword_check. rewrite list_elem_of_filter, <- contains_occurs.
    rewrite Is_true_true. tauto. }
  split; [done|]. apply Forall_forall. intros k Hk.
  apply Hiff in Hk as (_ & pre & post & Heq). by eapply occurs_in_lower.
Qed.

(** X9: a keyword found in a text is found in every text whose lower-cased
    form contains the lower-cased form of the first: the result on [text] is
    a sublist of the result on [text']. *)
Theorem X9_keyword_check_monotone (text text' : str) (keywords : list str) :
  (∃ pre post, lower text' = pre ++ lower text ++ post) →
  _keyword_check text keywords `sublist_of` _keyword_check text' keywords.
Proof.
  intros (pre & post & Htext). unfold _keyword_check. apply filter_sublist_impl.
  intros k Hk. apply Is_true_true, contains_occurs in Hk as (p & q & Heq).
  apply Is_true_true, contains_occurs. exists (pre ++ p), (q ++ post).
  rewrite Htext, Heq. by rewrite <- !app_assoc.
Qed.

(** An instance: a clause and a page that quotes it in capitals. *)
Lemma X9_keyword_check_monotone_witness :
  (∃ pre post, lower (T "See the RATE CARD, 2024") = pre ++ lower (T "Rate Card") ++ post) ∧
  _keyword_check (T "Rate Card") (ratecard_keywords default_validator)
    `sublist_of`
  _keyword_check (T "See the RATE CARD, 2024") (ratecard_keywords default_validator).
Proof.
  assert (∃ pre post,
            lower (T "See the RATE CARD, 2024") = pre ++ lower (T "Rate Card") ++ post) as H
    by (by exists (T "see the "), (T ", 2024")).
  split; [exact H|].
  exact (X9_keyword_check_monotone (T "Rate Card") (T "See the RATE CARD, 2024")
           (ratecard_keywords default_validator) H).
Defined.

(** ** X10: documents with names of their own *)

Lemma to_uint_nonnil (n : nat) : Nat.to_uint n ≠ Decimal.Nil.
Proof.
  intros Hnil. pose proof (Unsigned.of_to n) as Hn. rewrite Hnil in Hn.
  simpl in Hn. subst n. discriminate Hnil.
Qed.

(** [str(n)] tells the numbers apart. *)
Lemma str_of_nat_inj (n m : nat) : str_of_nat n = str_of_nat m → n = m.
Proof.
  unfold str_of_nat, T. intros Heq.
  apply (f_equal string_of_list_ascii) in Heq.
  rewrite !string_of_list_ascii_of_string in Heq.
  apply (f_equal NilZero.uint_of_string) in Heq.
  rewrite !NilZero.usu in Heq by apply to_uint_nonnil.
  injection Heq as Heq. by apply Unsigned.to_uint_inj.
Qed.

(** The names the loop makes up are pairwise different. *)
Lemma doc_name_default_inj (i j : nat) : doc_name [] i = doc_name [] j → i = j.
Proof.
  unfold doc_name. rewrite !lookup_nil. intros Heq.
  apply app_inv_head, app_inv_tail, str_of_nat_inj in Heq. lia.
Qed.

(** Documents with pairwise different names, none of them a key yet, add one
    entry each. *)
Lemma documents_loop_size_distinct backend self names documents :
  ∀ idx summary,
    (∀ i j, i < j < length documents → doc_name names (idx + i) ≠ doc_name names (idx + j)) →
    (∀ i, i < length documents → summary !! doc_name names (idx + i) = None) →
    size (documents_loop backend self idx documents names summary)
    = size summary + length documents.
Proof.
  induction documents as [|d ds IH]; intros idx summary Hdistinct Hfresh; [simpl; lia|].
  rewrite documents_loop_cons, IH.
  - rewrite map_size_insert_None; [simpl; lia|].
    specialize (Hfresh 0). rewrite Nat.add_0_r in Hfresh. apply Hfresh. simpl. lia.
  - intros i j Hij. replace (S idx + i) with (idx + S i) by lia.
    replace (S idx + j) with (idx + S j) by lia. apply Hdistinct. simpl. lia.
  - intros i Hi. replace (S idx + i) with (idx + S i) by lia.
    rewrite lookup_insert_ne; [apply Hfresh; simpl; lia|].
    specialize (Hdistinct 0 (S i)). rewrite Nat.add_0_r in Hdistinct.
    apply Hdistinct. simpl. lia.
Qed.

(** X10: when the names of the extra documents are pairwise different, the
    summary has one entry for each document, the summary of that document
    under its name; this is so whenever no names are supplied, document
    [idx] then being found under document_<idx+1>.pdf. *)
Theorem X10_documents_one_entry_each (backend : pdf_backend) (self : validator)
    (main_pdf client_pdf : str) (docs names : list str) :
  let summary := documents (validate backend self main_pdf client_pdf docs names) in
  let unnamed := documents (validate backend self main_pdf client_pdf docs []) in
  ((∀ i j, i < j < length docs → doc_name names i ≠ doc_name names j) →
   size summary = length docs ∧
   ∀ idx doc_path, docs !! idx = Some doc_path →
     summary !! doc_name names idx = Some (summary_of backend self doc_path)) ∧
  size unnamed = length docs ∧
  (∀ idx doc_path, docs !! idx = Some doc_path →
     unnamed !! (T "document_" ++ str_of_nat (idx + 1) ++ T ".pdf")
     = Some (summary_of backend self doc_path)).
Proof.
  assert (∀ names,
    (∀ i j, i < j < length docs → doc_name names i ≠ doc_name names j) →
    size (documents_loop backend self 0 docs names ∅) = length docs ∧
    ∀ idx doc_path, docs !! idx = Some doc_path →
      documents_loop backend self 0 docs names ∅ !! doc_name names idx
      = Some (summary_of backend self doc_path)) as Hdistinct.
  { intros names' Hnames. split.
    - rewrite documents_loop_size_distinct; [by rewrite map_size_empty|done|done].
    - intros idx doc_path Hdoc.
      apply (documents_loop_last backend self names' docs 0 ∅ idx doc_path Hdoc).
      intros j Hj Heq. by apply (Hnames idx j). }
  simpl. rewrite !validate_documents. split; [apply Hdistinct|].
  apply (Hdistinct []). intros i j Hij Heq. apply doc_name_default_inj in Heq. lia.
Qed.

(** ** X11, X12, X13: the similarity samples *)

Lemma lstrip_head (s : str) c rest : lstrip s = c :: rest → isspace c = false.
Proof.
  induction s as [|x s IH]; simpl; [done|].
  destruct (isspace x) eqn:Hx; [done|]. by intros [= <- _].
Qed.

Lemma lstrip_snoc (l : str) (c : ascii) :
  lstrip (l ++ [c]) =
  if decide (lstrip l = []) then (if isspace c then [] else [c]) else lstrip l ++ [c].
Proof.
  induction l as [|x l IH]; simpl.
  - by destruct (isspace c).
  - destruct (isspace x); [done|]. by rewrite decide_False.
Qed.

Lemma rstrip_cons (c : ascii) (t : str) :
  rstrip (c :: t) =
  if decide (rstrip t = []) then (if isspace c then [] else [c]) else c :: rstrip t.
Proof.
  unfold rstrip. rewrite reverse_cons, lstrip_snoc.
  destruct (decide (lstrip (reverse t) = [])) as [Hnil|Hcons].
  - rewrite Hnil. rewrite decide_True by done. by destruct (isspace c).
  - rewrite decide_False.
    + by rewrite reverse_app.
    + intros Hnil. apply Hcons. apply (f_equal reverse) in Hnil.
      by rewrite reverse_involutive in Hnil.
Qed.

(** A stripped string does not begin with whitespace. *)
Lemma strip_head (s : str) c rest : strip s = c :: rest → isspace c = false.
Proof.
  unfold strip. destruct (lstrip s) as [|x l] eqn:Hl; [done|].
  apply lstrip_head in Hl. rewrite rstrip_cons, Hl.
  destruct (decide (rstrip l = [])); by intros [= <- _].
Qed.

Lemma lstrip_id (s : str) : (∀ c rest, s = c :: rest → isspace c = false) → lstrip s = s.
Proof.
  destruct s as [|c rest]; [done|]. intros Hhead. simpl. by rewrite (Hhead c rest).
Qed.

Lemma lstrip_idem (s : str) : lstrip (lstrip s) = lstrip s.
Proof. apply lstrip_id. intros c rest. apply lstrip_head. Qed.

Lemma rstrip_idem (s : str) : rstrip (rstrip s) = rstrip s.
Proof. unfold rstrip. by rewrite reverse_involutive, lstrip_idem. Qed.

(** [strip] leaves a stripped string as it is. *)
Lemma strip_idem (s : str) : strip (strip s) = strip s.
Proof.
  unfold strip at 1. rewrite lstrip_id; [|intros c rest; apply strip_head].
  unfold strip. apply rstrip_idem.
Qed.

Lemma isspace_lower_char (c : ascii) : isspace (lower_char c) = isspace c.
Proof. destruct c as [[] [] [] [] [] [] [] []]; reflexivity. Qed.

Lemma split_loop_cur (s cur : str) : cur ≠ [] → split_loop s cur ≠ [].
Proof.
  revert cur. induction s as [|c s IH]; intros cur Hcur; simpl.
  - by rewrite decide_False.
  - destruct (isspace c); [by rewrite decide_False|].
    apply IH. by destruct cur.
Qed.

(** A string that begins with a character other than whitespace has a token. *)
Lemma token_set_head (c : ascii) (rest : str) :
  isspace c = false → token_set (c :: rest) ≠ ∅.
Proof.
  intros Hc. unfold token_set, split. simpl. rewrite isspace_lower_char, Hc.
  pose proof (split_loop_cur (lower rest) [lower_char c]) as Hne.
  destruct (split_loop (lower rest) [lower_char c]) as [|t ts]; [exfalso; by apply Hne|].
  simpl. set_solver.
Qed.

(** The lines [validate] compares are trimmed, not empty, and have a token. *)
Lemma stripped_lines_shape (text l : str) :
  l ∈ stripped_lines text → l ≠ [] ∧ strip l = l ∧ token_set l ≠ ∅.
Proof.
  intros Hl. apply stripped_lines_spec in Hl as (Hne & raw & _ & ->).
  split; [done|]. split; [apply strip_idem|].
  destruct (strip raw) as [|c rest] eqn:Hstrip; [done|].
  apply token_set_head. by eapply strip_head.
Qed.

Lemma best_of_range (m : str) (cs : list str) (s : sample) :
  best_of m cs s → (0 <= score s <= 1)%Q.
Proof.
  intros (Hpos & _ & Hbest). split; [done|].
  destruct (best_match s) as [c|].
  - destruct Hbest as (k & _ & -> & _). apply fuzzy_ratio_range.
  - rewrite Hbest. lra.
Qed.

Lemma best_of_line (m : str) (cs : list str) (s : sample) (c : str) :
  best_of m cs s → best_match s = Some c → c ∈ cs.
Proof.
  intros (_ & _ & Hbest) Hc. rewrite Hc in Hbest.
  destruct Hbest as (k & Hk & _). apply list_elem_of_lookup. by exists k.
Qed.

(** A line that has a token scores 1.0 exactly when it is itself among the
    client lines, and is then its own best match. *)
Lemma best_of_exact (m : str) (cs : list str) (s : sample) :
  best_of m cs s → token_set m ≠ ∅ →
  ((score s == 1)%Q ↔ m ∈ cs) ∧ ((score s == 1)%Q → best_match s = Some m).
Proof.
  intros Hbest Htok.
  assert ((score s == 1)%Q → m ∈ cs ∧ best_match s = Some m) as Hone.
  { intros Hscore. destruct Hbest as (_ & _ & Hline).
    destruct (best_match s) as [c|].
    - destruct Hline as (k & Hk & Heq & _). rewrite Heq in Hscore.
      apply fuzzy_ratio_one in Hscore as [<- _].
      split; [|done]. apply list_elem_of_lookup. by exists k.
    - rewrite Hline in Hscore. discriminate Hscore. }
  split; [|by intros Hscore; apply Hone]. split; [by intros Hscore; apply Hone|].
  intros Hin. pose proof (best_of_range m cs s Hbest) as [_ Hle].
  destruct Hbest as (_ & Hall & _). specialize (Hall m Hin).
  unfold clause_similarity in Hall. rewrite fuzzy_ratio_self in Hall by done.
  by apply Qle_antisym.
Qed.

Lemma validate_samples backend self main_pdf client_pdf docs names :
  clause_similarity_samples (validate backend self main_pdf client_pdf docs names)
  = similarity_samples
      (take 200 (stripped_lines (blank_to_empty (extract_text_and_images backend main_pdf))))
      (take 200 (stripped_lines (blank_to_empty (extract_text_and_images backend client_pdf)))).
Proof. by rewrite validate_fields. Qed.

Lemma samples_main_line backend self main_pdf client_pdf docs names s :
  s ∈ clause_similarity_samples (validate backend self main_pdf client_pdf docs names) →
  main s ∈ take 20 (stripped_lines
                      (blank_to_empty (extract_text_and_images backend main_pdf))).
Proof.
  intros Hs. rewrite validate_samples in Hs.
  apply (list_elem_of_fmap_2 main) in Hs.
  rewrite similarity_samples_main, take_take in Hs. done.
Qed.

(** X11: [validate] reports at most 20 samples; every score lies between
    0.0 and 1.0; every main line sampled is trimmed and not empty, and so is
    every best match. *)
Theorem X11_samples_shape (backend : pdf_backend) (self : validator)
    (main_pdf client_pdf : str) (docs names : list str) :
  let samples :=
    clause_similarity_samples (validate backend self main_pdf client_pdf docs names) in
  length samples ≤ 20 ∧
  Forall (λ s, (0 <= score s <= 1)%Q ∧
               main s ≠ [] ∧ strip (main s) = main s ∧
               ∀ c, best_match s = Some c → c ≠ [] ∧ strip c = c) samples.
Proof.
  simpl. split.
  - rewrite <- (length_map main), validate_samples, similarity_samples_main.
    rewrite length_take. lia.
  - pose proof (samples_best_of_client_lines backend self main_pdf client_pdf docs names)
      as Hbest.
    rewrite Forall_forall in Hbest. apply Forall_forall. intros s Hs.
    specialize (Hbest s Hs). split; [by eapply best_of_range|].
    apply samples_main_line, subseteq_take, stripped_lines_shape in Hs as (Hne & Hstrip & _).
    split; [done|]. split; [done|]. intros c Hc.
    apply (best_of_line _ _ _ c) in Hbest; [|done].
    apply subseteq_take, stripped_lines_shape in Hbest as (Hc1 & Hc2 & _). done.
Qed.

(** X12: a sample scores 1.0 exactly when its main line is, character for
    character, one of the first 40 client lines, and its best match is then
    that line. *)
Theorem X12_samples_exact_line (backend : pdf_backend) (self : validator)
    (main_pdf client_pdf : str) (docs names : list str) :
  let client_lines :=
    take 40 (stripped_lines (blank_to_empty (extract_text_and_images backend client_pdf))) in
  Forall (λ s, ((score s == 1)%Q ↔ main s ∈ client_lines) ∧
               ((score s == 1)%Q → best_match s = Some (main s)))
    (clause_similarity_samples (validate backend self main_pdf client_pdf docs names)).
Proof.
  simpl.
  pose proof (samples_best_of_client_lines backend self main_pdf client_pdf docs names)
    as Hbest.
  rewrite Forall_forall in Hbest. apply Forall_forall. intros s Hs.
  apply best_of_exact; [by apply Hbest|].
  by apply samples_main_line, subseteq_take, stripped_lines_shape in Hs as (_ & _ & Htok).
Qed.

(** X13: a document validated against itself: no difference is reported,
    every sampled line is its own best match with score 1.0, and the
    identifiers and keywords found are the same on both sides. *)
Theorem X13_document_against_itself (backend : pdf_backend) (self : validator)
    (pdf : str) (docs names : list str) :
  let r := validate backend self pdf pdf docs names in
  diff r = mkDiff [] [] ∧
  Forall (λ s, best_match s = Some (main s) ∧ (score s == 1)%Q)
    (clause_similarity_samples r) ∧
  (pan r).1 = (pan r).2 ∧ (gst r).1 = (gst r).2 ∧
  (r_coi_keywords r).1 = (r_coi_keywords r).2 ∧ (rate_keywords r).1 = (rate_keywords r).2.
Proof.
  simpl. split; [|split].
  - rewrite validate_fields. simpl.
    destruct (decide (blank_to_empty (extract_text_and_images backend pdf) = []))
      as [->|Hne]; [done|].
    unfold simple_diff, difflib.get_opcodes. rewrite get_matching_blocks_self by done.
    simpl. repeat case_decide; try lia; done.
  - pose proof (samples_best_of_client_lines backend self pdf pdf docs names) as Hbest.
    rewrite Forall_forall in Hbest. apply Forall_forall. intros s Hs.
    specialize (Hbest s Hs). apply samples_main_line in Hs.
    assert (main s ∈ take 40 (stripped_lines
              (blank_to_empty (extract_text_and_images backend pdf)))) as Hin.
    { replace 20 with (20 `min` 40) in Hs by done. rewrite <- take_take in Hs.
      by apply subseteq_take in Hs. }
    apply subseteq_take, stripped_lines_shape in Hs as (_ & _ & Htok).
    destruct (best_of_exact _ _ _ Hbest Htok) as [Hiff Hmatch].
    apply Hiff in Hin. split; [by apply Hmatch|done].
  - by rewrite validate_fields.
Qed.

(** ** X14, X15: the identifiers *)

Lemma slice_empty {A} (l : list A) (i : nat) : slice l i i = [].
Proof. unfold slice. by rewrite Nat.sub_diag. Qed.

Lemma slice_one {A} (l : list A) (i : nat) (x : A) : l !! i = Some x → slice l i (S i) = [x].
Proof.
  intros Hx. unfold slice. replace (S i - i) with 1 by lia.
  by rewrite (drop_S _ _ _ Hx).
Qed.

Lemma slice_app {A} (l : list A) (i j k : nat) :
  i ≤ j → j ≤ k → slice l i k = slice l i j ++ slice l j k.
Proof.
  intros Hij Hjk. unfold slice.
  replace (k - i) with ((j - i) + (k - j)) by lia.
  rewrite <- take_take_drop, drop_drop. by replace (i + (j - i)) with j by lia.
Qed.

Lemma slice_occurs {A} (l : list A) (i j : nat) :
  i ≤ j → l = take i l ++ slice l i j ++ drop j l.
Proof.
  intros Hij. unfold slice. rewrite app_assoc, take_take_drop.
  replace (i + (j - i)) with j by lia. by rewrite take_drop.
Qed.

Lemma search_here (p : re.pattern) (s : str) (start : nat) (must_advance : bool) (n : nat)
    (e : nat) (item : str) :
  re.match_at p s start must_advance = Some (e, item) →
  re.search p s start must_advance n = Some (start, e, item).
Proof. intros Hmatch. destruct n; simpl; by rewrite Hmatch. Qed.

(** The empty pattern matches at every position, before and after each
    character. *)
Lemma findall_loop_empty (s : str) :
  ∀ fuel pos, pos ≤ length s → length s - pos < fuel →
    re.findall_loop (re.compiled re.Empty) s fuel pos true = replicate (length s - pos) [].
Proof.
  induction fuel as [|fuel IH]; intros pos Hpos Hfuel; [lia|].
  simpl. destruct (decide (length s < pos)) as [?|_]; [lia|].
  destruct (length s - pos) as [|n] eqn:Hn; simpl;
    rewrite bool_decide_eq_true_2 by done; simpl; [done|].
  rewrite (search_here _ _ _ _ _ (S pos) []) by (simpl; by rewrite slice_empty).
  rewrite bool_decide_eq_true_2 by done.
  rewrite IH by lia. by replace (length s - S pos) with n by lia.
Qed.

(** X14: the empty pattern, which a blank or null [pan_regex] or
    [gst_regex] stands for, finds one empty identifier at each position of a
    text: [len(text) + 1] empty strings; and a validator with that pattern
    reports them for every text but the empty one, for which it reports none. *)
Theorem X14_empty_pattern (self : validator) (text : str) :
  re.findall (re.compiled re.Empty) text = replicate (length text + 1) [] ∧
  (pan_re self = re.compiled re.Empty →
   (_search_pan_gst self text).1 =
   if decide (text = []) then [] else replicate (length text + 1) []) ∧
  (gst_re self = re.compiled re.Empty →
   (_search_pan_gst self text).2 =
   if decide (text = []) then [] else replicate (length text + 1) []).
Proof.
  assert (re.findall (re.compiled re.Empty) text = replicate (length text + 1) []) as Hall.
  { unfold re.findall. replace (2 * length text + 2) with (S (2 * length text + 1)) by lia.
    simpl. destruct (decide (length text < 0)) as [?|_]; [lia|].
    rewrite (search_here _ _ _ _ _ 0 []) by (simpl; by rewrite slice_empty).
    rewrite bool_decide_eq_true_2 by done.
    rewrite findall_loop_empty by lia.
    by rewrite Nat.sub_0_r, Nat.add_1_r. }
  split; [done|]. unfold _search_pan_gst.
  split; intros ->; destruct (decide (text = [])); done.
Qed.

Lemma in_ranges_chr (c : ascii) : re.in_ranges [(ord c, ord c)] c = true.
Proof. unfold re.in_ranges. simpl. by rewrite Nat.leb_refl. Qed.

(** A match has one character for each class of the pattern. *)
Lemma rmatch_shape (r : re.regex) (s : str) :
  ∀ pos e g, re.rmatch r s pos = Some (e, g) →
    e = pos + length (shape r) ∧ fits (slice s pos e) (shape r).
Proof.
  unfold fits.
  induction r as [|c|ranges|r1 IH1 r2 IH2|r IH n| |r IH]; intros pos e g; simpl.
  - intros [= <- _]. rewrite slice_empty. split; [lia|constructor].
  - destruct (s !! pos) as [x|] eqn:E; [|done].
    case_decide as Hx; [|done]. intros [= <- _]. rewrite (slice_one _ _ _ E). subst x.
    split; [lia|]. repeat constructor. apply in_ranges_chr.
  - destruct (s !! pos) as [x|] eqn:E; [|done].
    destruct (re.in_ranges ranges x) eqn:Hx; [|done].
    intros [= <- _]. rewrite (slice_one _ _ _ E). split; [lia|]. by repeat constructor.
  - destruct (re.rmatch r1 s pos) as [[e1 g1]|] eqn:E1; [|done].
    destruct (re.rmatch r2 s e1) as [[e2 g2]|] eqn:E2; [|done].
    intros [= <- _].
    destruct (IH1 _ _ _ E1) as [He1 Hfit1]. destruct (IH2 _ _ _ E2) as [He2 Hfit2].
    rewrite length_app. split; [lia|].
    rewrite (slice_app s pos e1 e2) by lia. by apply Forall2_app.
  - generalize (@None (nat * nat)). revert pos.
    induction n as [|n IHn]; intros pos g0.
    + intros [= <- _]. simpl. rewrite slice_empty. split; [lia|constructor].
    + destruct (re.rmatch r s pos) as [[e1 g1]|] eqn:E1; [|done].
      destruct (IH _ _ _ E1) as [He1 Hfit1].
      intros Hrep. apply IHn in Hrep as [He Hfit].
      simpl. rewrite length_app. split; [lia|].
      rewrite (slice_app s pos e1 e) by lia. by apply Forall2_app.
  - destruct (re.at_boundary s pos); [|done]. intros [= <- _].
    rewrite slice_empty. split; [lia|constructor].
  - destruct (re.rmatch r s pos) as [[e1 g1]|] eqn:E1; [|done].
    intros [= <- _]. by apply (IH _ _ g1).
Qed.

(** What holds of every match of a pattern holds of every item reported. *)
Lemma all_matches_items (p : re.pattern) (s : str) (P : str → Prop) :
  (∀ t must_advance e item,
     t ≤ length s → re.match_at p s t must_advance = Some (e, item) → P item) →
  ∀ pos must_advance items, all_matches p s pos must_advance items → Forall P items.
Proof.
  intros HP pos must_advance items Hall.
  induction Hall as [|pos must_advance start e item items Hstart _ Hmatch _ IH];
    [constructor|].
  constructor; [|done]. eapply HP; [|exact Hmatch]. lia.
Qed.

Lemma findall_items (r : re.regex) (s : str) (P : str → Prop) :
  (∀ t must_advance e item,
     t ≤ length s → re.match_at (re.compiled r) s t must_advance = Some (e, item) → P item) →
  Forall P (re.findall (re.compiled r) s).
Proof.
  intros HP. eapply all_matches_items; [exact HP|].
  apply findall_all_matches, compiled_wf.
Qed.

(** A match of the built-in PAN pattern: the item is the group, which is
    the whole match. *)
Lemma pan_match_item (s : str) (t : nat) (must_advance : bool) (e : nat) (item : str) :
  re.match_at (re.compiled pan_regex_ast) s t must_advance = Some (e, item) →
  fits item pan_shape ∧ ∃ pre post, s = pre ++ item ++ post.
Proof.
  unfold re.compiled, re.match_at, pan_regex_ast.
  set (body := re.Cat (re.Rep upper 5) (re.Cat (re.Rep digit 4) upper)).
  change (re.rmatch (re.Cat re.WordB (re.Cat (re.Grp body) re.WordB)) s t)
    with (match (if re.at_boundary s t then Some (t, @None (nat * nat)) else None) with
          | Some (e1, g1) =>
              match
                match
                  match re.rmatch body s e1 with
                  | Some (e, _) => Some (e, Some (e1, e))
                  | None => None
                  end
                with
                | Some (e2, g2) =>
                    match (if re.at_boundary s e2 then Some (e2, @None (nat * nat)) else None)
                    with
                    | Some (e3, g3) => Some (e3, from_option Some g2 g3)
                    | None => None
                    end
                | None => None
                end
              with
              | Some (e2, g2) => Some (e2, from_option Some g1 g2)
              | None => None
              end
          | None => None
          end).
  destruct (re.at_boundary s t); [|done].
  destruct (re.rmatch body s t) as [[e1 g1]|] eqn:E; [|done].
  destruct (re.at_boundary s e1); [|done]. simpl.
  destruct (rmatch_shape _ _ _ _ _ E) as [He Hfit].
  destruct (must_advance && bool_decide (e1 = t)); [done|]. intros [= <- <-].
  split; [exact Hfit|]. exists (take t s), (drop e1 s). apply slice_occurs. lia.
Qed.

(** A match of the built-in GST pattern: the item is the whole match. *)
Lemma gst_match_item (s : str) (t : nat) (must_advance : bool) (e : nat) (item : str) :
  re.match_at (re.compiled gst_regex_ast) s t must_advance = Some (e, item) →
  fits item gst_shape ∧ ∃ pre post, s = pre ++ item ++ post.
Proof.
  unfold re.compiled, re.match_at.
  destruct (re.rmatch gst_regex_ast s t) as [[e1 g1]|] eqn:E; [|done].
  destruct (rmatch_shape _ _ _ _ _ E) as [He Hfit].
  destruct (must_advance && bool_decide (e1 = t)); [done|].
  change (re.has_group gst_regex_ast) with false. cbv iota. intros [= <- <-].
  split; [exact Hfit|]. exists (take t s), (drop e1 s). apply slice_occurs. lia.
Qed.

(** X15: with the built-in patterns, every PAN reported is ten characters
    of the text, five capitals A-Z, four digits and a capital, and every GST
    number fifteen characters of the text in the classes of the built-in
    pattern; so an identifier written in lower case is never reported. *)
Theorem X15_builtin_identifiers (self : validator) (text : str) :
  (pan_re self = re.compiled pan_regex_ast →
   Forall (λ item, fits item pan_shape ∧ length item = 10 ∧
                   ∃ pre post, text = pre ++ item ++ post)
     (_search_pan_gst self text).1) ∧
  (gst_re self = re.compiled gst_regex_ast →
   Forall (λ item, fits item gst_shape ∧ length item = 15 ∧
                   ∃ pre post, text = pre ++ item ++ post)
     (_search_pan_gst self text).2).
Proof.
  unfold _search_pan_gst. split; intros ->.
  - destruct (decide (text = [])); [constructor|]. simpl.
    apply findall_items. intros t must_advance e item _ Hmatch.
    apply pan_match_item in Hmatch as [Hfit Hin].
    split; [done|]. split; [|done]. by apply Forall2_length in Hfit.
  - destruct (decide (text = [])); [constructor|]. simpl.
    apply findall_items. intros t must_advance e item _ Hmatch.
    apply gst_match_item in Hmatch as [Hfit Hin].
    split; [done|]. split; [|done]. by apply Forall2_length in Hfit.
Qed.

(** ** X16: construction from a well-typed configuration *)

(** A key of the file overrides the built-in value, which stands otherwise. *)
Lemma merged_lookup (config : gmap str yaml) (k : str) (d : yaml) :
  DEFAULT_CONFIG !! k = Some d →
  (config ∪ DEFAULT_CONFIG) !! k = Some (default d (config !! k)).
Proof. intros Hd. rewrite lookup_union, Hd. by destruct (config !! k). Qed.

Lemma merged_default (config : gmap str yaml) (k : str) (d d' : yaml) :
  DEFAULT_CONFIG !! k = Some d →
  default d' ((config ∪ DEFAULT_CONFIG) !! k) = default d (config !! k).
Proof. intros Hd. by rewrite (merged_lookup config k d Hd). Qed.

Lemma bind_Ok_eq {A B} (a : A) (k : A → result B) : (x ← Ok a; k x) = k a.
Proof. reflexivity. Qed.

Lemma YStr_list_inj (ks ks' : list str) : map YStr ks = map YStr ks' → ks = ks'.
Proof.
  revert ks'. induction ks as [|k ks IH]; intros [|k' ks']; simpl; try done.
  intros [= -> Heq]. by rewrite (IH ks').
Qed.

Lemma pattern_entry (re_compile : str → result re.pattern) (fallback : str)
    (fallback_re : re.pattern) (entry : option yaml) :
  re_compile fallback = Ok fallback_re →
  (∀ v, entry = Some v → blank_or_str v) →
  re_error_only re_compile [] →
  (∀ s, entry = Some (YStr s) → re_error_only re_compile s) →
  ∃ p, compile_or_default re_compile fallback
         (or_else (Some (default (YStr fallback) entry)) (YStr [])) = Ok p ∧
       ∀ s q, entry = Some (YStr s) → re_compile s = Ok q → p = q.
Proof.
  intros Hfallback Htyped Hempty Hlimits.
  assert (∀ s, re_error_only re_compile s →
               ∃ p, compile_or_default re_compile fallback (YStr s) = Ok p ∧
                    ∀ q, re_compile s = Ok q → p = q) as Hstr.
  { intros s Hs. simpl. destruct (re_compile s) as [p|e] eqn:E.
    - exists p. split; [done|]. by intros q [= <-].
    - rewrite (Hs e E), Hfallback. by exists fallback_re. }
  destruct entry as [v|]; simpl default.
  - destruct (Htyped v eq_refl) as [Hblank|[s ->]].
    + unfold or_else. rewrite Hblank. destruct (Hstr [] Hempty) as (p & Hp & Hq).
      exists p. split; [done|]. intros s q [= ->]. simpl in Hblank.
      apply negb_false_iff, bool_decide_eq_true in Hblank as ->. apply Hq.
    + rewrite or_else_str. destruct (Hstr s (Hlimits s eq_refl)) as (p & Hp & Hq).
      exists p. split; [done|]. intros s' q [= <-]. apply Hq.
  - rewrite or_else_str. simpl. rewrite Hfallback.
    exists fallback_re. split; [done|]. done.
Qed.

(** What the engine raises on a configured pattern, [re.error] apart, comes
    out of [__init__]. *)
Lemma init_pattern_raises (re_compile : str → result re.pattern)
    (float_of_str : str → option Q) (config : gmap str yaml) (s : str) (e : exn) :
  config !! T "pan_regex" = Some (YStr s) → re_compile s = Raise e → e ≠ ReError →
  __init__ re_compile float_of_str (Some config) = Raise e.
Proof.
  intros Hs Hraise He. unfold __init__. change (default ∅ (Some config)) with config.
  cbv zeta.
  rewrite (merged_lookup config (T "pan_regex") (YStr DEFAULT_pan_regex))
    by (vm_compute; reflexivity).
  rewrite Hs. simpl default. rewrite or_else_str. simpl compile_or_default.
  rewrite Hraise. by destruct e.
Qed.

Lemma keywords_entry (d : list str) (entry : option yaml) :
  (∀ v, entry = Some v → str_list v) →
  ∃ l, lower_each (default (YList (map YStr d)) entry) = Ok l ∧
       (entry = None → l = map lower d) ∧
       ∀ ks, entry = Some (YList (map YStr ks)) → l = map lower ks.
Proof.
  intros Htyped. destruct entry as [v|]; simpl default.
  - destruct (Htyped v eq_refl) as [ks ->]. exists (map lower ks).
    split; [apply for_each_strs|]. split; [done|].
    intros ks' [= Heq]. by apply YStr_list_inj in Heq as <-.
  - exists (map lower d). split; [apply for_each_strs|]. done.
Qed.

Lemma threshold_entry (float_of_str : str → option Q) (entry : option yaml) :
  (∀ v, entry = Some v → number v) →
  ∃ q, to_float float_of_str (default (YFloat 0.75) entry) = Ok q ∧
       (entry = None → q = 0.75%Q) ∧ ∀ q', entry = Some (YFloat q') → q = q'.
Proof.
  intros Htyped. destruct entry as [v|]; simpl default.
  - specialize (Htyped v eq_refl). destruct v as [|b|n|q|s|l|d]; simpl in Htyped; try done.
    + eexists. split; [reflexivity|]. split; [done|]. done.
    + simpl. apply Z.ltb_lt in Htyped. rewrite Htyped.
      eexists. split; [reflexivity|]. split; [done|]. done.
    + exists q. split; [done|]. split; [done|]. by intros q' [= <-].
  - exists 0.75%Q. split; [done|]. split; [done|]. done.
Qed.

(** X16: given an engine that compiles the two built-in patterns, and a
    configuration file that holds a well-typed mapping: if the patterns
    handed to the engine are within its limits (it compiles them or raises
    [re.error]), construction succeeds, and the validator holds the
    configuration merged over the defaults, the configured keywords in lower
    case, the configured patterns that compile and the configured threshold,
    and the built-in keywords and threshold where the file has none; but an
    exception other than [re.error] that the engine raises on the configured
    PAN pattern comes out of the constructor. *)
Theorem X16_init_well_typed (re_compile : str → result re.pattern)
    (float_of_str : str → option Q) (config : gmap str yaml) :
  (∃ p, re_compile DEFAULT_pan_regex = Ok p) →
  (∃ g, re_compile DEFAULT_gst_regex = Ok g) →
  well_typed config →
  (within_limits re_compile config →
   ∃ self, __init__ re_compile float_of_str (Some config) = Ok self ∧
     cfg self = config ∪ DEFAULT_CONFIG ∧
     (∀ s p, config !! T "pan_regex" = Some (YStr s) → re_compile s = Ok p →
        pan_re self = p) ∧
     (∀ s g, config !! T "gst_regex" = Some (YStr s) → re_compile s = Ok g →
        gst_re self = g) ∧
     (∀ ks, config !! T "coi_keywords" = Some (YList (map YStr ks)) →
        coi_keywords self = map lower ks) ∧
     (∀ ks, config !! T "ratecard_keywords" = Some (YList (map YStr ks)) →
        ratecard_keywords self = map lower ks) ∧
     (∀ q, config !! T "similarity_threshold" = Some (YFloat q) → sim_threshold self = q) ∧
     (config !! T "coi_keywords" = None →
        coi_keywords self = coi_keywords default_validator) ∧
     (config !! T "ratecard_keywords" = None →
        ratecard_keywords self = ratecard_keywords default_validator) ∧
     (config !! T "similarity_threshold" = None → sim_threshold self = 0.75%Q)) ∧
  (∀ s e, config !! T "pan_regex" = Some (YStr s) → re_compile s = Raise e → e ≠ ReError →
     __init__ re_compile float_of_str (Some config) = Raise e).
Proof.
  intros [p0 Hp0] [g0 Hg0] (Hpan & Hgst & Hcoi & Hrate & Hsim).
  split; [|intros s e; apply init_pattern_raises].
  intros (Hempty & Hpan_limits & Hgst_limits).
  destruct (pattern_entry re_compile _ p0 _ Hp0 Hpan Hempty Hpan_limits) as (p & Hp & Hp').
  destruct (pattern_entry re_compile _ g0 _ Hg0 Hgst Hempty Hgst_limits) as (g & Hg & Hg').
  destruct (keywords_entry
              [T "certificate of incorporation"; T "incorporation certificate"] _ Hcoi)
    as (coi & Hc & Hc0 & Hc').
  destruct (keywords_entry [T "rate card"; T "rate-card"; T "price list"] _ Hrate)
    as (rate & Hr & Hr0 & Hr').
  destruct (threshold_entry float_of_str _ Hsim) as (q & Hq & Hq0 & Hq').
  exists (mkValidator (config ∪ DEFAULT_CONFIG) p g coi rate q). split.
  - unfold __init__. change (default ∅ (Some config)) with config. cbv zeta.
    rewrite (merged_lookup config (T "pan_regex") (YStr DEFAULT_pan_regex))
      by (vm_compute; reflexivity).
    rewrite Hp, bind_Ok_eq. cbv beta.
    rewrite (merged_lookup config (T "gst_regex") (YStr DEFAULT_gst_regex))
      by (vm_compute; reflexivity).
    rewrite Hg, bind_Ok_eq. cbv beta.
    rewrite (merged_default config (T "coi_keywords")
               (YList (map YStr [T "certificate of incorporation";
                                 T "incorporation certificate"])))
      by (vm_compute; reflexivity).
    rewrite Hc, bind_Ok_eq. cbv beta.
    rewrite (merged_default config (T "ratecard_keywords")
               (YList (map YStr [T "rate card"; T "rate-card"; T "price list"])))
      by (vm_compute; reflexivity).
    rewrite Hr, bind_Ok_eq. cbv beta.
    rewrite (merged_default config (T "similarity_threshold") (YFloat 0.75))
      by (vm_compute; reflexivity).
    rewrite Hq, bind_Ok_eq. reflexivity.
  - simpl. split; [done|]. split; [exact Hp'|]. split; [exact Hg'|].
    split; [exact Hc'|]. split; [exact Hr'|]. split; [exact Hq'|].
    split; [exact Hc0|]. split; [exact Hr0|]. exact Hq0.
Qed.

Lemma builtin_compile_re_error (s : str) : re_error_only builtin_compile s.
Proof. intros e. unfold builtin_compile. repeat case_decide; by intros [= <-]. Qed.

(** An instance: a configuration that only sets the COI keywords, with the
    engine of the examples, which raises nothing but [re.error]. *)
Lemma X16_init_well_typed_witness :
  (∃ p, builtin_compile DEFAULT_pan_regex = Ok p) ∧
  (∃ g, builtin_compile DEFAULT_gst_regex = Ok g) ∧
  well_typed {[ T "coi_keywords" := YList [YStr (T "GST Certificate")] ]} ∧
  within_limits builtin_compile {[ T "coi_keywords" := YList [YStr (T "GST Certificate")] ]} ∧
  ∃ self,
    __init__ builtin_compile no_float
      (Some {[ T "coi_keywords" := YList [YStr (T "GST Certificate")] ]}) = Ok self ∧
    coi_keywords self = [T "gst certificate"] ∧
    ratecard_keywords self = [T "rate card"; T "rate-card"; T "price list"].
Proof.
  assert (∃ p, builtin_compile DEFAULT_pan_regex = Ok p) as Hpan by (eexists; reflexivity).
  assert (∃ g, builtin_compile DEFAULT_gst_regex = Ok g) as Hgst by (eexists; reflexivity).
  assert (well_typed {[ T "coi_keywords" := YList [YStr (T "GST Certificate")] ]}) as Htyped.
  { repeat split; intros v Hv.
    - rewrite lookup_singleton_ne in Hv by (vm_compute; discriminate). discriminate Hv.
    - rewrite lookup_singleton_ne in Hv by (vm_compute; discriminate). discriminate Hv.
    - rewrite lookup_singleton_eq in Hv. injection Hv as <-.
      by exists [T "GST Certificate"].
    - rewrite lookup_singleton_ne in Hv by (vm_compute; discriminate). discriminate Hv.
    - rewrite lookup_singleton_ne in Hv by (vm_compute; discriminate). discriminate Hv. }
  assert (within_limits builtin_compile
            {[ T "coi_keywords" := YList [YStr (T "GST Certificate")] ]}) as Hlimits.
  { repeat split; intros; by eapply builtin_compile_re_error. }
  split; [exact Hpan|]. split; [exact Hgst|]. split; [exact Htyped|]. split; [exact Hlimits|].
  destruct (proj1 (X16_init_well_typed builtin_compile no_float _ Hpan Hgst Htyped) Hlimits)
    as (self & Hinit & _ & _ & _ & Hcoi & _ & _ & _ & Hrate & _).
  exists self. split; [exact Hinit|]. split.
  - apply (Hcoi [T "GST Certificate"]). apply lookup_singleton_eq.
  - apply Hrate. apply lookup_singleton_ne. vm_compute. discriminate.
Defined.

(** ** X17: the lines of a document of several pages *)

Lemma kept_lines_cons (l : str) (ls : list str) :
  kept_lines (l :: ls) = (if decide (strip l ≠ []) then [strip l] else []) ++ kept_lines ls.
Proof. unfold kept_lines. simpl. rewrite filter_cons. by case_decide. Qed.

Lemma kept_lines_end (cur : str) :
  kept_lines (if decide (cur = []) then [] else [cur])
  = if decide (strip cur ≠ []) then [strip cur] else [].
Proof.
  case_decide as Hcur.
  - subst cur. by rewrite decide_False by (by intros H).
  - by rewrite kept_lines_cons, app_nil_r.
Qed.

(** Two line feeds end the line being read and open no line that is kept. *)
Lemma splitlines_loop_page_break (rest : str) :
  ∀ n x cur, length x ≤ n →
    kept_lines (splitlines_loop (x ++ "010"%char :: "010"%char :: rest) cur)
    = kept_lines (splitlines_loop x cur) ++ kept_lines (splitlines_loop rest []).
Proof.
  assert (∀ cur,
    kept_lines (splitlines_loop ("010"%char :: "010"%char :: rest) cur)
    = (if decide (strip cur ≠ []) then [strip cur] else [])
      ++ kept_lines (splitlines_loop rest [])) as Hbreak.
  { intros cur. simpl. by rewrite !kept_lines_cons. }
  induction n as [|n IH]; intros x cur Hlen.
  - destruct x; [|simpl in Hlen; lia]. simpl app at 1.
    rewrite Hbreak. simpl splitlines_loop. by rewrite kept_lines_end.
  - destruct x as [|c x].
    { simpl app at 1. rewrite Hbreak. simpl splitlines_loop. by rewrite kept_lines_end. }
    simpl in Hlen. rewrite <- app_comm_cons. simpl splitlines_loop.
    destruct (decide (ord c = 13)) as [Hcr|Hcr].
    + destruct x as [|c' x].
      * simpl. rewrite !kept_lines_cons. by rewrite app_nil_r.
      * simpl in Hlen. rewrite <- app_comm_cons.
        destruct (decide (ord c' = 10)).
        -- rewrite !kept_lines_cons, <- app_assoc. f_equal. apply IH. lia.
        -- rewrite !kept_lines_cons, <- app_assoc. f_equal.
           rewrite app_comm_cons. apply IH. simpl. lia.
    + destruct (islinebreak c).
      * rewrite !kept_lines_cons, <- app_assoc. f_equal. apply IH. lia.
      * apply IH. lia.
Qed.

(** A text of whitespace has no line that is kept. *)
Lemma splitlines_loop_blank :
  ∀ n s cur, length s ≤ n →
    Forall (λ c, isspace c = true) cur → Forall (λ c, isspace c = true) s →
    kept_lines (splitlines_loop s cur) = [].
Proof.
  assert (∀ cur ls, Forall (λ c, isspace c = true) cur → kept_lines ls = [] →
                    kept_lines (cur :: ls) = []) as Hcons.
  { intros cur ls Hcur Hls. rewrite kept_lines_cons, Hls, (strip_blank cur Hcur).
    by rewrite decide_False by (by intros H). }
  assert (∀ cur, Forall (λ c, isspace c = true) cur →
                 kept_lines (if decide (cur = []) then [] else [cur]) = []) as Hend.
  { intros cur Hcur. rewrite kept_lines_end, (strip_blank cur Hcur).
    by rewrite decide_False by (by intros H). }
  induction n as [|n IH]; intros s cur Hlen Hcur Hs.
  - destruct s; [|simpl in Hlen; lia]. by apply Hend.
  - destruct s as [|c s]; [by apply Hend|].
    simpl in Hlen. apply Forall_cons in Hs as [Hc Hs]. simpl splitlines_loop.
    destruct (decide (ord c = 13)).
    + destruct s as [|c' s]; [by apply Hcons|].
      simpl in Hlen. destruct (decide (ord c' = 10)).
      * apply Hcons; [done|]. apply Forall_cons in Hs as [_ Hs]. apply IH; [lia|done|done].
      * apply Hcons; [done|]. apply IH; [simpl; lia|done|done].
    + destruct (islinebreak c).
      * apply Hcons; [done|]. apply IH; [lia|done|done].
      * apply IH; [lia| |done]. apply Forall_app. split; [done|by constructor].
Qed.

Lemma stripped_lines_blank (text : str) :
  Forall (λ c, isspace c = true) text → stripped_lines text = [].
Proof. intros Hblank. by apply (splitlines_loop_blank (length text)). Qed.

Lemma stripped_lines_join (sep : str) (texts : list str) :
  sep = ["010"%char; "010"%char] →
  stripped_lines (join sep texts) = concat (map stripped_lines texts).
Proof.
  intros ->. induction texts as [|x texts IH]; [done|].
  destruct texts as [|y texts].
  - simpl. by rewrite app_nil_r.
  - change (join ["010"%char; "010"%char] (x :: y :: texts))
      with (x ++ "010"%char :: "010"%char :: join ["010"%char; "010"%char] (y :: texts)).
    change (concat (map stripped_lines (x :: y :: texts)))
      with (stripped_lines x ++ concat (map stripped_lines (y :: texts))).
    rewrite <- IH. by apply (splitlines_loop_page_break _ (length x)).
Qed.

(** Emptying a blank text loses no line. *)
Lemma stripped_lines_blank_to_empty (text : str) :
  stripped_lines (blank_to_empty text) = stripped_lines text.
Proof.
  unfold blank_to_empty. case_decide as Hblank; [done|].
  destruct (decide (text = [])) as [->|Hne]; [done|].
  symmetry. apply stripped_lines_blank, strip_nil_iff.
  destruct (decide (strip text = [])); [done|]. by destruct Hblank.
Qed.

(** X17: the lines [validate] compares in a document of several pages are
    the trimmed non-blank lines of its pages, page after page: the blank
    line put between two pages neither joins two lines nor adds one, and a
    page without text adds none. *)
Theorem X17_lines_of_pages (open_pdf : str → option (list (option str)))
    (pdf_path : str) (pages : list (option str)) :
  open_pdf pdf_path = Some pages →
  stripped_lines (blank_to_empty (extract_text_and_images (Some open_pdf) pdf_path))
  = concat (map (λ page, stripped_lines (default [] page)) pages).
Proof.
  intros Hopen. rewrite stripped_lines_blank_to_empty.
  unfold extract_text_and_images. rewrite Hopen.
  rewrite stripped_lines_join by reflexivity. by rewrite map_map.
Qed.

(** An instance: three pages, the second without text. *)
Lemma X17_lines_of_pages_witness :
  stripped_lines
    (blank_to_empty
       (extract_text_and_images
          (Some (λ _, Some [Some (T " Line1 "); None; Some (T "Line2")])) (T "main.pdf")))
  = [T "Line1"; T "Line2"].
Proof.
  exact (X17_lines_of_pages (λ _, Some [Some (T " Line1 "); None; Some (T "Line2")])
           (T "main.pdf") [Some (T " Line1 "); None; Some (T "Line2")] eq_refl).
Defined.
